(** * gitin: the repository model of [git/repository.go]

    A shallow embedding of the orchestration layer that [repository.go]
    builds on top of git2go (libgit2): branch loading, the seeding of the
    commit walk, the tree-to-tree diff of a commit and the textual
    rendering of a delta.

    The git engine itself is not part of the program.  It is a record of
    oracles ([lib.Repository], [lib.Package]) giving the result of every
    library call the Go code makes; the Go code is translated function by
    function on top of it.  Go's control effects are explicit:
    - a call returning [(v, err)] is a [Res];
    - a Go function runs in the monad [M], whose outcome is a value, an
      early [return nil, err], or a run-time panic (nil dereference,
      slice out of range);
    - [defer x.Free()] pushes on the frame's defer stack, which [func]
      unwinds on every exit of the function;
    - every handle acquired from or given back to the store is recorded
      in a trace of events. *)

From Stdlib Require Import ZArith List String Ascii Bool Lia DecimalString.
Import ListNotations.
Open Scope string_scope.
Open Scope list_scope.

(** Go's [+] on strings. *)
Infix "+++" := String.append (right associativity, at level 60).

(** ** Results of library calls and of Go functions *)

Definition error := string.

(** A library call of Go type [(A, error)]. *)
Inductive Res (A : Type) : Type :=
| ROk (a : A)
| RErr (err : error).
Arguments ROk {A} a.
Arguments RErr {A} err.

(** What running a Go function yields. *)
Inductive Outcome (A : Type) : Type :=
| Ok (a : A)
| Err (err : error)
| Panic (msg : string).
Arguments Ok {A} a.
Arguments Err {A} err.
Arguments Panic {A} msg.

Definition nil_dereference : string :=
  "invalid memory address or nil pointer dereference".
Definition slice_out_of_range : string :=
  "slice bounds out of range".

(** ** The git2go interface used by the program *)

Module lib.

(** The raw bytes of an object id. *)
Definition Oid := string.

(** Handles on store objects.  A handle stands for the object, two
    handles on one object are equal. *)
Definition Commit := N.
Definition Tree := N.
Definition Diff := N.
Definition DiffStats := N.
Definition Patch := N.
Definition RevWalk := N.
Definition BranchIterator := N.
Definition DiffOptions := N.

Record Signature : Type := mkSignature {
  sig_Name : string;
  sig_Email : string;
  sig_When : Z
}.

(** [*lib.Reference]: its name and its direct target ([nil] for a
    symbolic reference). *)
Record Reference : Type := mkReference {
  ref_Name : string;
  ref_Target : option Oid
}.

(** [*lib.Branch] as handed to the [ForEach] callback, with the result
    of each method the callback calls on it. *)
Record Branch : Type := mkBranch {
  br_Name : Res string;
  br_Reference : Reference;
  br_Resolve : Res Reference;
  br_IsRemote : bool;
  br_Upstream : Res (option Reference)
}.

Record DiffFile : Type := mkDiffFile {
  df_Path : string;
  df_Oid : Oid
}.

Record DiffDelta : Type := mkDiffDelta {
  dd_Status : Z;
  dd_OldFile : DiffFile;
  dd_NewFile : DiffFile
}.

Inductive DiffStatsFormat : Type := DiffStatsFull.
Inductive BranchType : Type := BranchAll.

(** [*lib.Repository]: the answers of the store. *)
Record Repository : Type := mkRepository {
  Head : Res Reference;
  NewBranchIterator : BranchType -> Res BranchIterator;
  bi_Branches : BranchIterator -> list Branch;
  Walk : Res RevWalk;
  rw_Push : RevWalk -> Oid -> option error;
  rw_Iterate : RevWalk -> Oid -> list Commit * option error;
  LookupCommit : Oid -> Res Commit;
  c_Id : Commit -> Oid;
  c_Author : Commit -> Signature;
  c_Summary : Commit -> string;
  c_Message : Commit -> string;
  c_Tree : Commit -> Res Tree;
  c_ParentCount : Commit -> nat;
  c_Parent : Commit -> nat -> option Commit;
  DiffTreeToTree : option Tree -> Tree -> DiffOptions -> Res Diff;
  d_Stats : Diff -> Res DiffStats;
  s_String : DiffStats -> DiffStatsFormat -> Z -> Res string;
  d_NumDeltas : Diff -> Res Z;
  d_Patch : Diff -> Z -> Res Patch;
  d_GetDelta : Diff -> Z -> Res DiffDelta;
  p_String : Patch -> Res string;
  p_Free : Patch -> option error
}.

(** The package-level functions. *)
Record Package : Type := mkPackage {
  OpenRepository : string -> Res Repository;
  NewOid : string -> Res Oid;
  oid_String : Oid -> string;
  DefaultDiffOptions : Res DiffOptions
}.

End lib.

(** ** Handles, events and the function frame *)

Inductive Handle : Type :=
| HTree (t : lib.Tree)
| HDiff (d : lib.Diff)
| HStats (s : lib.DiffStats)
| HPatch (p : lib.Patch)
| HWalk (w : lib.RevWalk)
| HBranchIter (b : lib.BranchIterator).

Definition Handle_eqb (a b : Handle) : bool :=
  match a, b with
  | HTree x, HTree y => N.eqb x y
  | HDiff x, HDiff y => N.eqb x y
  | HStats x, HStats y => N.eqb x y
  | HPatch x, HPatch y => N.eqb x y
  | HWalk x, HWalk y => N.eqb x y
  | HBranchIter x, HBranchIter y => N.eqb x y
  | _, _ => false
  end.

Inductive Event : Type :=
| Acquire (h : Handle)
| Release (h : Handle)
| CallDiffTreeToTree (old : option lib.Tree) (new : lib.Tree)
| CallPatch (i : Z)
| CallPush (oid : lib.Oid)
| Warn (msg : string).

(** Removes one occurrence of [h]. *)
Fixpoint remove_handle (h : Handle) (l : list Handle) : list Handle :=
  match l with
  | [] => []
  | x :: l' => if Handle_eqb h x then l' else x :: remove_handle h l'
  end.

(** The handles acquired and not yet released along a trace, oldest
    first. *)
Definition live_step (acc : list Handle) (ev : Event) : list Handle :=
  match ev with
  | Acquire h => acc ++ [h]
  | Release h => remove_handle h acc
  | _ => acc
  end.

Definition live (tr : list Event) : list Handle :=
  fold_left live_step tr [].

Record Frame : Type := mkFrame {
  trace : list Event;
  defers : list Handle
}.

Definition M (A : Type) : Type := Frame -> Outcome A * Frame.

(** A Go function seen from its caller: from the trace so far to its
    outcome and the trace extended. *)
Definition Go (A : Type) : Type := list Event -> Outcome A * list Event.

Definition ret {A} (a : A) : M A := fun fr => (Ok a, fr).

Definition bind {A B} (m : M A) (k : A -> M B) : M B :=
  fun fr =>
    match m fr with
    | (Ok a, fr') => k a fr'
    | (Err e, fr') => (Err e, fr')
    | (Panic p, fr') => (Panic p, fr')
    end.

Definition fail {A} (e : error) : M A := fun fr => (Err e, fr).
Definition panic {A} (msg : string) : M A := fun fr => (Panic msg, fr).

Definition emit (ev : Event) : M unit :=
  fun fr => (Ok tt, {| trace := trace fr ++ [ev]; defers := defers fr |}).

(** [defer h.Free()] *)
Definition defer (h : Handle) : M unit :=
  fun fr => (Ok tt, {| trace := trace fr; defers := h :: defers fr |}).

(** [v, err := f(); if err != nil { return nil, err }] *)
Definition try {A} (r : Res A) : M A :=
  match r with
  | ROk a => ret a
  | RErr e => fail e
  end.

(** [if err := f(); err != nil { return nil, err }] *)
Definition check (r : option error) : M unit :=
  match r with
  | None => ret tt
  | Some e => fail e
  end.

(** Use of a pointer. *)
Definition deref {A} (p : option A) : M A :=
  match p with
  | Some a => ret a
  | None => panic nil_dereference
  end.

(** Runs a function body in a fresh frame, then its deferred releases,
    last deferred first, whatever the outcome. *)
Definition func {A} (body : M A) : Go A :=
  fun tr =>
    let (r, fr) := body {| trace := tr; defers := [] |} in
    (r, trace fr ++ map Release (defers fr)).

(** A call of a Go function from inside a body. *)
Definition call {A} (f : Go A) : M A :=
  fun fr =>
    let (r, tr') := f (trace fr) in
    (r, {| trace := tr'; defers := defers fr |}).

Declare Scope go_scope.
Delimit Scope go_scope with go.
Notation "x <- m ; k" := (bind m (fun x => k))
  (at level 61, m at next level, right associativity) : go_scope.
Notation "m ;; k" := (bind m (fun _ => k))
  (at level 61, right associativity) : go_scope.
Notation "'let*' ( x , y ) <- m ; k" := (bind m (fun xy => let '(x, y) := xy in k))
  (at level 61, m at next level, x name, y name, right associativity) : go_scope.
Open Scope go_scope.

(** ** Go's standard library *)

Definition newline : string := String (ascii_of_nat 10) "".

(** [strconv.Itoa] *)
Definition strconv_Itoa (i : Z) : string :=
  NilZero.string_of_int (Z.to_int i).

(** [strings.Split(s, sep)] for a non-empty [sep]: [skip] bytes of a
    separator just matched are still to be dropped, [cur] is the piece
    being read. *)
Fixpoint split_from (sep s : string) (skip : nat) (cur : string) : list string :=
  match s with
  | EmptyString => [cur]
  | String ch rest =>
      match skip with
      | S k => split_from sep rest k cur
      | O =>
          if prefix sep s
          then cur :: split_from sep rest (String.length sep - 1) ""
          else split_from sep rest 0 (cur +++ String ch "")
      end
  end.

Definition strings_Split (s sep : string) : list string :=
  split_from sep s 0 "".

(** [s[:n]] *)
Definition slice_to (s : string) (n : nat) : Outcome string :=
  if Nat.leb n (String.length s) then Ok (substring 0 n s)
  else Panic slice_out_of_range.

(** ** The data model of [repository.go] *)

Definition CommitType := string.
Definition LocalCommit : CommitType := "local".
Definition EvenCommit : CommitType := "even".
Definition RemoteCommit : CommitType := "remote".

Record Contributor : Type := mkContributor {
  Contributor_Name : string;
  Email : string;
  When : Z
}.

Record Commit : Type := mkCommit {
  commit : option lib.Commit;
  Commit_Hash : string;
  Author : option Contributor;
  Message : string;
  Summary : string;
  Commit_Type : CommitType
}.

#[local] Unset Elimination Schemes.
Inductive Branch : Type := mkBranch {
  Branch_Name : string;
  FullName : string;
  Branch_Hash : string;
  Upstream : option Branch;
  Ahead : list Commit;
  Behind : list Commit;
  Clean : bool;
  isRemote : bool
}.
#[local] Set Elimination Schemes.

Record Remote : Type := mkRemote {
  Remote_Name : string;
  URL : list string
}.

Record Repository : Type := mkRepository {
  RepoID : string;
  Repository_Name : string;
  AbsPath : string;
  repo : lib.Repository;
  Branches : list Branch;
  Commits : list Commit;
  Remotes : list Remote
}.

Record DiffFile : Type := mkDiffFile {
  DiffFile_Path : string;
  DiffFile_Hash : string
}.

Record DiffDelta : Type := mkDiffDelta {
  Status : Z;
  OldFile : option DiffFile;
  NewFile : option DiffFile;
  Patch : string
}.

Record Diff : Type := mkDiff {
  deltas : list DiffDelta;
  stats : list string;
  patchs : list string
}.

Definition set_Branches (r : Repository) (bs : list Branch) : Repository :=
  {| RepoID := RepoID r; Repository_Name := Repository_Name r;
     AbsPath := AbsPath r; repo := repo r;
     Branches := bs; Commits := Commits r; Remotes := Remotes r |}.

Definition set_Commits (r : Repository) (cs : list Commit) : Repository :=
  {| RepoID := RepoID r; Repository_Name := Repository_Name r;
     AbsPath := AbsPath r; repo := repo r;
     Branches := Branches r; Commits := cs; Remotes := Remotes r |}.

(** ** Iteration helpers of git2go *)

(** [BranchIterator.ForEach]: the callback runs on each branch in the
    store's order until it returns an error; [st] is the state its
    closure captures. *)
Fixpoint BranchIterator_ForEach {S : Type} (bs : list lib.Branch)
    (f : lib.Branch -> S -> M (S * option error)) (st : S)
  : M (S * option error) :=
  match bs with
  | [] => ret (st, None)
  | b :: rest =>
      let* (st', err) <- f b st;
      match err with
      | Some e => ret (st', Some e)
      | None => BranchIterator_ForEach rest f st'
      end
  end.

(** [RevWalk.Iterate]: the callback runs on each commit until it answers
    [false]. *)
Fixpoint RevWalk_Iterate {S : Type} (cs : list lib.Commit)
    (f : lib.Commit -> S -> S * bool) (st : S) : S :=
  match cs with
  | [] => st
  | c :: rest =>
      let (st', more) := f c st in
      if more then RevWalk_Iterate rest f st' else st'
  end.

Section Program.

Variable git : lib.Package.

(** *** [loadBranches] *)

(** The callback given to [ForEach]; [bs] is the captured slice.  An
    [Oid.String()] on a nil target panics. *)
Definition loadBranches_callback (branch : lib.Branch) (bs : list Branch)
  : M (list Branch * option error) :=
  match lib.br_Name branch with
  | RErr err => ret (bs, Some err)
  | ROk name =>
      let fullname := lib.ref_Name (lib.br_Reference branch) in
      let rawOid := lib.ref_Target (lib.br_Reference branch) in
      let resolved :=
        match rawOid with
        | None =>
            match lib.br_Resolve branch with
            | RErr err => RErr err
            | ROk ref => ROk (lib.ref_Target ref)
            end
        | Some _ => ROk rawOid
        end in
      match resolved with
      | RErr err => ret (bs, Some err)
      | ROk rawOid =>
          oid <- deref rawOid;
          let hash := lib.oid_String git oid in
          let isRemote := lib.br_IsRemote branch in
          upstream <-
            (if negb isRemote then
               match lib.br_Upstream branch with
               | ROk (Some us) =>
                   target <- deref (lib.ref_Target us);
                   ret (Some {| Branch_Name := "";
                                FullName := lib.ref_Name us;
                                Branch_Hash := lib.oid_String git target;
                                Upstream := None;
                                Ahead := []; Behind := [];
                                Clean := false;
                                isRemote := true |})
               | _ => emit (Warn "upstream not found");; ret None
               end
             else ret None);
          let b := {| Branch_Name := name;
                      FullName := fullname;
                      Branch_Hash := hash;
                      Upstream := upstream;
                      Ahead := []; Behind := [];
                      Clean := false;
                      isRemote := isRemote |} in
          ret (bs ++ [b], None)
      end
  end.

(** The receiver after the call, with the error returned: [r.Branches]
    is assigned whether or not the iteration failed. *)
Definition Repository_loadBranches (r : Repository)
  : Go (Repository * option error) :=
  func (
    let bs := [] in
    match lib.NewBranchIterator (repo r) lib.BranchAll with
    | RErr err => ret (r, Some err)
    | ROk branchIter =>
        emit (Acquire (HBranchIter branchIter));;
        defer (HBranchIter branchIter);;
        let* (bs, err) <-
          BranchIterator_ForEach (lib.bi_Branches (repo r) branchIter)
            loadBranches_callback bs;
        ret (set_Branches r bs, err)
    end).

(** *** [loadCommits] *)

(** [for _, b := range r.Branches { if head.Target().String() == b.Hash
    { currentbranch = b } }]: the last branch at HEAD's hash wins. *)
Fixpoint loadCommits_currentbranch (head : lib.Reference) (bs : list Branch)
    (currentbranch : option Branch) : M (option Branch) :=
  match bs with
  | [] => ret currentbranch
  | b :: rest =>
      target <- deref (lib.ref_Target head);
      if String.eqb (lib.oid_String git target) (Branch_Hash b)
      then loadCommits_currentbranch head rest (Some b)
      else loadCommits_currentbranch head rest currentbranch
  end.

(** The callback given to [walk.Iterate]; [cs] is the captured slice. *)
Definition loadCommits_callback (s : lib.Repository) (c : lib.Commit)
    (cs : list Commit) : list Commit * bool :=
  let hash := lib.oid_String git (lib.c_Id s c) in
  let author := {| Contributor_Name := lib.sig_Name (lib.c_Author s c);
                   Email := lib.sig_Email (lib.c_Author s c);
                   When := lib.sig_When (lib.c_Author s c) |} in
  let sum := lib.c_Summary s c in
  let msg := lib.c_Message s c in
  let c' := {| commit := Some c;
               Commit_Hash := hash;
               Author := Some author;
               Message := msg;
               Summary := sum;
               Commit_Type := "" |} in
  (cs ++ [c'], true).

(** [Err e]: the method returned [e] and left the receiver as it was.
    [Ok r']: it returned [nil] with [r'.Commits] assigned; the error of
    [walk.Iterate] is dropped.  A nil [head.Target()] is a panic where it
    is used.  [defer walk.Free()] comes after the pushes. *)
Definition Repository_loadCommits (r : Repository) : Go Repository :=
  func (
    let cs := [] in
    head <- try (lib.Head (repo r));
    walk <- try (lib.Walk (repo r));
    emit (Acquire (HWalk walk));;
    currentbranch <- loadCommits_currentbranch head (Branches r) None;
    start <-
      match currentbranch with
      | Some cb =>
          up <- deref (Upstream cb);
          oid <- try (lib.NewOid git (Branch_Hash up));
          emit (CallPush oid);;
          check (lib.rw_Push (repo r) walk oid);;
          ret oid
      | None =>
          target <- deref (lib.ref_Target head);
          emit (CallPush target);;
          check (lib.rw_Push (repo r) walk target);;
          ret target
      end;
    defer (HWalk walk);;
    let (visited, _) := lib.rw_Iterate (repo r) walk start in
    let cs := RevWalk_Iterate visited (loadCommits_callback (repo r)) cs in
    ret (set_Commits r cs)).

(** *** [Open] *)

Definition Open (path : string) : Go Repository :=
  func (
    r <- try (lib.OpenRepository git path);
    let repo := {| RepoID := ""; Repository_Name := ""; AbsPath := path;
                   repo := r; Branches := []; Commits := [];
                   Remotes := [] |} in
    let* (repo, err) <- call (Repository_loadBranches repo);
    check err;;
    repo <- call (Repository_loadCommits repo);
    ret repo).

Definition Commit_String (c : Commit) : string := Commit_Hash c.

Definition Contributor_String (c : Contributor) : string :=
  Contributor_Name c +++ " " +++ "<" +++ Email c +++ ">".

(** *** [Diff] *)

(** The [DiffDelta] built from the store's delta at one index, before
    its [Patch] is set. *)
Definition DiffDelta_of (dd : lib.DiffDelta) : DiffDelta :=
  {| Status := lib.dd_Status dd;
     NewFile := Some {| DiffFile_Path := lib.df_Path (lib.dd_NewFile dd);
                        DiffFile_Hash :=
                          lib.oid_String git (lib.df_Oid (lib.dd_NewFile dd)) |};
     OldFile := Some {| DiffFile_Path := lib.df_Path (lib.dd_OldFile dd);
                        DiffFile_Hash :=
                          lib.oid_String git (lib.df_Oid (lib.dd_OldFile dd)) |};
     Patch := "" |}.

(** [d.Patch = patchtext] *)
Definition set_Patch (d : DiffDelta) (patchtext : string) : DiffDelta :=
  {| Status := Status d; OldFile := OldFile d; NewFile := NewFile d;
     Patch := patchtext |}.

(** [for i := 0; i < deltas; i++ { ... }], with [n] iterations left
    from index [i]; a [continue] is the recursive call on the
    accumulators unchanged. *)
Fixpoint Diff_loop (s : lib.Repository) (diff : lib.Diff) (i : Z) (n : nat)
    (ddeltas : list DiffDelta) (patchs : list string)
  : M (list DiffDelta * list string) :=
  match n with
  | O => ret (ddeltas, patchs)
  | S n' =>
      emit (CallPatch i);;
      match lib.d_Patch s diff i with
      | RErr _ => Diff_loop s diff (i + 1) n' ddeltas patchs
      | ROk patch =>
          emit (Acquire (HPatch patch));;
          match lib.d_GetDelta s diff i with
          | RErr _ => Diff_loop s diff (i + 1) n' ddeltas patchs
          | ROk dd =>
              let d := DiffDelta_of dd in
              match lib.p_String s patch with
              | RErr _ => Diff_loop s diff (i + 1) n' ddeltas patchs
              | ROk patchtext =>
                  let d := set_Patch d patchtext in
                  let ddeltas := ddeltas ++ [d] in
                  let patchs := patchs ++ [patchtext] in
                  check (lib.p_Free s patch);;
                  emit (Release (HPatch patch));;
                  Diff_loop s diff (i + 1) n' ddeltas patchs
              end
          end
      end
  end.

Definition Repository_Diff (r : Repository) (c : Commit) : Go Diff :=
  func (
    cm <- deref (commit c);
    cTree <- try (lib.c_Tree (repo r) cm);
    emit (Acquire (HTree cTree));;
    defer (HTree cTree);;
    pTree <-
      (if Nat.ltb 0 (lib.c_ParentCount (repo r) cm) then
         parent <- deref (lib.c_Parent (repo r) cm 0);
         pTree <- try (lib.c_Tree (repo r) parent);
         emit (Acquire (HTree pTree));;
         defer (HTree pTree);;
         ret (Some pTree)
       else ret None);
    opt <- try (lib.DefaultDiffOptions git);
    emit (CallDiffTreeToTree pTree cTree);;
    diff <- try (lib.DiffTreeToTree (repo r) pTree cTree opt);
    emit (Acquire (HDiff diff));;
    defer (HDiff diff);;
    stats <- try (lib.d_Stats (repo r) diff);
    emit (Acquire (HStats stats));;
    statsText <- try (lib.s_String (repo r) stats lib.DiffStatsFull 80);
    let ddeltas := [] in
    let patchs := [] in
    deltas <- try (lib.d_NumDeltas (repo r) diff);
    let* (ddeltas, patchs) <-
      Diff_loop (repo r) diff 0 (Z.to_nat deltas) ddeltas patchs;
    let d := {| deltas := ddeltas;
                stats := strings_Split statsText newline;
                patchs := patchs |} in
    ret d).

Definition Repository_DiffFromHash (r : Repository) (hash : string) : Go Diff :=
  func (
    objectid <- try (lib.NewOid git hash);
    c <- try (lib.LookupCommit (repo r) objectid);
    call (Repository_Diff r {| commit := Some c; Commit_Hash := "";
                               Author := None; Message := "";
                               Summary := ""; Commit_Type := "" |})).

Definition Deltas (d : Diff) : list DiffDelta := deltas d.
Definition Patches (d : Diff) : list string := patchs d.
Definition Stats (d : Diff) : list string := stats d.

(** *** Rendering of a delta *)

Definition DiffDelta_String (d : DiffDelta) : Outcome string :=
  let s := "" in
  let s := s +++ strconv_Itoa (Status d) +++ " " in
  match OldFile d with
  | None => Panic nil_dereference
  | Some old =>
      if Nat.ltb 0 (String.length (DiffFile_Path old)) then
        match NewFile d with
        | None => Panic nil_dereference
        | Some new =>
            if Nat.ltb 0 (String.length (DiffFile_Path new)) then
              if String.eqb (DiffFile_Path old) (DiffFile_Path new) then
                match slice_to (DiffFile_Hash old) 7,
                      slice_to (DiffFile_Hash new) 7 with
                | Ok oldabbr, Ok newabbr =>
                    Ok (s +++ DiffFile_Path old +++ " " +++ oldabbr
                          +++ ".." +++ newabbr)
                | _, _ => Panic slice_out_of_range
                end
              else Ok (s +++ DiffFile_Path old +++ " -> " +++ DiffFile_Path new)
            else Ok s
        end
      else Ok s
  end.

Definition DiffDelta_PatchString (d : DiffDelta) : string :=
  "patch: " +++ Patch d.

End Program.

(** ** What the loop of [Diff] computes *)

Section DiffLoop.

Variable git : lib.Package.
Variable s : lib.Repository.
Variable diff : lib.Diff.

(** The delta the loop appends at index [i], if it appends one: the
    patch, the structured delta and the patch text must all be
    obtained. *)
Definition extract (i : Z) : option DiffDelta :=
  match lib.d_Patch s diff i with
  | RErr _ => None
  | ROk patch =>
      match lib.d_GetDelta s diff i with
      | RErr _ => None
      | ROk dd =>
          match lib.p_String s patch with
          | RErr _ => None
          | ROk patchtext => Some (set_Patch (DiffDelta_of git dd) patchtext)
          end
      end
  end.

(** The deltas extracted over the [n] indices from [i], in order. *)
Fixpoint extracted (i : Z) (n : nat) : list DiffDelta :=
  match n with
  | O => []
  | S n' =>
      match extract i with
      | Some d => d :: extracted (i + 1) n'
      | None => extracted (i + 1) n'
      end
  end.

(** The error of [patch.Free()] at index [i], when the loop reaches
    that call. *)
Definition release_error (i : Z) : option error :=
  match lib.d_Patch s diff i with
  | RErr _ => None
  | ROk patch =>
      match lib.d_GetDelta s diff i with
      | RErr _ => None
      | ROk _ =>
          match lib.p_String s patch with
          | RErr _ => None
          | ROk _ => lib.p_Free s patch
          end
      end
  end.

End DiffLoop.

(** ** A concrete store

    A history A <- B <- C with HEAD at C; the root commit A adds the
    three files [a.txt], [b.txt] and [c.txt].  The branches, the answers of the patch
    calls and of their release are left open, to exercise each path. *)

Module Example.

Definition hex_digit (n : nat) : ascii :=
  match get n "0123456789abcdef" with
  | Some c => c
  | None => "0"%char
  end.

Fixpoint hex_encode (s : string) : string :=
  match s with
  | EmptyString => ""
  | String c rest =>
      String (hex_digit (nat_of_ascii c / 16))
        (String (hex_digit (nat_of_ascii c mod 16)) (hex_encode rest))
  end.

Definition hex_value (c : ascii) : option nat :=
  let n := nat_of_ascii c in
  if ((48 <=? n) && (n <=? 57))%nat then Some (n - 48)
  else if ((97 <=? n) && (n <=? 102))%nat then Some (n - 87)
  else if ((65 <=? n) && (n <=? 70))%nat then Some (n - 55)
  else None.

Fixpoint hex_decode (s : string) : option string :=
  match s with
  | EmptyString => Some ""
  | String hi (String lo rest) =>
      match hex_value hi, hex_value lo, hex_decode rest with
      | Some h, Some l, Some r => Some (String (ascii_of_nat (16 * h + l)) r)
      | _, _, _ => None
      end
  | String _ EmptyString => None
  end.

Definition git : lib.Package :=
  {| lib.OpenRepository := fun _ => RErr "repository not found";
     lib.NewOid := fun s =>
       if (40 <? String.length s)%nat then RErr "string is too long for oid"
       else match hex_decode s with
            | None => RErr "invalid hex string"
            | Some o =>
                if (String.length o =? 20)%nat then ROk o else RErr "Invalid Oid"
            end;
     lib.oid_String := hex_encode;
     lib.DefaultDiffOptions := ROk 0%N |}.

(** Twenty times the byte [c]. *)
Definition oid_of (c : ascii) : lib.Oid :=
  string_of_list_ascii (repeat c 20).

Definition oidA : lib.Oid := oid_of "a".
Definition oidB : lib.Oid := oid_of "b".
Definition oidC : lib.Oid := oid_of "c".
Definition oid_zero : lib.Oid := oid_of zero.
Definition blob_a : lib.Oid := oid_of "1".
Definition blob_b : lib.Oid := oid_of "2".
Definition blob_c : lib.Oid := oid_of "3".


Definition statsText : string :=
  " a.txt | 1 +" +++ newline +++
  " b.txt | 1 +" +++ newline +++
  " c.txt | 1 +" +++ newline +++
  " 3 files changed, 3 insertions(+)" +++ newline.

Definition store (branches : list lib.Branch)
    (text : lib.Patch -> Res string) (free : lib.Patch -> option error)
  : lib.Repository :=
  {| lib.Head := ROk {| lib.ref_Name := "refs/heads/main";
                        lib.ref_Target := Some oidC |};
     lib.NewBranchIterator := fun _ => ROk 1%N;
     lib.bi_Branches := fun _ => branches;
     lib.Walk := ROk 2%N;
     lib.rw_Push := fun _ _ => None;
     lib.rw_Iterate := fun _ start =>
       if String.eqb start oidC then ([3; 2; 1]%N, None)
       else if String.eqb start oidB then ([2; 1]%N, None)
       else if String.eqb start oidA then ([1]%N, None)
       else ([], Some "object not found");
     lib.LookupCommit := fun oid =>
       if String.eqb oid oidA then ROk 1%N
       else if String.eqb oid oidB then ROk 2%N
       else if String.eqb oid oidC then ROk 3%N
       else RErr "object not found";
     lib.c_Id := fun c =>
       if N.eqb c 1 then oidA else if N.eqb c 2 then oidB else oidC;
     lib.c_Author := fun _ =>
       {| lib.sig_Name := "Ada"; lib.sig_Email := "ada@example.org";
          lib.sig_When := 0%Z |};
     lib.c_Summary := fun _ => "summary";
     lib.c_Message := fun _ => "summary" +++ newline;
     lib.c_Tree := fun c => ROk (10 + c)%N;
     lib.c_ParentCount := fun c => if N.eqb c 1 then 0 else 1;
     lib.c_Parent := fun c n =>
       if N.eqb c 1 then None
       else match n with O => Some (c - 1)%N | S _ => None end;
     lib.DiffTreeToTree := fun _ new _ => ROk (100 + new)%N;
     lib.d_Stats := fun d => ROk (200 + d)%N;
     lib.s_String := fun _ _ _ => ROk statsText;
     lib.d_NumDeltas := fun _ => ROk 3%Z;
     lib.d_Patch := fun _ i => ROk (Z.to_N (30 + i));
     lib.d_GetDelta := fun _ i =>
       ROk {| lib.dd_Status := 1%Z;
              lib.dd_OldFile := {| lib.df_Path := ""; lib.df_Oid := oid_zero |};
              lib.dd_NewFile :=
                if Z.eqb i 0
                then {| lib.df_Path := "a.txt"; lib.df_Oid := blob_a |}
                else if Z.eqb i 1
              then {| lib.df_Path := "b.txt"; lib.df_Oid := blob_b |}
              else {| lib.df_Path := "c.txt"; lib.df_Oid := blob_c |} |};
     lib.p_String := text;
     lib.p_Free := free |}.

Definition repository (s : lib.Repository) (bs : list Branch) : Repository :=
  {| RepoID := ""; Repository_Name := ""; AbsPath := "/repo"; repo := s;
     Branches := bs; Commits := []; Remotes := [] |}.

(** A commit holding the store handle [c], as the walk builds it. *)
Definition walked (s : lib.Repository) (c : lib.Commit) : Commit :=
  {| commit := Some c;
     Commit_Hash := hex_encode (lib.c_Id s c);
     Author := Some {| Contributor_Name := "Ada";
                       Email := "ada@example.org"; When := 0%Z |};
     Message := "summary" +++ newline;
     Summary := "summary";
     Commit_Type := "" |}.

Definition all_text (p : lib.Patch) : Res string := ROk "@@ +1 @@".
Definition no_text_for_b (p : lib.Patch) : Res string :=
  if N.eqb p 31 then RErr "patch not readable" else ROk "@@ +1 @@".
Definition free_ok (p : lib.Patch) : option error := None.
Definition free_fails_for_b (p : lib.Patch) : option error :=
  if N.eqb p 31 then Some "release failed" else None.

(** The local branch [main] tracks [origin/main]; both are at C. *)
Definition main_tracking : lib.Branch :=
  {| lib.br_Name := ROk "main";
     lib.br_Reference := {| lib.ref_Name := "refs/heads/main";
                            lib.ref_Target := Some oidC |};
     lib.br_Resolve := RErr "not symbolic";
     lib.br_IsRemote := false;
     lib.br_Upstream := ROk (Some {| lib.ref_Name := "refs/remotes/origin/main";
                                      lib.ref_Target := Some oidC |}) |}.

Definition origin_main : lib.Branch :=
  {| lib.br_Name := ROk "origin/main";
     lib.br_Reference := {| lib.ref_Name := "refs/remotes/origin/main";
                            lib.ref_Target := Some oidC |};
     lib.br_Resolve := RErr "not symbolic";
     lib.br_IsRemote := true;
     lib.br_Upstream := RErr "not a local branch" |}.

(** A local branch at C with no upstream configured. *)
Definition main_untracked : lib.Branch :=
  {| lib.br_Name := ROk "main";
     lib.br_Reference := {| lib.ref_Name := "refs/heads/main";
                            lib.ref_Target := Some oidC |};
     lib.br_Resolve := RErr "not symbolic";
     lib.br_IsRemote := false;
     lib.br_Upstream := RErr "config value 'branch.main.remote' was not found" |}.

(** The repository over the store whose patches are all readable and
    released, and its root commit A. *)
Definition store_ok : lib.Repository := store [] all_text free_ok.
Definition repo_ok : Repository := repository store_ok [].

(** The same with the patch of [b.txt] unreadable. *)
Definition store_skip : lib.Repository := store [] no_text_for_b free_ok.
Definition repo_skip : Repository := repository store_skip [].

(** The same with the release of the patch of [b.txt] failing. *)
Definition store_nofree : lib.Repository := store [] all_text free_fails_for_b.
Definition repo_nofree : Repository := repository store_nofree [].

Definition empty_Diff : Diff := {| deltas := []; stats := []; patchs := [] |}.

Definition value_of (x : Outcome Diff * list Event) : Diff :=
  match fst x with
  | Ok d => d
  | _ => empty_Diff
  end.

Definition diff_ok : Diff :=
  Eval vm_compute in
    value_of (Repository_Diff git repo_ok (walked store_ok 1%N) []).
Definition trace_ok : list Event :=
  Eval vm_compute in
    snd (Repository_Diff git repo_ok (walked store_ok 1%N) []).

Definition diff_skip : Diff :=
  Eval vm_compute in
    value_of (Repository_Diff git repo_skip (walked store_skip 1%N) []).
Definition trace_skip : list Event :=
  Eval vm_compute in
    snd (Repository_Diff git repo_skip (walked store_skip 1%N) []).

(** The branches [loadBranches] builds from the branches of a store. *)
Definition loaded (s : lib.Repository) : list Branch :=
  match fst (Repository_loadBranches git (repository s []) []) with
  | Ok (r, _) => Branches r
  | _ => []
  end.

(** One local branch at HEAD, no upstream configured. *)
Definition store_untracked : lib.Repository :=
  store [main_untracked] all_text free_ok.
Definition repo_untracked : Repository :=
  repository store_untracked (loaded store_untracked).

(** A local branch at HEAD tracking a remote branch at the same commit;
    the iterator yields the local branch first. *)
Definition store_synced : lib.Repository :=
  store [main_tracking; origin_main] all_text free_ok.
Definition repo_synced : Repository :=
  repository store_synced (loaded store_synced).

(** The repository [repo_ok] after its commits were loaded. *)
Definition repo_walked : Repository :=
  set_Commits repo_ok
    [walked store_ok 3%N; walked store_ok 2%N; walked store_ok 1%N].

(** The package whose [OpenRepository] finds the store [s] at [/repo]. *)
Definition git_at (s : lib.Repository) : lib.Package :=
  {| lib.OpenRepository := fun path =>
       if String.eqb path "/repo" then ROk s
       else RErr "repository not found";
     lib.NewOid := lib.NewOid git;
     lib.oid_String := lib.oid_String git;
     lib.DefaultDiffOptions := lib.DefaultDiffOptions git |}.

(** One local branch at HEAD, tracking a remote branch that is not
    listed. *)
Definition store_tracking : lib.Repository :=
  store [main_tracking] all_text free_ok.

(** A store answering like [s], except for the pushes on a walk. *)
Definition with_Push (s : lib.Repository)
    (push : lib.RevWalk -> lib.Oid -> option error) : lib.Repository :=
  {| lib.Head := lib.Head s;
     lib.NewBranchIterator := lib.NewBranchIterator s;
     lib.bi_Branches := lib.bi_Branches s;
     lib.Walk := lib.Walk s;
     lib.rw_Push := push;
     lib.rw_Iterate := lib.rw_Iterate s;
     lib.LookupCommit := lib.LookupCommit s;
     lib.c_Id := lib.c_Id s;
     lib.c_Author := lib.c_Author s;
     lib.c_Summary := lib.c_Summary s;
     lib.c_Message := lib.c_Message s;
     lib.c_Tree := lib.c_Tree s;
     lib.c_ParentCount := lib.c_ParentCount s;
     lib.c_Parent := lib.c_Parent s;
     lib.DiffTreeToTree := lib.DiffTreeToTree s;
     lib.d_Stats := lib.d_Stats s;
     lib.s_String := lib.s_String s;
     lib.d_NumDeltas := lib.d_NumDeltas s;
     lib.d_Patch := lib.d_Patch s;
     lib.d_GetDelta := lib.d_GetDelta s;
     lib.p_String := lib.p_String s;
     lib.p_Free := lib.p_Free s |}.

Definition store_nopush : lib.Repository :=
  with_Push store_ok (fun _ _ => Some "push refused").

(** A branch whose short name cannot be read. *)
Definition unnamed_branch : lib.Branch :=
  {| lib.br_Name := RErr "invalid branch name";
     lib.br_Reference := {| lib.ref_Name := "refs/heads/broken";
                            lib.ref_Target := Some oidA |};
     lib.br_Resolve := RErr "not symbolic";
     lib.br_IsRemote := false;
     lib.br_Upstream := RErr "no upstream" |}.

Definition store_broken : lib.Repository :=
  store [main_untracked; unnamed_branch; origin_main] all_text free_ok.

(** Branches as [loadBranches] leaves them: a remote branch at C, then a
    local branch at C whose upstream is one commit behind, at B. *)
Definition remote_at_C : Branch :=
  {| Branch_Name := "origin/topic"; FullName := "refs/remotes/origin/topic";
     Branch_Hash := hex_encode oidC; Upstream := None;
     Ahead := []; Behind := []; Clean := false; isRemote := true |}.

Definition upstream_at_B : Branch :=
  {| Branch_Name := ""; FullName := "refs/remotes/origin/main";
     Branch_Hash := hex_encode oidB; Upstream := None;
     Ahead := []; Behind := []; Clean := false; isRemote := true |}.

Definition main_ahead : Branch :=
  {| Branch_Name := "main"; FullName := "refs/heads/main";
     Branch_Hash := hex_encode oidC; Upstream := Some upstream_at_B;
     Ahead := []; Behind := []; Clean := false; isRemote := false |}.

Definition repo_ahead : Repository :=
  repository store_ok [remote_at_C; main_ahead; upstream_at_B].

Definition repo_nopush : Repository := repository store_nopush [].

Definition repo_broken : Repository :=
  repository store_broken (loaded store_broken).

(** What [Open] returns on the store [store_tracking]. *)
Definition opened : Repository :=
  match fst (Open (git_at store_tracking) "/repo" []) with
  | Ok r => r
  | _ => repository store_tracking []
  end.

End Example.
(** ** Predicates used in the statements *)

(** The calls [Diff] makes before its loop all succeed on [c]: the tree
    [cTree] of the commit, the tree [pTree] of its first parent ([None]
    for a commit without parent), their diff [diff], the statistics text
    and the number of deltas. *)
Definition Diff_setup (git : lib.Package) (r : Repository) (c : Commit)
    (cTree : lib.Tree) (pTree : option lib.Tree) (diff : lib.Diff)
    (statsText : string) (deltas : Z) : Prop :=
  exists cm opt st,
    commit c = Some cm /\
    lib.c_Tree (repo r) cm = ROk cTree /\
    ((lib.c_ParentCount (repo r) cm = 0 /\ pTree = None) \/
     (0 < lib.c_ParentCount (repo r) cm /\
      exists parent pt,
        lib.c_Parent (repo r) cm 0 = Some parent /\
        lib.c_Tree (repo r) parent = ROk pt /\
        pTree = Some pt)) /\
    lib.DefaultDiffOptions git = ROk opt /\
    lib.DiffTreeToTree (repo r) pTree cTree opt = ROk diff /\
    lib.d_Stats (repo r) diff = ROk st /\
    lib.s_String (repo r) st lib.DiffStatsFull 80 = ROk statsText /\
    lib.d_NumDeltas (repo r) diff = ROk deltas.




(** The upstream invariant of a loaded branch. *)
Definition Branch_upstream_ok (b : Branch) : Prop :=
  (isRemote b = false ->
   forall u, Upstream b = Some u -> isRemote u = true) /\
  (isRemote b = true -> Upstream b = None).

(** What [loadCommits] materializes: the store handle, and its id
    printed as the hash. *)
Definition walked_commit (git : lib.Package) (s : lib.Repository)
    (c : Commit) : Prop :=
  exists ch,
    commit c = Some ch /\
    Commit_Hash c = lib.oid_String git (lib.c_Id s ch) /\
    Commit_Type c = "".

(** The store finds a commit back from its printed id. *)
Definition resolves_back (git : lib.Package) (s : lib.Repository)
    (ch : lib.Commit) : Prop :=
  lib.NewOid git (lib.oid_String git (lib.c_Id s ch)) = ROk (lib.c_Id s ch) /\
  lib.LookupCommit s (lib.c_Id s ch) = ROk ch.

(** The branch [loadCommits] takes as current: the last one of the list
    whose hash is [hash], [cur] when there is none. *)
Fixpoint last_at (hash : string) (bs : list Branch) (cur : option Branch)
  : option Branch :=
  match bs with
  | [] => cur
  | b :: rest =>
      if String.eqb hash (Branch_Hash b) then last_at hash rest (Some b)
      else last_at hash rest cur
  end.

(** Counting the acquisitions and the releases of a handle in a trace. *)
Definition is_acquire (h : Handle) (ev : Event) : bool :=
  match ev with
  | Acquire h' => Handle_eqb h h'
  | _ => false
  end.

Definition is_release (h : Handle) (ev : Event) : bool :=
  match ev with
  | Release h' => Handle_eqb h h'
  | _ => false
  end.

Definition acquisitions (h : Handle) (evs : list Event) : nat :=
  List.length (filter (is_acquire h) evs).

Definition releases (h : Handle) (evs : list Event) : nat :=
  List.length (filter (is_release h) evs).

(** The handles [Diff] releases through [defer]. *)
Definition deferred_kind (h : Handle) : bool :=
  match h with
  | HTree _ | HDiff _ => true
  | _ => false
  end.

(** The number of line feeds of a text. *)
Fixpoint newlines (s : string) : nat :=
  match s with
  | EmptyString => 0
  | String ch rest =>
      if Ascii.eqb ch (ascii_of_nat 10) then S (newlines rest)
      else newlines rest
  end.

(** The indices of the patches asked for along a trace, in order. *)
Fixpoint patch_calls (evs : list Event) : list Z :=
  match evs with
  | [] => []
  | CallPatch i :: rest => i :: patch_calls rest
  | _ :: rest => patch_calls rest
  end.

(** The tree-to-tree diffs asked for along a trace, in order. *)
Fixpoint tree_calls (evs : list Event) : list (option lib.Tree * lib.Tree) :=
  match evs with
  | [] => []
  | CallDiffTreeToTree old new :: rest => (old, new) :: tree_calls rest
  | _ :: rest => tree_calls rest
  end.

(** The events of the loop of [Diff]. *)
Definition patch_event (ev : Event) : Prop :=
  match ev with
  | CallPatch _ | Acquire (HPatch _) | Release (HPatch _) => True
  | _ => False
  end.

(** The patches acquired, and released, along a trace. *)
Fixpoint patches_acquired (evs : list Event) : list lib.Patch :=
  match evs with
  | [] => []
  | Acquire (HPatch p) :: rest => p :: patches_acquired rest
  | _ :: rest => patches_acquired rest
  end.

Fixpoint patches_released (evs : list Event) : list lib.Patch :=
  match evs with
  | [] => []
  | Release (HPatch p) :: rest => p :: patches_released rest
  | _ :: rest => patches_released rest
  end.

(** The patches the loop obtains over the [n] indices from [i], in
    order, each with its fate: [true] when the delta and the text are
    obtained too (the turn reaches [patch.Free()]), [false] when the turn
    is skipped. *)
Fixpoint patch_fates (s : lib.Repository) (diff : lib.Diff) (i : Z)
    (n : nat) : list (lib.Patch * bool) :=
  match n with
  | O => []
  | S n' =>
      match lib.d_Patch s diff i with
      | RErr _ => patch_fates s diff (i + 1) n'
      | ROk patch =>
          match lib.d_GetDelta s diff i with
          | RErr _ => (patch, false) :: patch_fates s diff (i + 1) n'
          | ROk _ =>
              match lib.p_String s patch with
              | RErr _ => (patch, false) :: patch_fates s diff (i + 1) n'
              | ROk _ => (patch, true) :: patch_fates s diff (i + 1) n'
              end
          end
      end
  end.

(** [Diff] dereferences a nil handle on [c]: the commit's own, or that of
    its first parent. *)
Definition Diff_nil_handle (r : Repository) (c : Commit) : Prop :=
  commit c = None \/
  exists cm cTree,
    commit c = Some cm /\
    lib.c_Tree (repo r) cm = ROk cTree /\
    0 < lib.c_ParentCount (repo r) cm /\
    lib.c_Parent (repo r) cm 0 = None.

(** The tree [Diff] takes as the old side for the commit handle [cm]. *)
Definition Diff_parent_tree (r : Repository) (cm : lib.Commit)
    (pTree : option lib.Tree) : Prop :=
  (lib.c_ParentCount (repo r) cm = 0 /\ pTree = None) \/
  (0 < lib.c_ParentCount (repo r) cm /\
   exists parent pt,
     lib.c_Parent (repo r) cm 0 = Some parent /\
     lib.c_Tree (repo r) parent = ROk pt /\
     pTree = Some pt).

(** The statistics, their text or the number of deltas of [diff] cannot
    be read, with the error [e]. *)
Definition Diff_stats_error (s : lib.Repository) (diff : lib.Diff)
    (e : error) : Prop :=
  lib.d_Stats s diff = RErr e \/
  exists st,
    lib.d_Stats s diff = ROk st /\
    (lib.s_String s st lib.DiffStatsFull 80 = RErr e \/
     exists text,
       lib.s_String s st lib.DiffStatsFull 80 = ROk text /\
       lib.d_NumDeltas s diff = RErr e).

(** The diff of the trees cannot be set up, with the error [e]. *)
Definition Diff_engine_error (git : lib.Package) (s : lib.Repository)
    (pTree : option lib.Tree) (cTree : lib.Tree) (e : error) : Prop :=
  lib.DefaultDiffOptions git = RErr e \/
  exists opt,
    lib.DefaultDiffOptions git = ROk opt /\
    (lib.DiffTreeToTree s pTree cTree opt = RErr e \/
     exists diff,
       lib.DiffTreeToTree s pTree cTree opt = ROk diff /\
       Diff_stats_error s diff e).

(** One of the calls [Diff] makes before its loop returns the error
    [e]. *)
Definition Diff_setup_error (git : lib.Package) (r : Repository)
    (c : Commit) (e : error) : Prop :=
  exists cm,
    commit c = Some cm /\
    (lib.c_Tree (repo r) cm = RErr e \/
     exists cTree,
       lib.c_Tree (repo r) cm = ROk cTree /\
       ((0 < lib.c_ParentCount (repo r) cm /\
         exists parent,
           lib.c_Parent (repo r) cm 0 = Some parent /\
           lib.c_Tree (repo r) parent = RErr e) \/
        exists pTree,
          Diff_parent_tree r cm pTree /\
          Diff_engine_error git (repo r) pTree cTree e)).

(** The indices [i], [i + 1], ... of [n] turns of the loop. *)
Definition indices (i : Z) (n : nat) : list Z :=
  map (fun k => (i + Z.of_nat k)%Z) (seq 0 n).

(** Whether [loadBranches] gives the branch an [Upstream]. *)
Definition has_upstream (b : lib.Branch) : bool :=
  negb (lib.br_IsRemote b) &&
  match lib.br_Upstream b with
  | ROk (Some _) => true
  | _ => false
  end.


(** A text without line feed. *)
Definition one_line (s : string) : Prop := newlines s = 0.

(** The direct target of a store branch, or that of its resolution when
    it has none. *)
Definition resolves_to (b : lib.Branch) (oid : lib.Oid) : Prop :=
  lib.ref_Target (lib.br_Reference b) = Some oid \/
  (lib.ref_Target (lib.br_Reference b) = None /\
   exists ref, lib.br_Resolve b = ROk ref /\ lib.ref_Target ref = Some oid).

(** The Branch [nb] is what [loadBranches] builds from the store branch
    [b]. *)
Definition loaded_from (git : lib.Package) (b : lib.Branch) (nb : Branch)
  : Prop :=
  lib.br_Name b = ROk (Branch_Name nb) /\
  FullName nb = lib.ref_Name (lib.br_Reference b) /\
  isRemote nb = lib.br_IsRemote b /\
  (exists oid, resolves_to b oid /\ Branch_Hash nb = lib.oid_String git oid) /\
  Ahead nb = [] /\ Behind nb = [] /\ Clean nb = false /\
  match Upstream nb with
  | None => has_upstream b = false
  | Some up =>
      exists us target,
        lib.br_IsRemote b = false /\
        lib.br_Upstream b = ROk (Some us) /\
        lib.ref_Target us = Some target /\
        up = {| Branch_Name := "";
                FullName := lib.ref_Name us;
                Branch_Hash := lib.oid_String git target;
                Upstream := None;
                Ahead := []; Behind := [];
                Clean := false;
                isRemote := true |}
  end.

(** The callback of [loadBranches] returns the error [e] on [b]. *)
Definition unloadable (b : lib.Branch) (e : error) : Prop :=
  lib.br_Name b = RErr e \/
  ((exists name, lib.br_Name b = ROk name) /\
   lib.ref_Target (lib.br_Reference b) = None /\
   lib.br_Resolve b = RErr e).


(** What [Diff] logs before its loop, and the releases it has deferred
    by then, last deferred first. *)
Definition Diff_setup_events (cTree : lib.Tree) (pTree : option lib.Tree)
    (diff : lib.Diff) (st : lib.DiffStats) : list Event :=
  [Acquire (HTree cTree)]
    ++ match pTree with
       | Some pt => [Acquire (HTree pt)]
       | None => []
       end
    ++ [CallDiffTreeToTree pTree cTree; Acquire (HDiff diff);
        Acquire (HStats st)].

Definition Diff_deferred (cTree : lib.Tree) (pTree : option lib.Tree)
    (diff : lib.Diff) : list Handle :=
  HDiff diff
    :: match pTree with
       | Some pt => [HTree pt]
       | None => []
       end
    ++ [HTree cTree].

(** Whether the loop appends a delta at index [j]. *)
Definition extracts (git : lib.Package) (s : lib.Repository)
    (diff : lib.Diff) (j : Z) : bool :=
  match extract git s diff j with
  | Some _ => true
  | None => false
  end.

(** The delta [dl] is the one built at index [j]: the store's delta
    copied, its ids printed, with the text of the patch of that index. *)
Definition built_at (git : lib.Package) (s : lib.Repository)
    (diff : lib.Diff) (j : Z) (dl : DiffDelta) : Prop :=
  exists patch dd text,
    lib.d_Patch s diff j = ROk patch /\
    lib.d_GetDelta s diff j = ROk dd /\
    lib.p_String s patch = ROk text /\
    dl = {| Status := lib.dd_Status dd;
            OldFile :=
              Some {| DiffFile_Path := lib.df_Path (lib.dd_OldFile dd);
                      DiffFile_Hash :=
                        lib.oid_String git (lib.df_Oid (lib.dd_OldFile dd)) |};
            NewFile :=
              Some {| DiffFile_Path := lib.df_Path (lib.dd_NewFile dd);
                      DiffFile_Hash :=
                        lib.oid_String git (lib.df_Oid (lib.dd_NewFile dd)) |};
            Patch := text |}.

(** * Properties *)

(** ** The loop of [Diff] *)

Ltac go_simpl := cbn [trace defers fst snd] in *.

Ltac go_unfold :=
  unfold call, check, try, deref, bind, emit, defer, ret, fail, panic in *;
  go_simpl.

Section DiffLoopFacts.

Variable git : lib.Package.
Variable s : lib.Repository.
Variable diff : lib.Diff.


(** One turn of the loop, with the frame written out. *)
Lemma Diff_loop_S :
  forall n i dds ps fr,
    Diff_loop git s diff i (S n) dds ps fr =
      let fr1 := {| trace := trace fr ++ [CallPatch i];
                    defers := defers fr |} in
      match lib.d_Patch s diff i with
      | RErr _ => Diff_loop git s diff (i + 1) n dds ps fr1
      | ROk patch =>
          let fr2 := {| trace := trace fr1 ++ [Acquire (HPatch patch)];
                        defers := defers fr |} in
          match lib.d_GetDelta s diff i with
          | RErr _ => Diff_loop git s diff (i + 1) n dds ps fr2
          | ROk dd =>
              match lib.p_String s patch with
              | RErr _ => Diff_loop git s diff (i + 1) n dds ps fr2
              | ROk text =>
                  match lib.p_Free s patch with
                  | Some e => (Err e, fr2)
                  | None =>
                      Diff_loop git s diff (i + 1) n
                        (dds ++ [set_Patch (DiffDelta_of git dd) text])
                        (ps ++ [text])
                        {| trace := trace fr2 ++ [Release (HPatch patch)];
                           defers := defers fr |}
                  end
              end
          end
      end.
Proof.
  intros n i dds ps fr. cbn [Diff_loop]. go_unfold.
  destruct (lib.d_Patch s diff i) as [patch|e1]; [|reflexivity].
  destruct (lib.d_GetDelta s diff i) as [dd|e2]; [|reflexivity].
  destruct (lib.p_String s patch) as [text|e3]; [|reflexivity].
  destruct (lib.p_Free s patch) as [e4|]; reflexivity.
Qed.

(** The loop leaves the defer stack alone, only appends to the trace,
    and asks for patches inside its index range only. *)
Lemma Diff_loop_frame :
  forall n i dds ps fr res fr',
    Diff_loop git s diff i n dds ps fr = (res, fr') ->
    defers fr' = defers fr /\
    exists evs, trace fr' = trace fr ++ evs /\
      forall j, In (CallPatch j) evs -> (i <= j < i + Z.of_nat n)%Z.
Proof.
  induction n as [|n IH]; intros i dds ps fr res fr' H.
  - cbn in H. go_unfold. inversion H; subst. split; [reflexivity|].
    exists []. rewrite app_nil_r. split; [reflexivity|]. intros j [].
  - rewrite Diff_loop_S in H. cbn zeta in H.
    assert (Hnext : forall dds1 ps1 fr1 pre,
               Diff_loop git s diff (i + 1) n dds1 ps1 fr1 = (res, fr') ->
               trace fr1 = trace fr ++ CallPatch i :: pre ->
               defers fr1 = defers fr ->
               (forall j, ~ In (CallPatch j) pre) ->
               defers fr' = defers fr /\
               exists evs, trace fr' = trace fr ++ evs /\
                 forall j, In (CallPatch j) evs ->
                           (i <= j < i + Z.of_nat (S n))%Z).
    { intros dds1 ps1 fr1 pre Hrun Ht Hd Hpre.
      apply IH in Hrun. destruct Hrun as [Hd' [evs [Ht' Hin]]].
      split; [congruence|].
      exists (CallPatch i :: pre ++ evs). split.
      - rewrite Ht', Ht. rewrite <- app_assoc. reflexivity.
      - intros j [Heq | Hj].
        + inversion Heq; subst. lia.
        + apply in_app_or in Hj. destruct Hj as [Hj | Hj].
          * exfalso. eapply Hpre; eauto.
          * apply Hin in Hj. lia. }
    destruct (lib.d_Patch s diff i) as [patch|e1].
    + destruct (lib.d_GetDelta s diff i) as [dd|e2].
      * destruct (lib.p_String s patch) as [text|e3].
        -- destruct (lib.p_Free s patch) as [e4|].
           ++ inversion H; subst. cbn. split; [reflexivity|].
              exists [CallPatch i; Acquire (HPatch patch)].
              rewrite <- app_assoc. split; [reflexivity|].
              intros j [Heq | [Heq | []]]; inversion Heq; subst. lia.
           ++ apply (Hnext _ _ _
                       [Acquire (HPatch patch); Release (HPatch patch)] H).
              ** cbn. rewrite <- !app_assoc. reflexivity.
              ** reflexivity.
              ** intros j [Heq | [Heq | []]]; discriminate.
        -- apply (Hnext _ _ _ [Acquire (HPatch patch)] H).
           ++ cbn. rewrite <- !app_assoc. reflexivity.
           ++ reflexivity.
           ++ intros j [Heq | []]; discriminate.
      * apply (Hnext _ _ _ [Acquire (HPatch patch)] H).
        -- cbn. rewrite <- !app_assoc. reflexivity.
        -- reflexivity.
        -- intros j [Heq | []]; discriminate.
    + apply (Hnext _ _ _ [] H).
      * reflexivity.
      * reflexivity.
      * intros j [].
Qed.

(** When the loop ends normally, it has appended exactly the deltas
    extracted over its range, and their patch texts. *)
Lemma Diff_loop_Ok :
  forall n i dds ps fr dds' ps' fr',
    Diff_loop git s diff i n dds ps fr = (Ok (dds', ps'), fr') ->
    dds' = dds ++ extracted git s diff i n /\
    ps' = ps ++ map Patch (extracted git s diff i n).
Proof.
  induction n as [|n IH]; intros i dds ps fr dds' ps' fr' H.
  - cbn in H. go_unfold. inversion H; subst. cbn.
    rewrite !app_nil_r. split; reflexivity.
  - rewrite Diff_loop_S in H. cbn zeta in H.
    cbn [extracted]. unfold extract.
    destruct (lib.d_Patch s diff i) as [patch|e1]; [|eauto].
    destruct (lib.d_GetDelta s diff i) as [dd|e2]; [|eauto].
    destruct (lib.p_String s patch) as [text|e3]; [|eauto].
    destruct (lib.p_Free s patch) as [e4|]; [discriminate|].
    apply IH in H. destruct H as [-> ->].
    rewrite <- !app_assoc. cbn. split; reflexivity.
Qed.

(** With no failing release in its range the loop ends normally. *)
Lemma Diff_loop_runs :
  forall n i dds ps fr,
    (forall j, (i <= j < i + Z.of_nat n)%Z -> release_error s diff j = None) ->
    exists fr',
      Diff_loop git s diff i n dds ps fr =
        (Ok (dds ++ extracted git s diff i n, ps ++ map Patch (extracted git s diff i n)), fr').
Proof.
  induction n as [|n IH]; intros i dds ps fr Hrel.
  - cbn. go_unfold. rewrite !app_nil_r. eauto.
  - assert (Hi : release_error s diff i = None) by (apply Hrel; lia).
    assert (Hrest : forall j, (i + 1 <= j < i + 1 + Z.of_nat n)%Z ->
                              release_error s diff j = None)
      by (intros j Hj; apply Hrel; lia).
    rewrite Diff_loop_S. cbn zeta. cbn [extracted].
    unfold extract. unfold release_error in Hi.
    destruct (lib.d_Patch s diff i) as [patch|e1]; [|eauto].
    destruct (lib.d_GetDelta s diff i) as [dd|e2]; [|eauto].
    destruct (lib.p_String s patch) as [text|e3]; [|eauto].
    rewrite Hi.
    edestruct (IH (i + 1)%Z (dds ++ [set_Patch (DiffDelta_of git dd) text])
                  (ps ++ [text])) as [fr' Hfr']; [exact Hrest|].
    rewrite Hfr'. rewrite <- !app_assoc. cbn. eauto.
Qed.

(** A failing release at index [i + m], the first one of the range,
    ends the loop with that error; no patch of a later index is asked
    for. *)
Lemma Diff_loop_release_fails :
  forall m n i dds ps fr e,
    (m < n)%nat ->
    (forall j, (i <= j < i + Z.of_nat m)%Z -> release_error s diff j = None) ->
    release_error s diff (i + Z.of_nat m) = Some e ->
    exists fr',
      Diff_loop git s diff i n dds ps fr = (Err e, fr') /\
      defers fr' = defers fr /\
      exists evs, trace fr' = trace fr ++ evs /\
        forall j, In (CallPatch j) evs -> (i <= j <= i + Z.of_nat m)%Z.
Proof.
  induction m as [|m IH]; intros n i dds ps fr e Hlt Hrel Hfail.
  - destruct n as [|n]; [lia|].
    replace (i + Z.of_nat 0)%Z with i in Hfail by lia.
    rewrite Diff_loop_S. cbn zeta.
    unfold release_error in Hfail.
    destruct (lib.d_Patch s diff i) as [patch|e1]; [|discriminate].
    destruct (lib.d_GetDelta s diff i) as [dd|e2]; [|discriminate].
    destruct (lib.p_String s patch) as [text|e3]; [|discriminate].
    rewrite Hfail. eexists. split; [reflexivity|]. cbn.
    split; [reflexivity|].
    exists [CallPatch i; Acquire (HPatch patch)].
    rewrite <- app_assoc. split; [reflexivity|].
    intros j [Heq | [Heq | []]]; inversion Heq; subst. lia.
  - destruct n as [|n]; [lia|].
    assert (Hi : release_error s diff i = None) by (apply Hrel; lia).
    assert (Hrest : forall j, (i + 1 <= j < i + 1 + Z.of_nat m)%Z ->
                              release_error s diff j = None)
      by (intros j Hj; apply Hrel; lia).
    assert (Hfail' : release_error s diff (i + 1 + Z.of_nat m) = Some e)
      by (replace (i + 1 + Z.of_nat m)%Z with (i + Z.of_nat (S m))%Z by lia;
          exact Hfail).
    assert (Hlt' : (m < n)%nat) by lia.
    assert (Hnext : forall dds1 ps1 fr1 pre,
               trace fr1 = trace fr ++ CallPatch i :: pre ->
               defers fr1 = defers fr ->
               (forall j, ~ In (CallPatch j) pre) ->
               exists fr',
                 Diff_loop git s diff (i + 1) n dds1 ps1 fr1 = (Err e, fr') /\
                 defers fr' = defers fr /\
                 exists evs, trace fr' = trace fr ++ evs /\
                   forall j, In (CallPatch j) evs ->
                             (i <= j <= i + Z.of_nat (S m))%Z).
    { intros dds1 ps1 fr1 pre Ht Hd Hpre.
      destruct (IH n (i + 1)%Z dds1 ps1 fr1 e Hlt' Hrest Hfail')
        as [fr' [Hrun [Hd' [evs [Ht' Hin]]]]].
      exists fr'. split; [exact Hrun|]. split; [congruence|].
      exists (CallPatch i :: pre ++ evs). split.
      - rewrite Ht', Ht. rewrite <- app_assoc. reflexivity.
      - intros j [Heq | Hj].
        + inversion Heq; subst. lia.
        + apply in_app_or in Hj. destruct Hj as [Hj | Hj].
          * exfalso. eapply Hpre; eauto.
          * apply Hin in Hj. lia. }
    rewrite Diff_loop_S. cbn zeta.
    unfold release_error in Hi.
    destruct (lib.d_Patch s diff i) as [patch|e1].
    + destruct (lib.d_GetDelta s diff i) as [dd|e2].
      * destruct (lib.p_String s patch) as [text|e3].
        -- rewrite Hi.
           apply (Hnext _ _ _ [Acquire (HPatch patch); Release (HPatch patch)]).
           ++ cbn. rewrite <- !app_assoc. reflexivity.
           ++ reflexivity.
           ++ intros j [Heq | [Heq | []]]; discriminate.
        -- apply (Hnext _ _ _ [Acquire (HPatch patch)]).
           ++ cbn. rewrite <- !app_assoc. reflexivity.
           ++ reflexivity.
           ++ intros j [Heq | []]; discriminate.
      * apply (Hnext _ _ _ [Acquire (HPatch patch)]).
        -- cbn. rewrite <- !app_assoc. reflexivity.
        -- reflexivity.
        -- intros j [Heq | []]; discriminate.
    + apply (Hnext _ _ _ []).
      * cbn. reflexivity.
      * reflexivity.
      * intros j [].
Qed.

Lemma extracted_length : forall n i, (List.length (extracted git s diff i n) <= n)%nat.
Proof.
  induction n as [|n IH]; intros i; cbn; [lia|].
  destruct (extract git s diff i); cbn; specialize (IH (i + 1)%Z); lia.
Qed.

(** One index that fails to extract makes the result strictly shorter
    than the range. *)
Lemma extracted_length_lt :
  forall n i j,
    (i <= j < i + Z.of_nat n)%Z -> extract git s diff j = None ->
    (List.length (extracted git s diff i n) < n)%nat.
Proof.
  induction n as [|n IH]; intros i j Hj Hnone; [lia|].
  cbn. destruct (Z.eq_dec i j) as [->|Hne].
  - rewrite Hnone. pose proof (extracted_length n (j + 1)%Z). lia.
  - assert (Hlt : (List.length (extracted git s diff (i + 1) n) < n)%nat)
      by (apply (IH (i + 1)%Z j); [lia | exact Hnone]).
    destruct (extract git s diff i); cbn; lia.
Qed.

(** With every index extracted the result has one delta per index. *)
Lemma extracted_all :
  forall n i,
    (forall j, (i <= j < i + Z.of_nat n)%Z -> extract git s diff j <> None) ->
    List.length (extracted git s diff i n) = n.
Proof.
  induction n as [|n IH]; intros i Hall; [reflexivity|].
  cbn. destruct (extract git s diff i) eqn:Hi.
  - cbn. f_equal. apply IH. intros j Hj. apply Hall. lia.
  - exfalso. apply (Hall i); [lia | exact Hi].
Qed.

End DiffLoopFacts.

(** ** [Diff] around its loop *)

Section DiffFacts.

Variable git : lib.Package.

(** Under [Diff_setup], [Diff] is its loop run in a frame that already
    holds the trees and the diff, followed by the deferred releases. *)
Lemma Diff_unfold :
  forall r c cTree pTree diff statsText deltas tr,
    Diff_setup git r c cTree pTree diff statsText deltas ->
    exists fr0 evs0,
      trace fr0 = tr ++ evs0 /\
      In (CallDiffTreeToTree pTree cTree) evs0 /\
      (forall j, ~ In (CallPatch j) evs0) /\
      Repository_Diff git r c tr =
        (let (res, fr) :=
           Diff_loop git (repo r) diff 0 (Z.to_nat deltas) [] [] fr0 in
         (match res with
          | Ok (dds, ps) =>
              Ok {| deltas := dds;
                    stats := strings_Split statsText newline;
                    patchs := ps |}
          | Err e => Err e
          | Panic p => Panic p
          end,
          trace fr ++ map Release (defers fr))).
Proof.
  intros r c cTree pTree diff statsText deltas tr
    (cm & opt & st & Hc & Ht & Hp & Ho & Hd & Hs & Hx & Hn).
  unfold Repository_Diff, func. go_unfold.
  rewrite Hc. go_simpl. rewrite Ht. go_simpl.
  destruct Hp as [[Hpc ->] | [Hpc (parent & pt & Hpar & Hpt & ->)]].
  - rewrite Hpc. cbn [Nat.ltb Nat.leb]. go_simpl.
    rewrite Ho. go_simpl. rewrite Hd. go_simpl. rewrite Hs. go_simpl.
    rewrite Hx. go_simpl. rewrite Hn. go_simpl.
    match goal with
    | |- context [Diff_loop git (repo r) diff 0 _ [] [] ?f] => exists f
    end.
    eexists. split; [|split; [|split]].
    4: { destruct (Diff_loop git (repo r) diff 0 (Z.to_nat deltas) [] [] _)
           as [[[dds ps]|e|p] fr]; reflexivity. }
    + cbn. rewrite <- !app_assoc. reflexivity.
    + cbn. tauto.
    + intros j Hj. cbn in Hj. intuition discriminate.
  - destruct (Nat.ltb_spec 0 (lib.c_ParentCount (repo r) cm)) as [_|Hge];
      [|lia].
    rewrite Hpar. go_simpl. rewrite Hpt. go_simpl.
    rewrite Ho. go_simpl. rewrite Hd. go_simpl. rewrite Hs. go_simpl.
    rewrite Hx. go_simpl. rewrite Hn. go_simpl.
    match goal with
    | |- context [Diff_loop git (repo r) diff 0 _ [] [] ?f] => exists f
    end.
    eexists. split; [|split; [|split]].
    4: { destruct (Diff_loop git (repo r) diff 0 (Z.to_nat deltas) [] [] _)
           as [[[dds ps]|e|p] fr]; reflexivity. }
    + cbn. rewrite <- !app_assoc. reflexivity.
    + cbn. tauto.
    + intros j Hj. cbn in Hj. intuition discriminate.
Qed.

(** A [Diff] that returns a value went through a successful setup. *)
Lemma Diff_Ok_setup :
  forall r c tr d tr',
    Repository_Diff git r c tr = (Ok d, tr') ->
    exists cTree pTree diff statsText deltas,
      Diff_setup git r c cTree pTree diff statsText deltas.
Proof.
  intros r c tr d tr' H.
  unfold Repository_Diff, func in H. go_unfold.
  destruct (commit c) as [cm|] eqn:Hc; [|discriminate].
  destruct (lib.c_Tree (repo r) cm) as [cTree|] eqn:Ht; [|discriminate].
  destruct (Nat.ltb_spec 0 (lib.c_ParentCount (repo r) cm)) as [Hpc|Hpc].
  - destruct (lib.c_Parent (repo r) cm 0) as [parent|] eqn:Hpar;
      [|discriminate].
    destruct (lib.c_Tree (repo r) parent) as [pt|] eqn:Hpt; [|discriminate].
    destruct (lib.DefaultDiffOptions git) as [opt|] eqn:Ho; [|discriminate].
    destruct (lib.DiffTreeToTree (repo r) (Some pt) cTree opt) as [diff|] eqn:Hd;
      [|discriminate].
    destruct (lib.d_Stats (repo r) diff) as [st|] eqn:Hs; [|discriminate].
    destruct (lib.s_String (repo r) st lib.DiffStatsFull 80) as [text|] eqn:Hx;
      [|discriminate].
    destruct (lib.d_NumDeltas (repo r) diff) as [n|] eqn:Hn; [|discriminate].
    exists cTree, (Some pt), diff, text, n. exists cm, opt, st.
    repeat (split; [assumption|]). split; [|repeat split; assumption].
    right. split; [exact Hpc|]. exists parent, pt. repeat split; assumption.
  - destruct (lib.DefaultDiffOptions git) as [opt|] eqn:Ho; [|discriminate].
    destruct (lib.DiffTreeToTree (repo r) None cTree opt) as [diff|] eqn:Hd;
      [|discriminate].
    destruct (lib.d_Stats (repo r) diff) as [st|] eqn:Hs; [|discriminate].
    destruct (lib.s_String (repo r) st lib.DiffStatsFull 80) as [text|] eqn:Hx;
      [|discriminate].
    destruct (lib.d_NumDeltas (repo r) diff) as [n|] eqn:Hn; [|discriminate].
    exists cTree, None, diff, text, n. exists cm, opt, st.
    repeat (split; [assumption|]). split; [|repeat split; assumption].
    left. split; [lia|reflexivity].
Qed.

(** The setup of a commit determines its trees, diff, text and count. *)
Lemma Diff_setup_unique :
  forall r c cTree pTree diff text n cTree' pTree' diff' text' n',
    Diff_setup git r c cTree pTree diff text n ->
    Diff_setup git r c cTree' pTree' diff' text' n' ->
    cTree' = cTree /\ pTree' = pTree /\ diff' = diff /\ text' = text /\ n' = n.
Proof.
  intros r c cTree pTree diff text n cTree' pTree' diff' text' n'
    (cm & opt & st & Hc & Ht & Hp & Ho & Hd & Hs & Hx & Hn)
    (cm' & opt' & st' & Hc' & Ht' & Hp' & Ho' & Hd' & Hs' & Hx' & Hn').
  assert (cm' = cm) by congruence; subst cm'.
  assert (cTree' = cTree) by congruence; subst cTree'.
  assert (opt' = opt) by congruence; subst opt'.
  assert (pTree' = pTree).
  { destruct Hp as [[Hz ->] | [Hpos (p & pt & Hp1 & Hp2 & ->)]];
      destruct Hp' as [[Hz' ->] | [Hpos' (p' & pt' & Hp1' & Hp2' & ->)]];
      try reflexivity; try lia.
    assert (p' = p) by congruence; subst p'. congruence. }
  subst pTree'.
  assert (diff' = diff) by congruence; subst diff'.
  assert (st' = st) by congruence; subst st'.
  repeat split; congruence.
Qed.

(** What a returned [Diff] holds. *)
Lemma Diff_Ok_result :
  forall r c cTree pTree diff statsText deltas tr d tr',
    Diff_setup git r c cTree pTree diff statsText deltas ->
    Repository_Diff git r c tr = (Ok d, tr') ->
    Deltas d = extracted git (repo r) diff 0 (Z.to_nat deltas) /\
    Patches d = map Patch (Deltas d) /\
    Stats d = strings_Split statsText newline /\
    exists evs, tr' = tr ++ evs /\ In (CallDiffTreeToTree pTree cTree) evs.
Proof.
  intros r c cTree pTree diff statsText deltas tr d tr' Hsetup H.
  destruct (Diff_unfold r c cTree pTree diff statsText deltas tr Hsetup)
    as (fr0 & evs0 & Ht0 & Hin0 & _ & Heq).
  rewrite Heq in H. clear Heq.
  destruct (Diff_loop git (repo r) diff 0 (Z.to_nat deltas) [] [] fr0)
    as [[[dds ps]|e|p] fr] eqn:Hloop; try discriminate.
  inversion H; subst d tr'. clear H.
  pose proof Hloop as Hframe.
  apply Diff_loop_Ok in Hloop. destruct Hloop as [Hd Hp].
  apply Diff_loop_frame in Hframe. destruct Hframe as [_ [evs [Ht _]]].
  cbn in Hd, Hp. subst dds ps.
  unfold Deltas, Patches, Stats. cbn.
  repeat split.
  exists (evs0 ++ evs ++ map Release (defers fr)).
  split.
  - rewrite Ht, Ht0. rewrite <- !app_assoc. reflexivity.
  - apply in_or_app. left. exact Hin0.
Qed.

(** [Diff] reads nothing of its commit but the store handle. *)
Lemma Diff_commit_only :
  forall r c c' tr,
    commit c = commit c' ->
    Repository_Diff git r c tr = Repository_Diff git r c' tr.
Proof.
  intros r c c' tr H. unfold Repository_Diff. rewrite H. reflexivity.
Qed.

(** [DiffFromHash] on a hash that resolves to the commit [ch]. *)
Lemma DiffFromHash_resolved :
  forall r hash oid ch tr,
    lib.NewOid git hash = ROk oid ->
    lib.LookupCommit (repo r) oid = ROk ch ->
    Repository_DiffFromHash git r hash tr =
      Repository_Diff git r
        {| commit := Some ch; Commit_Hash := ""; Author := None;
           Message := ""; Summary := ""; Commit_Type := "" |} tr.
Proof.
  intros r hash oid ch tr Hoid Hlook.
  unfold Repository_DiffFromHash, func. go_unfold.
  rewrite Hoid, Hlook. cbn.
  destruct (Repository_Diff git r _ tr) as [res tr'].
  cbn. rewrite app_nil_r. reflexivity.
Qed.

(** A [DiffFromHash] that returns a value is a [Diff] on some commit. *)
Lemma DiffFromHash_Ok_Diff :
  forall r hash tr d tr',
    Repository_DiffFromHash git r hash tr = (Ok d, tr') ->
    exists c, Repository_Diff git r c tr = (Ok d, tr').
Proof.
  intros r hash tr d tr' H.
  destruct (lib.NewOid git hash) as [oid|e] eqn:Hoid.
  - destruct (lib.LookupCommit (repo r) oid) as [ch|e] eqn:Hlook.
    + rewrite (DiffFromHash_resolved _ _ _ _ _ Hoid Hlook) in H. eauto.
    + unfold Repository_DiffFromHash, func in H. go_unfold.
      rewrite Hoid, Hlook in H. discriminate.
  - unfold Repository_DiffFromHash, func in H. go_unfold.
    rewrite Hoid in H. discriminate.
Qed.

End DiffFacts.

(** ** The sequences of a [Diff] *)

Lemma split_from_newline_length :
  forall s cur,
    List.length (split_from newline s 0 cur) = S (newlines s).
Proof.
  induction s as [|ch rest IH]; intros cur; [reflexivity|].
  cbn [split_from newlines]. unfold newline at 1. cbn [prefix].
  destruct (ascii_dec (ascii_of_nat 10) ch) as [Heq|Hne].
  - subst ch. rewrite Ascii.eqb_refl.
    destruct rest; cbn [prefix List.length String.length newline Nat.sub];
      rewrite ?IH; reflexivity.
  - destruct (Ascii.eqb_spec ch (ascii_of_nat 10)) as [Heq|_];
      [congruence|].
    apply IH.
Qed.

Lemma strings_Split_newline_length :
  forall s, List.length (strings_Split s newline) = S (newlines s).
Proof. intros s. apply split_from_newline_length. Qed.

Lemma extracted_In :
  forall git s diff n i j d,
    (i <= j < i + Z.of_nat n)%Z ->
    extract git s diff j = Some d ->
    In d (extracted git s diff i n).
Proof.
  induction n as [|n IH]; intros i j d Hj Hex; [lia|].
  cbn [extracted]. destruct (Z.eq_dec i j) as [->|Hne].
  - rewrite Hex. left. reflexivity.
  - assert (Hin : In d (extracted git s diff (i + 1) n))
      by (apply (IH (i + 1)%Z j); [lia | exact Hex]).
    destruct (extract git s diff i); [right|]; exact Hin.
Qed.

(** C4. For every Diff returned without error by Repository.Diff or
    Repository.DiffFromHash, Deltas() and Patches() have the same length,
    and at each index i, Patches()[i] is Deltas()[i].Patch. *)
Theorem Diff_deltas_patches_aligned :
  forall git r c hash tr d tr',
    Repository_Diff git r c tr = (Ok d, tr') \/
    Repository_DiffFromHash git r hash tr = (Ok d, tr') ->
    List.length (Deltas d) = List.length (Patches d) /\
    forall i,
      nth_error (Patches d) i = option_map Patch (nth_error (Deltas d) i).
Proof.
  intros git r c hash tr d tr' H.
  assert (Hdiff : exists c0, Repository_Diff git r c0 tr = (Ok d, tr')).
  { destruct H as [H | H]; [eauto|].
    eapply DiffFromHash_Ok_Diff; eauto. }
  destruct Hdiff as [c0 Hrun].
  destruct (Diff_Ok_setup _ _ _ _ _ _ Hrun)
    as (cTree & pTree & diff & text & n & Hsetup).
  destruct (Diff_Ok_result _ _ _ _ _ _ _ _ _ _ _ Hsetup Hrun)
    as (_ & Hp & _).
  rewrite Hp. split.
  - rewrite length_map. reflexivity.
  - intros i. apply nth_error_map.
Qed.

Lemma Diff_deltas_patches_aligned_witness :
  List.length (Deltas Example.diff_skip) = List.length (Patches Example.diff_skip) /\
  forall i,
    nth_error (Patches Example.diff_skip) i =
      option_map Patch (nth_error (Deltas Example.diff_skip) i).
Proof.
  apply (Diff_deltas_patches_aligned Example.git Example.repo_skip
           (Example.walked Example.store_skip 1%N) "" []
           Example.diff_skip Example.trace_skip).
  left. vm_compute. reflexivity.
Defined.

(** C2 fails as stated: on the root commit of the example the statistics
    have five pieces (one per file, the summary line and the empty piece
    after the last line feed) and the deltas are three; index 3 exists in
    [stats] and not in [deltas] nor [patchs]. *)
Lemma Diff_stats_not_index_aligned :
  Repository_Diff Example.git Example.repo_ok
    (Example.walked Example.store_ok 1%N) [] =
    (Ok Example.diff_ok, Example.trace_ok) /\
  nth_error (Stats Example.diff_ok) 3 =
    Some " 3 files changed, 3 insertions(+)" /\
  nth_error (Deltas Example.diff_ok) 3 = None /\
  nth_error (Patches Example.diff_ok) 3 = None /\
  List.length (Stats Example.diff_ok) <> List.length (Deltas Example.diff_ok).
Proof.
  split; [vm_compute; reflexivity|].
  split; [vm_compute; reflexivity|].
  split; [vm_compute; reflexivity|].
  split; [vm_compute; reflexivity|].
  vm_compute. discriminate.
Qed.

(** C2, amended.  For every Diff returned by Repository.Diff, deltas and
    patchs are produced together in the order of the diff's indices and
    are index-aligned (patchs is the Patch of each delta); stats is not
    per delta: it is the statistics text of the whole diff cut at its
    line feeds, one more piece than the text has line feeds, whichever
    deltas were extracted. *)
Theorem Diff_sequences :
  forall git r c tr d tr',
    Repository_Diff git r c tr = (Ok d, tr') ->
    exists cTree pTree diff statsText n,
      Diff_setup git r c cTree pTree diff statsText n /\
      Deltas d = extracted git (repo r) diff 0 (Z.to_nat n) /\
      Patches d = map Patch (Deltas d) /\
      Stats d = strings_Split statsText newline /\
      List.length (Stats d) = S (newlines statsText).
Proof.
  intros git r c tr d tr' Hrun.
  destruct (Diff_Ok_setup _ _ _ _ _ _ Hrun)
    as (cTree & pTree & diff & text & n & Hsetup).
  destruct (Diff_Ok_result _ _ _ _ _ _ _ _ _ _ _ Hsetup Hrun)
    as (Hd & Hp & Hs & _).
  exists cTree, pTree, diff, text, n.
  repeat split; try assumption.
  rewrite Hs. apply strings_Split_newline_length.
Qed.

Lemma Diff_sequences_witness :
  exists cTree pTree diff statsText n,
    Diff_setup Example.git Example.repo_ok
      (Example.walked Example.store_ok 1%N) cTree pTree diff statsText n /\
    Deltas Example.diff_ok =
      extracted Example.git (repo Example.repo_ok) diff 0 (Z.to_nat n) /\
    Patches Example.diff_ok = map Patch (Deltas Example.diff_ok) /\
    Stats Example.diff_ok = strings_Split statsText newline /\
    List.length (Stats Example.diff_ok) = S (newlines statsText).
Proof.
  apply (Diff_sequences Example.git Example.repo_ok
           (Example.walked Example.store_ok 1%N) []
           Example.diff_ok Example.trace_ok).
  vm_compute. reflexivity.
Defined.

(** ** Extraction failures and release failures *)

(** One of the three extraction steps fails at index [j]. *)
Lemma extract_fails :
  forall git s diff j,
    (exists e, lib.d_Patch s diff j = RErr e) \/
    (exists e, lib.d_GetDelta s diff j = RErr e) \/
    (exists patch e,
        lib.d_Patch s diff j = ROk patch /\ lib.p_String s patch = RErr e) ->
    extract git s diff j = None.
Proof.
  intros git s diff j [[e H] | [[e H] | (patch & e & H1 & H2)]];
    unfold extract.
  - rewrite H. reflexivity.
  - rewrite H. destruct (lib.d_Patch s diff j); reflexivity.
  - rewrite H1, H2. destruct (lib.d_GetDelta s diff j); reflexivity.
Qed.

(** With a successful setup and no failing release, [Diff] returns. *)
Lemma Diff_runs :
  forall git r c cTree pTree diff statsText deltas,
    Diff_setup git r c cTree pTree diff statsText deltas ->
    (forall j, (0 <= j < deltas)%Z ->
               release_error (repo r) diff j = None) ->
    forall tr, exists d tr',
      Repository_Diff git r c tr = (Ok d, tr') /\
      Deltas d = extracted git (repo r) diff 0 (Z.to_nat deltas).
Proof.
  intros git r c cTree pTree diff statsText deltas Hsetup Hrel tr.
  destruct (Diff_unfold git r c cTree pTree diff statsText deltas tr Hsetup)
    as (fr0 & evs0 & _ & _ & _ & Heq).
  destruct (Diff_loop_runs git (repo r) diff (Z.to_nat deltas) 0 [] [] fr0)
    as [fr Hloop].
  { intros j Hj. apply Hrel. lia. }
  rewrite Hloop in Heq. cbn in Heq.
  eexists. eexists. split; [exact Heq|]. reflexivity.
Qed.

(** An index whose extraction fails is a [continue]: the turn leaves both
    accumulators and the defer stack as they were, and the loop goes on
    with the next index. *)
Lemma Diff_loop_skip :
  forall git s diff n i dds ps fr,
    extract git s diff i = None ->
    exists fr1,
      defers fr1 = defers fr /\
      Diff_loop git s diff i (S n) dds ps fr =
        Diff_loop git s diff (i + 1) n dds ps fr1.
Proof.
  intros git s diff n i dds ps fr Hex.
  rewrite Diff_loop_S. cbn zeta. unfold extract in Hex.
  destruct (lib.d_Patch s diff i) as [patch|e1].
  - destruct (lib.d_GetDelta s diff i) as [dd|e2].
    + destruct (lib.p_String s patch) as [text|e3]; [discriminate|].
      eexists. split; [|reflexivity]. reflexivity.
    + eexists. split; [|reflexivity]. reflexivity.
  - eexists. split; [|reflexivity]. reflexivity.
Qed.

(** C5. In the loop of Repository.Diff, an index whose patch, structured
    delta or patch text cannot be obtained appends nothing and the loop
    goes on with the next index.  Diff then returns a value without
    error (unless a release fails, which is C6): its deltas are those
    extracted over all the indices, in order, so they are strictly fewer
    than the diff's deltas as soon as one index fails. *)
Theorem Diff_skips_failed_extractions :
  forall git r c cTree pTree diff statsText deltas,
    Diff_setup git r c cTree pTree diff statsText deltas ->
    (forall j n dds ps fr,
        (exists e, lib.d_Patch (repo r) diff j = RErr e) \/
        (exists e, lib.d_GetDelta (repo r) diff j = RErr e) \/
        (exists patch e,
            lib.d_Patch (repo r) diff j = ROk patch /\
            lib.p_String (repo r) patch = RErr e) ->
        exists fr1,
          defers fr1 = defers fr /\
          Diff_loop git (repo r) diff j (S n) dds ps fr =
            Diff_loop git (repo r) diff (j + 1) n dds ps fr1) /\
    ((forall j, (0 <= j < deltas)%Z ->
                release_error (repo r) diff j = None) ->
     forall tr, exists d tr',
       Repository_Diff git r c tr = (Ok d, tr') /\
       Deltas d = extracted git (repo r) diff 0 (Z.to_nat deltas) /\
       (forall j dj, (0 <= j < deltas)%Z ->
          extract git (repo r) diff j = Some dj -> In dj (Deltas d)) /\
       (forall j, (0 <= j < deltas)%Z ->
          (exists e, lib.d_Patch (repo r) diff j = RErr e) \/
          (exists e, lib.d_GetDelta (repo r) diff j = RErr e) \/
          (exists patch e,
              lib.d_Patch (repo r) diff j = ROk patch /\
              lib.p_String (repo r) patch = RErr e) ->
          (Z.of_nat (List.length (Deltas d)) < deltas)%Z)).
Proof.
  intros git r c cTree pTree diff statsText deltas Hsetup. split.
  { intros j n dds ps fr Hfail. apply Diff_loop_skip.
    apply extract_fails. exact Hfail. }
  intros Hrel tr.
  destruct (Diff_runs git r c cTree pTree diff statsText deltas Hsetup Hrel tr)
    as (d & tr' & Hrun & Hd).
  exists d, tr'. split; [exact Hrun|]. split; [exact Hd|]. rewrite Hd. split.
  - intros j dj Hj Hex. eapply extracted_In; [|exact Hex]. lia.
  - intros j Hj Hfail. apply (extract_fails git) in Hfail.
    assert (Hlt : (List.length (extracted git (repo r) diff 0 (Z.to_nat deltas))
                   < Z.to_nat deltas)%nat)
      by (apply (extracted_length_lt git (repo r) diff _ 0%Z j);
          [lia | exact Hfail]).
    lia.
Qed.

Lemma Diff_skips_failed_extractions_witness :
  exists d tr',
    Repository_Diff Example.git Example.repo_skip
      (Example.walked Example.store_skip 1%N) [] = (Ok d, tr') /\
    List.length (Deltas d) = 2 /\
    (Z.of_nat (List.length (Deltas d)) < 3)%Z.
Proof.
  destruct (Diff_skips_failed_extractions Example.git Example.repo_skip
              (Example.walked Example.store_skip 1%N)
              11%N None 111%N Example.statsText 3%Z) as [_ Hdiff].
  - exists 1%N, 0%N, 311%N. cbn. repeat split; auto.
  - destruct (Hdiff) with (tr := @nil Event)
      as (d & tr' & Hrun & Hd & _ & Hskip).
    + intros j Hj. unfold release_error. cbn.
      destruct (Example.no_text_for_b _); reflexivity.
    + exists d, tr'. split; [exact Hrun|]. split.
      * rewrite Hd. vm_compute. reflexivity.
      * apply (Hskip 1%Z); [lia|]. right. right.
        exists 31%N, "patch not readable". split; reflexivity.
Defined.

(** C6. If the release of a patch fails in the loop of Repository.Diff,
    at index [k], the first index where one fails, Diff returns no Diff
    but that error at once: it asks for no patch of an index after [k].
    The extractions that failed before [k] were skipped. *)
Theorem Diff_release_failure_is_fatal :
  forall git r c cTree pTree diff statsText deltas k patch dd text e,
    Diff_setup git r c cTree pTree diff statsText deltas ->
    (0 <= k < deltas)%Z ->
    (forall j, (0 <= j < k)%Z -> release_error (repo r) diff j = None) ->
    lib.d_Patch (repo r) diff k = ROk patch ->
    lib.d_GetDelta (repo r) diff k = ROk dd ->
    lib.p_String (repo r) patch = ROk text ->
    lib.p_Free (repo r) patch = Some e ->
    forall tr, exists evs,
      Repository_Diff git r c tr = (Err e, tr ++ evs) /\
      forall j, In (CallPatch j) evs -> (j <= k)%Z.
Proof.
  intros git r c cTree pTree diff statsText deltas k patch dd text e
    Hsetup Hk Hrel Hpatch Hdelta Htext Hfree tr.
  destruct (Diff_unfold git r c cTree pTree diff statsText deltas tr Hsetup)
    as (fr0 & evs0 & Ht0 & _ & Hno & Heq).
  assert (Hfail : release_error (repo r) diff (0 + Z.of_nat (Z.to_nat k))
                  = Some e).
  { replace (0 + Z.of_nat (Z.to_nat k))%Z with k by lia.
    unfold release_error. rewrite Hpatch, Hdelta, Htext. exact Hfree. }
  destruct (Diff_loop_release_fails git (repo r) diff
              (Z.to_nat k) (Z.to_nat deltas) 0 [] [] fr0 e)
    as (fr & Hloop & Hdefers & evs & Ht & Hin); [lia| |exact Hfail|].
  { intros j Hj. apply Hrel. lia. }
  rewrite Hloop in Heq.
  exists (evs0 ++ evs ++ map Release (defers fr)).
  split.
  - rewrite Heq. f_equal. rewrite Ht, Ht0. rewrite <- !app_assoc. reflexivity.
  - intros j Hj. apply in_app_or in Hj. destruct Hj as [Hj | Hj].
    + exfalso. eapply Hno; eauto.
    + apply in_app_or in Hj. destruct Hj as [Hj | Hj].
      * apply Hin in Hj. lia.
      * apply in_map_iff in Hj. destruct Hj as (h & Hh & _). discriminate.
Qed.

Lemma Diff_release_failure_is_fatal_witness :
  exists evs,
    Repository_Diff Example.git Example.repo_nofree
      (Example.walked Example.store_nofree 1%N) [] =
      (Err "release failed", [] ++ evs) /\
    forall j, In (CallPatch j) evs -> (j <= 1)%Z.
Proof.
  apply (Diff_release_failure_is_fatal Example.git Example.repo_nofree
           (Example.walked Example.store_nofree 1%N)
           11%N None 111%N Example.statsText 3%Z 1%Z 31%N
           {| lib.dd_Status := 1%Z;
              lib.dd_OldFile := {| lib.df_Path := "";
                                   lib.df_Oid := Example.oid_zero |};
              lib.dd_NewFile := {| lib.df_Path := "b.txt";
                                   lib.df_Oid := Example.blob_b |} |}
           "@@ +1 @@" "release failed").
  - exists 1%N, 0%N, 311%N. cbn. repeat split; auto.
  - lia.
  - intros j Hj. assert (j = 0%Z) by lia. subst j. reflexivity.
  - reflexivity.
  - reflexivity.
  - reflexivity.
  - reflexivity.
Defined.

(** C3, at a failing input.  The patch of [b.txt] is obtained and its
    text cannot be read: the loop goes on to the next index and the
    handle is never released; it is still held when Diff returns.  (So
    is the statistics object, which Diff never releases.) *)
Theorem Diff_leaks_skipped_patch :
  Repository_Diff Example.git Example.repo_skip
    (Example.walked Example.store_skip 1%N) [] =
    (Ok Example.diff_skip, Example.trace_skip) /\
  In (Acquire (HPatch 31%N)) Example.trace_skip /\
  ~ In (Release (HPatch 31%N)) Example.trace_skip /\
  live Example.trace_skip = [HStats 311%N; HPatch 31%N].
Proof.
  split; [vm_compute; reflexivity|].
  split; [vm_compute; tauto|].
  split; [|vm_compute; reflexivity].
  vm_compute. intuition discriminate.
Qed.

(** ** The walk start *)

(** C1, at a failing input.  With one local branch at HEAD's commit and
    no upstream configured, [loadBranches] leaves its [Upstream] nil and
    [loadCommits] dereferences it: it panics before any commit is pushed
    on the walk.  The same happens when a local branch and its remote
    twin are both at HEAD's commit, the remote one coming last. *)
Theorem loadCommits_panics_without_upstream :
  map Upstream (Branches Example.repo_untracked) = [None] /\
  Repository_loadCommits Example.git Example.repo_untracked [] =
    (Panic nil_dereference, [Acquire (HWalk 2%N)]) /\
  map isRemote (Branches Example.repo_synced) = [false; true] /\
  Repository_loadCommits Example.git Example.repo_synced [] =
    (Panic nil_dereference, [Acquire (HWalk 2%N)]).
Proof.
  repeat split; vm_compute; reflexivity.
Qed.

(** ** Branches *)

Section BranchFacts.

Variable git : lib.Package.

Lemma loadBranches_callback_ok :
  forall branch bs fr bs' err fr',
    Forall Branch_upstream_ok bs ->
    loadBranches_callback git branch bs fr = (Ok (bs', err), fr') ->
    Forall Branch_upstream_ok bs'.
Proof.
  intros branch bs fr bs' err fr' Hbs H.
  unfold loadBranches_callback in H.
  destruct (lib.br_Name branch) as [name|e].
  2: { go_unfold. inversion H; subst. exact Hbs. }
  destruct (match lib.ref_Target (lib.br_Reference branch) with
            | Some _ => ROk (lib.ref_Target (lib.br_Reference branch))
            | None =>
                match lib.br_Resolve branch with
                | ROk ref => ROk (lib.ref_Target ref)
                | RErr err => RErr err
                end
            end) as [rawOid|e].
  2: { go_unfold. inversion H; subst. exact Hbs. }
  go_unfold.
  destruct rawOid as [oid|]; [|discriminate].
  destruct (lib.br_IsRemote branch) eqn:Hremote; cbn [negb] in H.
  - inversion H; subst. apply Forall_app. split; [exact Hbs|].
    constructor; [|constructor].
    split; cbn; [discriminate | reflexivity].
  - destruct (lib.br_Upstream branch) as [[us|]|e].
    + destruct (lib.ref_Target us) as [target|]; [|discriminate].
      inversion H; subst. apply Forall_app. split; [exact Hbs|].
      constructor; [|constructor].
      split; cbn; [|discriminate].
      intros _ u Hu. inversion Hu; subst. reflexivity.
    + inversion H; subst. apply Forall_app. split; [exact Hbs|].
      constructor; [|constructor].
      split; cbn; [|discriminate]. intros _ u Hu. discriminate.
    + inversion H; subst. apply Forall_app. split; [exact Hbs|].
      constructor; [|constructor].
      split; cbn; [|discriminate]. intros _ u Hu. discriminate.
Qed.

Lemma BranchIterator_ForEach_ok :
  forall branches bs fr bs' err fr',
    Forall Branch_upstream_ok bs ->
    BranchIterator_ForEach branches (loadBranches_callback git) bs fr =
      (Ok (bs', err), fr') ->
    Forall Branch_upstream_ok bs'.
Proof.
  induction branches as [|branch rest IH]; intros bs fr bs' err fr' Hbs H.
  - cbn in H. go_unfold. inversion H; subst. exact Hbs.
  - cbn [BranchIterator_ForEach] in H. unfold bind at 1 in H.
    destruct (loadBranches_callback git branch bs fr)
      as [[[bs1 [e1|]]|e|p] fr1] eqn:Hcb; try discriminate.
    + go_unfold. inversion H; subst.
      eapply loadBranches_callback_ok; eauto.
    + eapply IH; [|exact H].
      eapply loadBranches_callback_ok; eauto.
Qed.

End BranchFacts.

Lemma loadBranches_preserves_ok :
  forall git r tr r' err tr',
    Forall Branch_upstream_ok (Branches r) ->
    Repository_loadBranches git r tr = (Ok (r', err), tr') ->
    Forall Branch_upstream_ok (Branches r').
Proof.
  intros git r tr r' err tr' Hr H.
  unfold Repository_loadBranches, func in H.
  destruct (lib.NewBranchIterator (repo r) lib.BranchAll) as [it|e].
  - unfold bind at 1 2 in H. unfold emit at 1, defer at 1 in H. go_simpl.
    unfold bind at 1 in H.
    destruct (BranchIterator_ForEach _ _ _ _)
      as [[[bs err1]|e|p] fr1] eqn:Hfe in H; go_unfold; try discriminate.
    inversion H; subst. cbn.
    eapply BranchIterator_ForEach_ok; [|exact Hfe]. constructor.
  - go_unfold. inversion H; subst. exact Hr.
Qed.

(** C7. After loadBranches, every branch of Repository.Branches that is
    not remote and has an Upstream has a remote Upstream, and no remote
    branch has an Upstream.  (The branches the repository held before
    are kept when the branch iterator cannot be opened, hence the
    assumption on them; [Open] starts with none.) *)
Theorem loadBranches_upstream_invariant :
  forall git r tr r' err tr',
    Forall Branch_upstream_ok (Branches r) ->
    Repository_loadBranches git r tr = (Ok (r', err), tr') ->
    forall b,
      In b (Branches r') ->
      (isRemote b = false ->
       forall u, Upstream b = Some u -> isRemote u = true) /\
      (isRemote b = true -> Upstream b = None).
Proof.
  intros git r tr r' err tr' Hr H b Hb.
  pose proof (loadBranches_preserves_ok git r tr r' err tr' Hr H) as Hall.
  rewrite Forall_forall in Hall. exact (Hall b Hb).
Qed.

Lemma loadBranches_upstream_invariant_witness :
  Forall Branch_upstream_ok (Branches Example.repo_synced).
Proof.
  apply Forall_forall.
  apply (loadBranches_upstream_invariant Example.git
           (Example.repository Example.store_synced []) []
           Example.repo_synced None
           [Acquire (HBranchIter 1%N); Release (HBranchIter 1%N)]).
  - constructor.
  - vm_compute. reflexivity.
Defined.

(** ** Commits of the walk and [DiffFromHash] *)

Section WalkFacts.

Variable git : lib.Package.

Lemma RevWalk_Iterate_walked :
  forall s visited cs,
    Forall (walked_commit git s) cs ->
    Forall (walked_commit git s)
      (RevWalk_Iterate visited (loadCommits_callback git s) cs).
Proof.
  intros s. induction visited as [|ch rest IH]; intros cs Hcs.
  - exact Hcs.
  - cbn. apply IH. apply Forall_app. split; [exact Hcs|].
    constructor; [|constructor].
    exists ch. cbn. repeat split; reflexivity.
Qed.

Lemma loadCommits_walked :
  forall r tr r' tr',
    Repository_loadCommits git r tr = (Ok r', tr') ->
    repo r' = repo r /\ Forall (walked_commit git (repo r)) (Commits r') /\
    Branches r' = Branches r.
Proof.
  intros r tr r' tr' H.
  unfold Repository_loadCommits, func in H.
  unfold bind at 1 in H.
  destruct (try (lib.Head (repo r)) _) as [[head|e|p] fr1]; try discriminate.
  unfold bind at 1 in H.
  destruct (try (lib.Walk (repo r)) _) as [[walk|e|p] fr2]; try discriminate.
  unfold bind at 1 2 in H. unfold emit at 1 in H.
  destruct (loadCommits_currentbranch git head (Branches r) None _)
    as [[cb|e|p] fr3]; try discriminate.
  unfold bind at 1 in H.
  match type of H with
  | context [match ?m ?f with _ => _ end] =>
      destruct (m f) as [[start|e|p] fr4]; try discriminate
  end.
  unfold bind at 1 in H. unfold defer at 1 in H.
  destruct (lib.rw_Iterate (repo r) walk start) as [visited err].
  go_unfold. inversion H; subst. cbn. split; [reflexivity|].
  split; [|reflexivity].
  apply RevWalk_Iterate_walked. constructor.
Qed.

End WalkFacts.

(** C8. For a commit materialized by the walk whose hash the store
    resolves back to it, DiffFromHash on the hash and Diff on the commit
    run alike: same outcome, hence the same Deltas(), Patches() and
    Stats(), and same trace.  The Commit that DiffFromHash hands to Diff
    holds the store handle and nothing else. *)
Theorem DiffFromHash_agrees_with_Diff :
  forall git r tr0 r' tr0' c,
    Repository_loadCommits git r tr0 = (Ok r', tr0') ->
    In c (Commits r') ->
    (forall ch, commit c = Some ch -> resolves_back git (repo r') ch) ->
    forall tr,
      Repository_DiffFromHash git r' (Commit_Hash c) tr =
        Repository_Diff git r' c tr /\
      (forall d1 t1 d2 t2,
          Repository_DiffFromHash git r' (Commit_Hash c) tr = (Ok d1, t1) ->
          Repository_Diff git r' c tr = (Ok d2, t2) ->
          Deltas d1 = Deltas d2 /\ Patches d1 = Patches d2 /\
          Stats d1 = Stats d2) /\
      exists ch,
        commit c = Some ch /\
        Repository_DiffFromHash git r' (Commit_Hash c) tr =
          Repository_Diff git r'
            {| commit := Some ch; Commit_Hash := ""; Author := None;
               Message := ""; Summary := ""; Commit_Type := "" |} tr.
Proof.
  intros git r tr0 r' tr0' c Hload Hin Hback tr.
  destruct (loadCommits_walked git r tr0 r' tr0' Hload) as [Hrepo [Hall _]].
  rewrite Forall_forall in Hall.
  destruct (Hall c Hin) as (ch & Hc & Hhash & _).
  destruct (Hback ch Hc) as [Hoid Hlook].
  rewrite <- Hrepo in Hhash. rewrite <- Hhash in Hoid.
  pose proof (DiffFromHash_resolved git r' (Commit_Hash c) _ ch tr Hoid Hlook)
    as Hres.
  assert (Heq : Repository_DiffFromHash git r' (Commit_Hash c) tr =
                Repository_Diff git r' c tr).
  { rewrite Hres. apply Diff_commit_only. cbn. symmetry. exact Hc. }
  split; [exact Heq|]. split.
  - intros d1 t1 d2 t2 H1 H2. rewrite Heq in H1.
    rewrite H1 in H2. inversion H2; subst. repeat split; reflexivity.
  - exists ch. split; [exact Hc | exact Hres].
Qed.

Lemma DiffFromHash_agrees_with_Diff_witness :
  Repository_DiffFromHash Example.git Example.repo_walked
    "6262626262626262626262626262626262626262" [] =
  Repository_Diff Example.git Example.repo_walked
    (Example.walked Example.store_ok 2%N) [].
Proof.
  apply (DiffFromHash_agrees_with_Diff Example.git Example.repo_ok []
           Example.repo_walked
           [Acquire (HWalk 2%N); CallPush Example.oidC; Release (HWalk 2%N)]
           (Example.walked Example.store_ok 2%N)).
  - vm_compute. reflexivity.
  - right. left. reflexivity.
  - intros ch Hch. inversion Hch; subst ch. split; vm_compute; reflexivity.
Defined.

(** ** The diff of a root commit *)

Lemma extracted_Forall :
  forall git s diff (P : DiffDelta -> Prop) n i,
    (forall j dd text,
        (i <= j < i + Z.of_nat n)%Z ->
        lib.d_GetDelta s diff j = ROk dd ->
        P (set_Patch (DiffDelta_of git dd) text)) ->
    Forall P (extracted git s diff i n).
Proof.
  intros git s diff P. induction n as [|n IH]; intros i HP; [constructor|].
  assert (Hrest : Forall P (extracted git s diff (i + 1) n)).
  { apply IH. intros j dd text Hj. apply HP. lia. }
  cbn [extracted]. destruct (extract git s diff i) as [d|] eqn:Hex;
    [|exact Hrest].
  constructor; [|exact Hrest].
  unfold extract in Hex.
  destruct (lib.d_Patch s diff i) as [patch|]; [|discriminate].
  destruct (lib.d_GetDelta s diff i) as [dd|] eqn:Hdd; [|discriminate].
  destruct (lib.p_String s patch) as [text|]; [|discriminate].
  inversion Hex; subst d. apply (HP i); [lia | exact Hdd].
Qed.





(** ** The rendering of a delta *)

Lemma substring_prefix :
  forall n s,
    n <= String.length s ->
    String.length (substring 0 n s) = n /\
    exists rest, s = substring 0 n s +++ rest.
Proof.
  induction n as [|n IH]; intros s Hn.
  - destruct s; cbn; split; try reflexivity; eexists; reflexivity.
  - destruct s as [|ch s]; cbn in Hn; [lia|].
    destruct (IH s) as [Hlen [rest Hrest]]; [lia|].
    cbn. split; [congruence|]. exists rest. congruence.
Qed.

(** C10 fails as stated: a delta with equal non-empty paths and a hash
    of three bytes; [String] slices the hash out of range and panics. *)
Lemma DiffDelta_String_short_hash_panics :
  DiffDelta_String
    {| Status := 3%Z;
       OldFile := Some {| DiffFile_Path := "a.txt"; DiffFile_Hash := "abc" |};
       NewFile := Some {| DiffFile_Path := "a.txt"; DiffFile_Hash := "abc" |};
       Patch := "" |} = Panic slice_out_of_range.
Proof. reflexivity. Qed.

(** C10, amended.  For every DiffDelta whose OldFile.Path and
    NewFile.Path are non-empty and equal and whose two hashes have at
    least 7 bytes, String() returns the status, the path and the two
    abbreviated hashes, which are exactly the first 7 bytes of
    OldFile.Hash and of NewFile.Hash. *)
Theorem DiffDelta_String_abbreviates :
  forall d old new,
    OldFile d = Some old ->
    NewFile d = Some new ->
    DiffFile_Path old <> "" ->
    DiffFile_Path new = DiffFile_Path old ->
    7 <= String.length (DiffFile_Hash old) ->
    7 <= String.length (DiffFile_Hash new) ->
    exists oldabbr newabbr,
      DiffDelta_String d =
        Ok ((strconv_Itoa (Status d) +++ " ") +++ DiffFile_Path old +++ " "
              +++ oldabbr +++ ".." +++ newabbr) /\
      String.length oldabbr = 7 /\
      String.length newabbr = 7 /\
      (exists rest, DiffFile_Hash old = oldabbr +++ rest) /\
      (exists rest, DiffFile_Hash new = newabbr +++ rest).
Proof.
  intros d old new Hold Hnew Hpath Heq Hlo Hln.
  exists (substring 0 7 (DiffFile_Hash old)),
         (substring 0 7 (DiffFile_Hash new)).
  destruct (substring_prefix 7 _ Hlo) as [Hl1 Hr1].
  destruct (substring_prefix 7 _ Hln) as [Hl2 Hr2].
  repeat split; try assumption.
  unfold DiffDelta_String. rewrite Hold, Hnew, Heq.
  assert (Hpos : Nat.ltb 0 (String.length (DiffFile_Path old)) = true).
  { destruct (DiffFile_Path old); [congruence | reflexivity]. }
  rewrite Hpos. cbn [andb]. rewrite String.eqb_refl.
  unfold slice_to.
  destruct (Nat.leb_spec 7 (String.length (DiffFile_Hash old))); [|lia].
  destruct (Nat.leb_spec 7 (String.length (DiffFile_Hash new))); [|lia].
  reflexivity.
Qed.

Lemma DiffDelta_String_abbreviates_witness :
  exists oldabbr newabbr,
    DiffDelta_String
      {| Status := 3%Z;
         OldFile := Some {| DiffFile_Path := "a.txt";
                            DiffFile_Hash := "0123456789abcdef" |};
         NewFile := Some {| DiffFile_Path := "a.txt";
                            DiffFile_Hash := "fedcba9876543210" |};
         Patch := "" |} =
      Ok (("3" +++ " ") +++ "a.txt" +++ " " +++ oldabbr +++ ".." +++ newabbr) /\
    String.length oldabbr = 7 /\
    String.length newabbr = 7 /\
    (exists rest, "0123456789abcdef" = oldabbr +++ rest) /\
    (exists rest, "fedcba9876543210" = newabbr +++ rest).
Proof.
  apply (DiffDelta_String_abbreviates
           {| Status := 3%Z;
              OldFile := Some {| DiffFile_Path := "a.txt";
                                 DiffFile_Hash := "0123456789abcdef" |};
              NewFile := Some {| DiffFile_Path := "a.txt";
                                 DiffFile_Hash := "fedcba9876543210" |};
              Patch := "" |}
           {| DiffFile_Path := "a.txt"; DiffFile_Hash := "0123456789abcdef" |}
           {| DiffFile_Path := "a.txt"; DiffFile_Hash := "fedcba9876543210" |}).
  - reflexivity.
  - reflexivity.
  - discriminate.
  - reflexivity.
  - cbn. lia.
  - cbn. lia.
Defined.

(** ** [Open] and the hashes [Diff] stores *)

(** The repository [Open] returns satisfies the upstream invariant: it
    starts with no branch. *)
Lemma Open_branches_ok :
  forall git path tr r tr',
    Open git path tr = (Ok r, tr') ->
    Forall Branch_upstream_ok (Branches r).
Proof.
  intros git path tr r tr' H.
  unfold Open, func in H. unfold bind at 1 in H.
  destruct (try (lib.OpenRepository git path) _) as [[s|e|p] fr1];
    try discriminate.
  unfold bind at 1 in H. unfold call at 1 in H.
  destruct (Repository_loadBranches git _ (trace fr1))
    as [[[r1 err]|e|p] tr1] eqn:Hlb; try discriminate.
  unfold bind at 1 in H.
  destruct err as [e|]; [go_unfold; discriminate|].
  unfold check at 1, ret at 1 in H.
  unfold bind at 1 in H. unfold call at 1 in H. go_simpl.
  destruct (Repository_loadCommits git r1 tr1) as [[r2|e|p] tr2] eqn:Hlc;
    try discriminate.
  go_unfold. inversion H; subst r.
  apply loadCommits_walked in Hlc. destruct Hlc as (_ & _ & Hb).
  rewrite Hb.
  eapply loadBranches_preserves_ok; [|exact Hlb]. constructor.
Qed.

(** The hashes of the deltas [Diff] returns are printed object ids. *)
Lemma Diff_hashes_are_ids :
  forall git r c tr d tr',
    Repository_Diff git r c tr = (Ok d, tr') ->
    Forall (fun dl =>
              exists old new o1 o2,
                OldFile dl = Some old /\ NewFile dl = Some new /\
                DiffFile_Hash old = lib.oid_String git o1 /\
                DiffFile_Hash new = lib.oid_String git o2)
           (Deltas d).
Proof.
  intros git r c tr d tr' Hrun.
  destruct (Diff_Ok_setup _ _ _ _ _ _ Hrun)
    as (cTree & pTree & diff & text & n & Hsetup).
  destruct (Diff_Ok_result _ _ _ _ _ _ _ _ _ _ _ Hsetup Hrun) as (Hd & _).
  rewrite Hd. apply extracted_Forall. intros j dd t _ _.
  cbn. eexists. eexists. eexists. eexists. repeat split; reflexivity.
Qed.

(** ** Where the walk starts, in general *)

Section StartFacts.

Variable git : lib.Package.

Lemma loadCommits_currentbranch_last :
  forall head target bs cur fr,
    lib.ref_Target head = Some target ->
    loadCommits_currentbranch git head bs cur fr =
      (Ok (last_at (lib.oid_String git target) bs cur), fr).
Proof.
  intros head target. induction bs as [|b rest IH]; intros cur fr Ht.
  - reflexivity.
  - cbn [loadCommits_currentbranch last_at]. rewrite Ht. go_unfold.
    destruct (String.eqb (lib.oid_String git target) (Branch_Hash b));
      apply IH; exact Ht.
Qed.

(** No branch is at HEAD's commit: the walk starts from HEAD. *)
Lemma loadCommits_seeds_from_HEAD :
  forall r head target walk tr,
    lib.Head (repo r) = ROk head ->
    lib.ref_Target head = Some target ->
    lib.Walk (repo r) = ROk walk ->
    last_at (lib.oid_String git target) (Branches r) None = None ->
    lib.rw_Push (repo r) walk target = None ->
    Repository_loadCommits git r tr =
      (Ok (set_Commits r
             (RevWalk_Iterate (fst (lib.rw_Iterate (repo r) walk target))
                (loadCommits_callback git (repo r)) [])),
       tr ++ [Acquire (HWalk walk); CallPush target; Release (HWalk walk)]).
Proof.
  intros r head target walk tr Hhead Ht Hwalk Hlast Hpush.
  unfold Repository_loadCommits, func. unfold bind at 1.
  rewrite Hhead. cbn [try ret]. unfold bind at 1. rewrite Hwalk.
  cbn [try ret]. unfold bind at 1 2. unfold emit at 1. go_simpl.
  rewrite (loadCommits_currentbranch_last head target _ _ _ Ht).
  rewrite Hlast. rewrite Ht. go_unfold. rewrite Hpush.
  destruct (lib.rw_Iterate (repo r) walk target) as [visited err].
  cbn. rewrite <- !app_assoc. reflexivity.
Qed.

(** The last branch at HEAD's commit has an upstream: the walk starts
    from the upstream's hash. *)
Lemma loadCommits_seeds_from_upstream :
  forall r head target walk cb up oid tr,
    lib.Head (repo r) = ROk head ->
    lib.ref_Target head = Some target ->
    lib.Walk (repo r) = ROk walk ->
    last_at (lib.oid_String git target) (Branches r) None = Some cb ->
    Upstream cb = Some up ->
    lib.NewOid git (Branch_Hash up) = ROk oid ->
    lib.rw_Push (repo r) walk oid = None ->
    Repository_loadCommits git r tr =
      (Ok (set_Commits r
             (RevWalk_Iterate (fst (lib.rw_Iterate (repo r) walk oid))
                (loadCommits_callback git (repo r)) [])),
       tr ++ [Acquire (HWalk walk); CallPush oid; Release (HWalk walk)]).
Proof.
  intros r head target walk cb up oid tr Hhead Ht Hwalk Hlast Hup Hoid Hpush.
  unfold Repository_loadCommits, func. unfold bind at 1.
  rewrite Hhead. cbn [try ret]. unfold bind at 1. rewrite Hwalk.
  cbn [try ret]. unfold bind at 1 2. unfold emit at 1. go_simpl.
  rewrite (loadCommits_currentbranch_last head target _ _ _ Ht).
  rewrite Hlast. rewrite Hup. go_unfold. rewrite Hoid. go_simpl.
  rewrite Hpush.
  destruct (lib.rw_Iterate (repo r) walk oid) as [visited err].
  cbn. rewrite <- !app_assoc. reflexivity.
Qed.

(** The last branch at HEAD's commit has no upstream: [loadCommits]
    panics, whatever the store. *)
Lemma loadCommits_panics_on_nil_Upstream :
  forall r head target walk cb tr,
    lib.Head (repo r) = ROk head ->
    lib.ref_Target head = Some target ->
    lib.Walk (repo r) = ROk walk ->
    last_at (lib.oid_String git target) (Branches r) None = Some cb ->
    Upstream cb = None ->
    Repository_loadCommits git r tr =
      (Panic nil_dereference, tr ++ [Acquire (HWalk walk)]).
Proof.
  intros r head target walk cb tr Hhead Ht Hwalk Hlast Hup.
  unfold Repository_loadCommits, func. unfold bind at 1.
  rewrite Hhead. cbn [try ret]. unfold bind at 1. rewrite Hwalk.
  cbn [try ret]. unfold bind at 1 2. unfold emit at 1. go_simpl.
  rewrite (loadCommits_currentbranch_last head target _ _ _ Ht).
  rewrite Hlast. rewrite Hup. go_unfold. cbn. rewrite app_nil_r.
  reflexivity.
Qed.

End StartFacts.

(** ** What [Diff] does release *)

Lemma acquisitions_app :
  forall h l1 l2,
    acquisitions h (l1 ++ l2) = acquisitions h l1 + acquisitions h l2.
Proof.
  intros h l1 l2. unfold acquisitions.
  rewrite filter_app, length_app. reflexivity.
Qed.

Lemma releases_app :
  forall h l1 l2, releases h (l1 ++ l2) = releases h l1 + releases h l2.
Proof.
  intros h l1 l2. unfold releases.
  rewrite filter_app, length_app. reflexivity.
Qed.

(** The loop acquires and releases patches only. *)
Lemma Diff_loop_events :
  forall git s diff n i dds ps fr res fr',
    Diff_loop git s diff i n dds ps fr = (res, fr') ->
    exists evs,
      trace fr' = trace fr ++ evs /\
      forall h, deferred_kind h = true ->
                acquisitions h evs = 0 /\ releases h evs = 0.
Proof.
  intros git s diff. induction n as [|n IH]; intros i dds ps fr res fr' H.
  - cbn in H. go_unfold. inversion H; subst. exists [].
    rewrite app_nil_r. split; [reflexivity|]. intros h _. split; reflexivity.
  - rewrite Diff_loop_S in H. cbn zeta in H.
    assert (Hnext : forall dds1 ps1 fr1 pre,
               Diff_loop git s diff (i + 1) n dds1 ps1 fr1 = (res, fr') ->
               trace fr1 = trace fr ++ pre ->
               (forall h, deferred_kind h = true ->
                          acquisitions h pre = 0 /\ releases h pre = 0) ->
               exists evs,
                 trace fr' = trace fr ++ evs /\
                 forall h, deferred_kind h = true ->
                           acquisitions h evs = 0 /\ releases h evs = 0).
    { intros dds1 ps1 fr1 pre Hrun Ht Hpre.
      apply IH in Hrun. destruct Hrun as [evs [Ht' Hevs]].
      exists (pre ++ evs). split.
      - rewrite Ht', Ht. rewrite <- app_assoc. reflexivity.
      - intros h Hh. rewrite acquisitions_app, releases_app.
        destruct (Hpre h Hh) as [-> ->]. destruct (Hevs h Hh) as [-> ->].
        split; reflexivity. }
    assert (Hpatch : forall pre,
               Forall (fun ev => match ev with
                                 | CallPatch _ | Acquire (HPatch _)
                                 | Release (HPatch _) => True
                                 | _ => False
                                 end) pre ->
               forall h, deferred_kind h = true ->
                         acquisitions h pre = 0 /\ releases h pre = 0).
    { intros pre Hall h Hh. induction Hall as [|ev pre Hev _ IHpre].
      - split; reflexivity.
      - destruct IHpre as [Ha Hr].
        unfold acquisitions, releases in *. cbn [filter].
        destruct ev as [h'|h'| | | |]; try contradiction;
          try (destruct h'; try contradiction);
          destruct h; try discriminate Hh; cbn; split; assumption. }
    destruct (lib.d_Patch s diff i) as [patch|e1].
    + destruct (lib.d_GetDelta s diff i) as [dd|e2].
      * destruct (lib.p_String s patch) as [text|e3].
        -- destruct (lib.p_Free s patch) as [e4|].
           ++ inversion H; subst. cbn.
              exists [CallPatch i; Acquire (HPatch patch)].
              rewrite <- app_assoc. split; [reflexivity|].
              apply Hpatch. repeat constructor.
           ++ apply (Hnext _ _ _ [CallPatch i; Acquire (HPatch patch);
                                  Release (HPatch patch)] H).
              ** cbn. rewrite <- !app_assoc. reflexivity.
              ** apply Hpatch. repeat constructor.
        -- apply (Hnext _ _ _ [CallPatch i; Acquire (HPatch patch)] H).
           ++ cbn. rewrite <- !app_assoc. reflexivity.
           ++ apply Hpatch. repeat constructor.
      * apply (Hnext _ _ _ [CallPatch i; Acquire (HPatch patch)] H).
        -- cbn. rewrite <- !app_assoc. reflexivity.
        -- apply Hpatch. repeat constructor.
    + apply (Hnext _ _ _ [CallPatch i] H).
      * reflexivity.
      * apply Hpatch. repeat constructor.
Qed.

Ltac balance_tac :=
  eexists; split;
  [ rewrite <- ?app_assoc; cbn [app map]; reflexivity
  | let h := fresh "h" in
    let Hh := fresh "Hh" in
    intros h Hh; destruct h; try discriminate Hh;
    unfold acquisitions, releases; cbn;
    repeat match goal with
      | |- context [N.eqb ?a ?b] => destruct (N.eqb a b); cbn
      end;
    reflexivity ].

(** On every exit of [Diff], normal, error or panic, each tree and each
    diff object it acquired has been released. *)
Lemma Diff_releases_trees_and_diff :
  forall git r c tr res tr',
    Repository_Diff git r c tr = (res, tr') ->
    exists evs,
      tr' = tr ++ evs /\
      forall h, deferred_kind h = true ->
                acquisitions h evs = releases h evs.
Proof.
  intros git r c tr res tr' H.
  unfold Repository_Diff, func in H. go_unfold.
  assert (Hnil : exists evs, tr = tr ++ evs /\
            forall h, deferred_kind h = true ->
                      acquisitions h evs = releases h evs).
  { exists []. rewrite app_nil_r. split; [reflexivity|]. reflexivity. }
  assert (Hloop : forall diff n pre dfs st fr0,
            (forall h, deferred_kind h = true ->
               acquisitions h (pre ++ [Acquire (HStats st)] ++ map Release dfs)
               = releases h (pre ++ [Acquire (HStats st)] ++ map Release dfs)) ->
            trace fr0 = tr ++ pre ++ [Acquire (HStats st)] ->
            defers fr0 = dfs ->
            forall res0 fr,
              Diff_loop git (repo r) diff 0 n [] [] fr0 = (res0, fr) ->
              exists evs,
                trace fr ++ map Release (defers fr) = tr ++ evs /\
                forall h, deferred_kind h = true ->
                          acquisitions h evs = releases h evs).
  { intros diff n pre dfs st fr0 Hbal Ht0 Hd0 res0 fr Hrun.
    pose proof Hrun as Hframe. apply Diff_loop_frame in Hframe.
    destruct Hframe as [Hd _].
    apply Diff_loop_events in Hrun. destruct Hrun as [evs [Ht Hevs]].
    rewrite Ht, Hd, Ht0, Hd0.
    exists (pre ++ [Acquire (HStats st)] ++ evs ++ map Release dfs).
    split; [rewrite <- !app_assoc; reflexivity|].
    intros h Hh. specialize (Hbal h Hh). destruct (Hevs h Hh) as [Ha Hr].
    rewrite !acquisitions_app, !releases_app in *. rewrite Ha, Hr. lia. }
  destruct (commit c) as [cm|]; [|inversion H; subst; cbn;
                                  rewrite app_nil_r; exact Hnil].
  destruct (lib.c_Tree (repo r) cm) as [cTree|];
    [|inversion H; subst; cbn; rewrite app_nil_r; exact Hnil].
  destruct (Nat.ltb 0 (lib.c_ParentCount (repo r) cm)).
  - destruct (lib.c_Parent (repo r) cm 0) as [parent|];
      [|inversion H; subst; cbn; balance_tac].
    destruct (lib.c_Tree (repo r) parent) as [pt|];
      [|inversion H; subst; cbn; balance_tac].
    destruct (lib.DefaultDiffOptions git) as [opt|];
      [|inversion H; subst; cbn; balance_tac].
    destruct (lib.DiffTreeToTree (repo r) (Some pt) cTree opt) as [diff|];
      [|inversion H; subst; cbn; balance_tac].
    destruct (lib.d_Stats (repo r) diff) as [st|];
      [|inversion H; subst; cbn; balance_tac].
    destruct (lib.s_String (repo r) st lib.DiffStatsFull 80) as [text|];
      [|inversion H; subst; cbn; balance_tac].
    destruct (lib.d_NumDeltas (repo r) diff) as [n|];
      [|inversion H; subst; cbn; balance_tac].
    go_simpl.
    destruct (Diff_loop git (repo r) diff 0 (Z.to_nat n) [] [] _)
      as [res0 fr] eqn:Hrun.
    assert (Htr : tr' = trace fr ++ map Release (defers fr))
      by (destruct res0 as [[dds ps]|e|p]; inversion H; reflexivity).
    rewrite Htr.
    apply (Hloop diff (Z.to_nat n)
             [Acquire (HTree cTree); Acquire (HTree pt);
              CallDiffTreeToTree (Some pt) cTree; Acquire (HDiff diff)]
             [HDiff diff; HTree pt; HTree cTree] st _) with (4 := Hrun).
    + intros h Hh; destruct h; try discriminate Hh;
        unfold acquisitions, releases; cbn;
        repeat match goal with
          | |- context [N.eqb ?a ?b] => destruct (N.eqb a b); cbn
          end; reflexivity.
    + cbn. rewrite <- !app_assoc. reflexivity.
    + reflexivity.
  - destruct (lib.DefaultDiffOptions git) as [opt|];
      [|inversion H; subst; cbn; balance_tac].
    destruct (lib.DiffTreeToTree (repo r) None cTree opt) as [diff|];
      [|inversion H; subst; cbn; balance_tac].
    destruct (lib.d_Stats (repo r) diff) as [st|];
      [|inversion H; subst; cbn; balance_tac].
    destruct (lib.s_String (repo r) st lib.DiffStatsFull 80) as [text|];
      [|inversion H; subst; cbn; balance_tac].
    destruct (lib.d_NumDeltas (repo r) diff) as [n|];
      [|inversion H; subst; cbn; balance_tac].
    go_simpl.
    destruct (Diff_loop git (repo r) diff 0 (Z.to_nat n) [] [] _)
      as [res0 fr] eqn:Hrun.
    assert (Htr : tr' = trace fr ++ map Release (defers fr))
      by (destruct res0 as [[dds ps]|e|p]; inversion H; reflexivity).
    rewrite Htr.
    apply (Hloop diff (Z.to_nat n)
             [Acquire (HTree cTree);
              CallDiffTreeToTree None cTree; Acquire (HDiff diff)]
             [HDiff diff; HTree cTree] st _) with (4 := Hrun).
    + intros h Hh; destruct h; try discriminate Hh;
        unfold acquisitions, releases; cbn;
        repeat match goal with
          | |- context [N.eqb ?a ?b] => destruct (N.eqb a b); cbn
          end; reflexivity.
    + cbn. rewrite <- !app_assoc. reflexivity.
    + reflexivity.
Qed.

(** * Further properties of the code *)

(** ** [loadCommits], case by case *)

Lemma loadCommits_currentbranch_nil_target :
  forall git head bs cur fr,
    lib.ref_Target head = None ->
    loadCommits_currentbranch git head bs cur fr =
      (match bs with
       | [] => Ok cur
       | _ :: _ => Panic nil_dereference
       end, fr).
Proof.
  intros git head bs cur fr Ht. destruct bs as [|b rest]; [reflexivity|].
  cbn [loadCommits_currentbranch]. rewrite Ht. reflexivity.
Qed.

(** Every outcome of [loadCommits], with its trace. *)
Lemma loadCommits_eq :
  forall git r tr,
    Repository_loadCommits git r tr =
      match lib.Head (repo r) with
      | RErr e => (Err e, tr)
      | ROk head =>
          match lib.Walk (repo r) with
          | RErr e => (Err e, tr)
          | ROk walk =>
              let push_and_walk := fun start =>
                match lib.rw_Push (repo r) walk start with
                | Some e =>
                    (Err e, tr ++ [Acquire (HWalk walk); CallPush start])
                | None =>
                    (Ok (set_Commits r
                           (RevWalk_Iterate
                              (fst (lib.rw_Iterate (repo r) walk start))
                              (loadCommits_callback git (repo r)) [])),
                     tr ++ [Acquire (HWalk walk); CallPush start;
                            Release (HWalk walk)])
                end in
              match lib.ref_Target head with
              | None => (Panic nil_dereference, tr ++ [Acquire (HWalk walk)])
              | Some target =>
                  match last_at (lib.oid_String git target) (Branches r) None with
                  | None => push_and_walk target
                  | Some cb =>
                      match Upstream cb with
                      | None =>
                          (Panic nil_dereference, tr ++ [Acquire (HWalk walk)])
                      | Some up =>
                          match lib.NewOid git (Branch_Hash up) with
                          | RErr e => (Err e, tr ++ [Acquire (HWalk walk)])
                          | ROk oid => push_and_walk oid
                          end
                      end
                  end
              end
          end
      end.
Proof.
  intros git r tr. unfold Repository_loadCommits, func. unfold bind at 1.
  destruct (lib.Head (repo r)) as [head|e]; cbn [try ret fail];
    [|cbn; rewrite app_nil_r; reflexivity].
  unfold bind at 1.
  destruct (lib.Walk (repo r)) as [walk|e]; cbn [try ret fail];
    [|cbn; rewrite app_nil_r; reflexivity].
  unfold bind at 1 2. unfold emit at 1. go_simpl. cbn zeta.
  destruct (lib.ref_Target head) as [target|] eqn:Ht.
  - rewrite (loadCommits_currentbranch_last git head target _ _ _ Ht).
    destruct (last_at (lib.oid_String git target) (Branches r) None)
      as [cb|].
    + destruct (Upstream cb) as [up|]; go_unfold;
        [|cbn; rewrite app_nil_r; reflexivity].
      destruct (lib.NewOid git (Branch_Hash up)) as [oid|e]; go_simpl;
        [|cbn; rewrite app_nil_r; reflexivity].
      destruct (lib.rw_Push (repo r) walk oid) as [e|]; go_simpl.
      * cbn. rewrite app_nil_r, <- app_assoc. reflexivity.
      * destruct (lib.rw_Iterate (repo r) walk oid) as [visited err].
        cbn. rewrite <- !app_assoc. reflexivity.
    + go_unfold.
      destruct (lib.rw_Push (repo r) walk target) as [e|]; go_simpl.
      * cbn. rewrite app_nil_r, <- app_assoc. reflexivity.
      * destruct (lib.rw_Iterate (repo r) walk target) as [visited err].
        cbn. rewrite <- !app_assoc. reflexivity.
  - rewrite (loadCommits_currentbranch_nil_target git head _ _ _ Ht).
    destruct (Branches r) as [|b rest].
    + go_unfold. cbn. rewrite app_nil_r. reflexivity.
    + cbn. rewrite app_nil_r. reflexivity.
Qed.

Lemma last_at_none :
  forall h bs cur,
    Forall (fun b => Branch_Hash b <> h) bs -> last_at h bs cur = cur.
Proof.
  intros h. induction bs as [|b rest IH]; intros cur Hall; [reflexivity|].
  inversion Hall as [|? ? Hb Hrest]; subst. cbn.
  destruct (String.eqb_spec h (Branch_Hash b)) as [Heq|_];
    [congruence | apply IH; exact Hrest].
Qed.

Lemma last_at_last :
  forall h pre cb post cur,
    Branch_Hash cb = h ->
    Forall (fun b => Branch_Hash b <> h) post ->
    last_at h (pre ++ cb :: post) cur = Some cb.
Proof.
  intros h. induction pre as [|b pre IH]; intros cb post cur Hcb Hpost.
  - cbn. rewrite Hcb, String.eqb_refl. apply last_at_none. exact Hpost.
  - cbn. destruct (String.eqb h (Branch_Hash b)); apply IH; assumption.
Qed.

Lemma RevWalk_Iterate_callback :
  forall git s visited cs,
    RevWalk_Iterate visited (loadCommits_callback git s) cs =
      cs ++ flat_map (fun ch => fst (loadCommits_callback git s ch []))
              visited.
Proof.
  intros git s. induction visited as [|ch rest IH]; intros cs.
  - cbn. rewrite app_nil_r. reflexivity.
  - cbn [RevWalk_Iterate flat_map]. cbn [loadCommits_callback fst].
    rewrite IH. rewrite <- app_assoc. reflexivity.
Qed.

Lemma loadCommits_callback_handles :
  forall git s visited,
    map commit
      (RevWalk_Iterate visited (loadCommits_callback git s) []) =
    map Some visited.
Proof.
  intros git s visited. rewrite RevWalk_Iterate_callback. cbn [app].
  induction visited as [|ch rest IH]; [reflexivity|].
  cbn. f_equal. exact IH.
Qed.

(** X1. When no branch of Repository.Branches is at HEAD's hash,
    loadCommits pushes HEAD's target on the walk, and nothing else,
    releases the walker and returns the commits the walk visits from
    HEAD, in the walk's order, whether or not the iteration reports an
    error. *)
Theorem loadCommits_walk_from_HEAD :
  forall git r head target walk tr,
    lib.Head (repo r) = ROk head ->
    lib.ref_Target head = Some target ->
    lib.Walk (repo r) = ROk walk ->
    Forall (fun b => Branch_Hash b <> lib.oid_String git target)
      (Branches r) ->
    lib.rw_Push (repo r) walk target = None ->
    exists r',
      Repository_loadCommits git r tr =
        (Ok r', tr ++ [Acquire (HWalk walk); CallPush target;
                       Release (HWalk walk)]) /\
      map commit (Commits r') =
        map Some (fst (lib.rw_Iterate (repo r) walk target)).
Proof.
  intros git r head target walk tr Hhead Ht Hwalk Hnone Hpush.
  rewrite loadCommits_eq. rewrite Hhead, Hwalk. cbn zeta. rewrite Ht.
  rewrite (last_at_none _ _ _ Hnone). rewrite Hpush.
  eexists. split; [reflexivity|]. cbn [Commits set_Commits].
  apply loadCommits_callback_handles.
Qed.

Lemma loadCommits_walk_from_HEAD_witness :
  exists r',
    Repository_loadCommits Example.git Example.repo_ok [] =
      (Ok r', [] ++ [Acquire (HWalk 2%N); CallPush Example.oidC;
                     Release (HWalk 2%N)]) /\
    map commit (Commits r') =
      map Some (fst (lib.rw_Iterate (repo Example.repo_ok) 2%N Example.oidC)).
Proof.
  apply (loadCommits_walk_from_HEAD Example.git Example.repo_ok
           {| lib.ref_Name := "refs/heads/main";
              lib.ref_Target := Some Example.oidC |}).
  - reflexivity.
  - reflexivity.
  - reflexivity.
  - constructor.
  - reflexivity.
Defined.

(** X2. When branches of Repository.Branches are at HEAD's hash, the
    last of them decides: if it has an Upstream, loadCommits pushes the
    commit of the Upstream's hash on the walk, not HEAD, and returns the
    commits visited from there, whatever the earlier branches at HEAD's
    hash hold. *)
Theorem loadCommits_walk_from_last_upstream :
  forall git r head target walk pre cb post up oid tr,
    lib.Head (repo r) = ROk head ->
    lib.ref_Target head = Some target ->
    lib.Walk (repo r) = ROk walk ->
    Branches r = pre ++ cb :: post ->
    Branch_Hash cb = lib.oid_String git target ->
    Forall (fun b => Branch_Hash b <> lib.oid_String git target) post ->
    Upstream cb = Some up ->
    lib.NewOid git (Branch_Hash up) = ROk oid ->
    lib.rw_Push (repo r) walk oid = None ->
    exists r',
      Repository_loadCommits git r tr =
        (Ok r', tr ++ [Acquire (HWalk walk); CallPush oid;
                       Release (HWalk walk)]) /\
      map commit (Commits r') =
        map Some (fst (lib.rw_Iterate (repo r) walk oid)).
Proof.
  intros git r head target walk pre cb post up oid tr
    Hhead Ht Hwalk Hbs Hcb Hpost Hup Hoid Hpush.
  rewrite loadCommits_eq. rewrite Hhead, Hwalk. cbn zeta. rewrite Ht, Hbs.
  rewrite (last_at_last _ pre cb post None Hcb Hpost).
  rewrite Hup, Hoid, Hpush.
  eexists. split; [reflexivity|]. cbn [Commits set_Commits].
  apply loadCommits_callback_handles.
Qed.

Lemma loadCommits_walk_from_last_upstream_witness :
  exists r',
    Repository_loadCommits Example.git Example.repo_ahead [] =
      (Ok r', [] ++ [Acquire (HWalk 2%N); CallPush Example.oidB;
                     Release (HWalk 2%N)]) /\
    map commit (Commits r') =
      map Some (fst (lib.rw_Iterate (repo Example.repo_ahead) 2%N
                       Example.oidB)).
Proof.
  apply (loadCommits_walk_from_last_upstream Example.git Example.repo_ahead
           {| lib.ref_Name := "refs/heads/main";
              lib.ref_Target := Some Example.oidC |}
           Example.oidC 2%N [Example.remote_at_C] Example.main_ahead
           [Example.upstream_at_B] Example.upstream_at_B).
  - reflexivity.
  - reflexivity.
  - reflexivity.
  - reflexivity.
  - reflexivity.
  - constructor; [|constructor]. vm_compute. discriminate.
  - reflexivity.
  - vm_compute. reflexivity.
  - reflexivity.
Defined.

Lemma last_at_In :
  forall h bs cur b,
    last_at h bs cur = Some b -> In b bs \/ cur = Some b.
Proof.
  intros h. induction bs as [|b0 rest IH]; intros cur b H.
  - right. exact H.
  - cbn in H. destruct (String.eqb h (Branch_Hash b0)).
    + apply IH in H. destruct H as [H | H].
      * left. right. exact H.
      * inversion H; subst. left. left. reflexivity.
    + apply IH in H. destruct H as [H | H]; [left; right|right]; exact H.
Qed.

(** X3. When loadCommits returns an error, it is the error of
    repo.Head(), of repo.Walk(), of NewOid on the hash of a branch's
    Upstream, or of walk.Push, in which case the walker was acquired,
    the push attempted, and the walker not released.  The error of
    walk.Iterate is never returned. *)
Theorem loadCommits_errors :
  forall git r tr e tr',
    Repository_loadCommits git r tr = (Err e, tr') ->
    (lib.Head (repo r) = RErr e /\ tr' = tr) \/
    (lib.Walk (repo r) = RErr e /\ tr' = tr) \/
    (exists walk b up,
        lib.Walk (repo r) = ROk walk /\
        In b (Branches r) /\ Upstream b = Some up /\
        lib.NewOid git (Branch_Hash up) = RErr e /\
        tr' = tr ++ [Acquire (HWalk walk)]) \/
    (exists walk start,
        lib.Walk (repo r) = ROk walk /\
        lib.rw_Push (repo r) walk start = Some e /\
        tr' = tr ++ [Acquire (HWalk walk); CallPush start]).
Proof.
  intros git r tr e tr' H. rewrite loadCommits_eq in H.
  destruct (lib.Head (repo r)) as [head|e0].
  2: { inversion H; subst. left. split; reflexivity. }
  destruct (lib.Walk (repo r)) as [walk|e0].
  2: { inversion H; subst. right. left. split; reflexivity. }
  cbn zeta in H.
  destruct (lib.ref_Target head) as [target|]; [|discriminate].
  destruct (last_at (lib.oid_String git target) (Branches r) None)
    as [cb|] eqn:Hlast.
  - destruct (Upstream cb) as [up|] eqn:Hup; [|discriminate].
    apply last_at_In in Hlast. destruct Hlast as [Hin | Hin];
      [|discriminate].
    destruct (lib.NewOid git (Branch_Hash up)) as [oid|e0] eqn:Hoid.
    + destruct (lib.rw_Push (repo r) walk oid) as [e0|] eqn:Hpush;
        [|discriminate].
      inversion H; subst. right. right. right.
      exists walk, oid. repeat split; assumption.
    + inversion H; subst. right. right. left.
      exists walk, cb, up. repeat split; assumption.
  - destruct (lib.rw_Push (repo r) walk target) as [e0|] eqn:Hpush;
      [|discriminate].
    inversion H; subst. right. right. right.
    exists walk, target. repeat split; assumption.
Qed.

Lemma loadCommits_errors_witness :
  (lib.Head (repo Example.repo_nopush) = RErr "push refused" /\
   [Acquire (HWalk 2%N); CallPush Example.oidC] = []) \/
  (lib.Walk (repo Example.repo_nopush) = RErr "push refused" /\
   [Acquire (HWalk 2%N); CallPush Example.oidC] = []) \/
  (exists walk b up,
      lib.Walk (repo Example.repo_nopush) = ROk walk /\
      In b (Branches Example.repo_nopush) /\ Upstream b = Some up /\
      lib.NewOid Example.git (Branch_Hash up) = RErr "push refused" /\
      [Acquire (HWalk 2%N); CallPush Example.oidC] =
        [] ++ [Acquire (HWalk walk)]) \/
  (exists walk start,
      lib.Walk (repo Example.repo_nopush) = ROk walk /\
      lib.rw_Push (repo Example.repo_nopush) walk start =
        Some "push refused" /\
      [Acquire (HWalk 2%N); CallPush Example.oidC] =
        [] ++ [Acquire (HWalk walk); CallPush start]).
Proof.
  apply (loadCommits_errors Example.git Example.repo_nopush []
           "push refused" [Acquire (HWalk 2%N); CallPush Example.oidC]).
  vm_compute. reflexivity.
Defined.

(** X4. loadCommits releases the walker exactly when it returns
    normally.  When it returns an error of NewOid or of walk.Push, or
    panics, after the walker was created, the walker stays unreleased:
    the deferred release is registered after the pushes. *)
Theorem loadCommits_walker_release :
  forall git r tr,
    exists evs,
      snd (Repository_loadCommits git r tr) = tr ++ evs /\
      (forall w,
          releases (HWalk w) evs =
            match fst (Repository_loadCommits git r tr) with
            | Ok _ => acquisitions (HWalk w) evs
            | _ => 0
            end) /\
      (forall head walk,
          lib.Head (repo r) = ROk head ->
          lib.Walk (repo r) = ROk walk ->
          acquisitions (HWalk walk) evs = 1).
Proof.
  intros git r tr. rewrite loadCommits_eq.
  assert (Hone : forall walk rest,
             (forall ev, In ev rest ->
                         match ev with Acquire _ => False | _ => True end) ->
             acquisitions (HWalk walk) (Acquire (HWalk walk) :: rest) = 1).
  { intros walk rest Hrest. unfold acquisitions. cbn.
    rewrite N.eqb_refl. cbn. f_equal.
    induction rest as [|ev rest IH]; [reflexivity|].
    cbn. pose proof (Hrest ev (or_introl eq_refl)) as Hev.
    destruct ev; try contradiction; cbn; apply IH;
      intros ev' Hin; apply Hrest; right; exact Hin. }
  destruct (lib.Head (repo r)) as [head|e0].
  2: { exists []. cbn. rewrite app_nil_r. split; [reflexivity|].
       split; [reflexivity|]. intros ? ? Hh Hw; discriminate. }
  destruct (lib.Walk (repo r)) as [walk|e0].
  2: { exists []. cbn. rewrite app_nil_r. split; [reflexivity|].
       split; [reflexivity|]. intros ? ? Hh Hw; discriminate. }
  cbn zeta.
  assert (Hpush : forall start,
             exists evs,
               snd (match lib.rw_Push (repo r) walk start with
                    | Some e =>
                        (Err e, tr ++ [Acquire (HWalk walk); CallPush start])
                    | None =>
                        (Ok (set_Commits r
                               (RevWalk_Iterate
                                  (fst (lib.rw_Iterate (repo r) walk start))
                                  (loadCommits_callback git (repo r)) [])),
                         tr ++ [Acquire (HWalk walk); CallPush start;
                                Release (HWalk walk)])
                    end) = tr ++ evs /\
               (forall w,
                   releases (HWalk w) evs =
                     match fst (match lib.rw_Push (repo r) walk start with
                                | Some e =>
                                    (Err e, tr ++ [Acquire (HWalk walk);
                                                   CallPush start])
                                | None =>
                                    (Ok (set_Commits r
                                           (RevWalk_Iterate
                                              (fst (lib.rw_Iterate (repo r)
                                                      walk start))
                                              (loadCommits_callback git
                                                 (repo r)) [])),
                                     tr ++ [Acquire (HWalk walk);
                                            CallPush start;
                                            Release (HWalk walk)])
                                end) with
                     | Ok _ => acquisitions (HWalk w) evs
                     | _ => 0
                     end) /\
               (forall head0 walk0,
                   ROk head = ROk head0 -> ROk walk = ROk walk0 ->
                   acquisitions (HWalk walk0) evs = 1)).
  { intros start. destruct (lib.rw_Push (repo r) walk start) as [e|].
    - exists [Acquire (HWalk walk); CallPush start]. cbn [fst snd].
      split; [reflexivity|]. split; [reflexivity|].
      intros head0 walk0 _ Hw. inversion Hw; subst. apply Hone.
      intros ev [<- | []]. exact I.
    - exists [Acquire (HWalk walk); CallPush start; Release (HWalk walk)].
      cbn [fst snd]. split; [reflexivity|]. split.
      + intros w. unfold acquisitions, releases. cbn.
        destruct (N.eqb w walk); reflexivity.
      + intros head0 walk0 _ Hw. inversion Hw; subst. apply Hone.
        intros ev [<- | [<- | []]]; exact I. }
  assert (Hstop : forall (res : Outcome Repository),
             match res with Ok _ => False | _ => True end ->
             exists evs,
               snd (res, tr ++ [Acquire (HWalk walk)]) = tr ++ evs /\
               (forall w,
                   releases (HWalk w) evs =
                     match fst (res, tr ++ [Acquire (HWalk walk)]) with
                     | Ok _ => acquisitions (HWalk w) evs
                     | _ => 0
                     end) /\
               (forall head0 walk0,
                   ROk head = ROk head0 -> ROk walk = ROk walk0 ->
                   acquisitions (HWalk walk0) evs = 1)).
  { intros res Hres. exists [Acquire (HWalk walk)]. cbn [fst snd].
    split; [reflexivity|]. split.
    - intros w. destruct res; [contradiction | reflexivity | reflexivity].
    - intros head0 walk0 _ Hw. inversion Hw; subst. apply Hone.
      intros ev []. }
  destruct (lib.ref_Target head) as [target|]; [|apply Hstop; exact I].
  destruct (last_at (lib.oid_String git target) (Branches r) None) as [cb|];
    [|apply Hpush].
  destruct (Upstream cb) as [up|]; [|apply Hstop; exact I].
  destruct (lib.NewOid git (Branch_Hash up)) as [oid|e];
    [apply Hpush | apply Hstop; exact I].
Qed.

(** X5. When loadCommits returns normally, Repository.Commits holds one
    Commit per commit the walk visits from the pushed start, in the
    walk's order: the store handle, the id printed as Hash, the author
    triple, the message, the summary, and an empty Type.  Exactly one
    commit was pushed on the walk, and the rest of the repository is
    unchanged. *)
Theorem loadCommits_materializes_the_walk :
  forall git r tr r' tr',
    Repository_loadCommits git r tr = (Ok r', tr') ->
    exists walk start,
      lib.Walk (repo r) = ROk walk /\
      tr' = tr ++ [Acquire (HWalk walk); CallPush start;
                   Release (HWalk walk)] /\
      Commits r' =
        map (fun ch =>
               {| commit := Some ch;
                  Commit_Hash := lib.oid_String git (lib.c_Id (repo r) ch);
                  Author :=
                    Some {| Contributor_Name :=
                              lib.sig_Name (lib.c_Author (repo r) ch);
                            Email := lib.sig_Email (lib.c_Author (repo r) ch);
                            When := lib.sig_When (lib.c_Author (repo r) ch) |};
                  Message := lib.c_Message (repo r) ch;
                  Summary := lib.c_Summary (repo r) ch;
                  Commit_Type := "" |})
            (fst (lib.rw_Iterate (repo r) walk start)) /\
      repo r' = repo r /\ Branches r' = Branches r /\
      Remotes r' = Remotes r /\ AbsPath r' = AbsPath r.
Proof.
  intros git r tr r' tr' H. rewrite loadCommits_eq in H.
  assert (Hmap : forall visited,
             RevWalk_Iterate visited (loadCommits_callback git (repo r)) [] =
             map (fun ch =>
                    {| commit := Some ch;
                       Commit_Hash := lib.oid_String git (lib.c_Id (repo r) ch);
                       Author :=
                         Some {| Contributor_Name :=
                                   lib.sig_Name (lib.c_Author (repo r) ch);
                                 Email :=
                                   lib.sig_Email (lib.c_Author (repo r) ch);
                                 When :=
                                   lib.sig_When (lib.c_Author (repo r) ch) |};
                       Message := lib.c_Message (repo r) ch;
                       Summary := lib.c_Summary (repo r) ch;
                       Commit_Type := "" |}) visited).
  { intros visited. rewrite RevWalk_Iterate_callback. cbn [app].
    induction visited as [|ch rest IH]; [reflexivity|].
    cbn. f_equal; exact IH. }
  destruct (lib.Head (repo r)) as [head|e0]; [|discriminate].
  destruct (lib.Walk (repo r)) as [walk|e0]; [|discriminate].
  cbn zeta in H.
  destruct (lib.ref_Target head) as [target|]; [|discriminate].
  destruct (last_at (lib.oid_String git target) (Branches r) None) as [cb|].
  - destruct (Upstream cb) as [up|]; [|discriminate].
    destruct (lib.NewOid git (Branch_Hash up)) as [oid|e0]; [|discriminate].
    destruct (lib.rw_Push (repo r) walk oid) as [e0|]; [discriminate|].
    inversion H; subst. exists walk, oid. cbn. rewrite Hmap.
    repeat split; reflexivity.
  - destruct (lib.rw_Push (repo r) walk target) as [e0|]; [discriminate|].
    inversion H; subst. exists walk, target. cbn. rewrite Hmap.
    repeat split; reflexivity.
Qed.

Lemma loadCommits_materializes_the_walk_witness :
  exists walk start,
    lib.Walk (repo Example.repo_ok) = ROk walk /\
    [Acquire (HWalk 2%N); CallPush Example.oidC; Release (HWalk 2%N)] =
      [] ++ [Acquire (HWalk walk); CallPush start; Release (HWalk walk)] /\
    Commits Example.repo_walked =
      map (fun ch =>
             {| commit := Some ch;
                Commit_Hash :=
                  lib.oid_String Example.git
                    (lib.c_Id (repo Example.repo_ok) ch);
                Author :=
                  Some {| Contributor_Name :=
                            lib.sig_Name (lib.c_Author (repo Example.repo_ok) ch);
                          Email :=
                            lib.sig_Email (lib.c_Author (repo Example.repo_ok) ch);
                          When :=
                            lib.sig_When (lib.c_Author (repo Example.repo_ok) ch) |};
                Message := lib.c_Message (repo Example.repo_ok) ch;
                Summary := lib.c_Summary (repo Example.repo_ok) ch;
                Commit_Type := "" |})
          (fst (lib.rw_Iterate (repo Example.repo_ok) walk start)) /\
    repo Example.repo_walked = repo Example.repo_ok /\
    Branches Example.repo_walked = Branches Example.repo_ok /\
    Remotes Example.repo_walked = Remotes Example.repo_ok /\
    AbsPath Example.repo_walked = AbsPath Example.repo_ok.
Proof.
  apply (loadCommits_materializes_the_walk Example.git Example.repo_ok []
           Example.repo_walked
           [Acquire (HWalk 2%N); CallPush Example.oidC; Release (HWalk 2%N)]).
  vm_compute. reflexivity.
Defined.

(** ** [loadBranches], branch by branch *)

Section LoadBranchesFacts.

Variable git : lib.Package.

(** One call of the callback: an error leaves the slice as it was, a
    normal return appends the branch built from [b]. *)
Lemma loadBranches_callback_step :
  forall b bs fr bs' err fr',
    loadBranches_callback git b bs fr = (Ok (bs', err), fr') ->
    match err with
    | Some e => unloadable b e /\ bs' = bs /\ fr' = fr
    | None => exists nb, bs' = bs ++ [nb] /\ loaded_from git b nb
    end.
Proof.
  intros b bs fr bs' err fr' H. unfold loadBranches_callback in H.
  destruct (lib.br_Name b) as [name|e] eqn:Hname.
  2: { go_unfold. inversion H; subst. repeat split. left. exact Hname. }
  assert (Hbuild : forall oid0 fr0,
             resolves_to b oid0 ->
             bind
               (if negb (lib.br_IsRemote b)
                then
                  match lib.br_Upstream b with
                  | ROk (Some us) =>
                      bind (deref (lib.ref_Target us))
                        (fun target =>
                           ret (Some {| Branch_Name := "";
                                        FullName := lib.ref_Name us;
                                        Branch_Hash := lib.oid_String git target;
                                        Upstream := None;
                                        Ahead := []; Behind := [];
                                        Clean := false;
                                        isRemote := true |}))
                  | _ => bind (emit (Warn "upstream not found"))
                           (fun _ => ret None)
                  end
                else ret None)
               (fun upstream =>
                  ret (bs ++ [{| Branch_Name := name;
                                 FullName := lib.ref_Name (lib.br_Reference b);
                                 Branch_Hash := lib.oid_String git oid0;
                                 Upstream := upstream;
                                 Ahead := []; Behind := [];
                                 Clean := false;
                                 isRemote := lib.br_IsRemote b |}], None))
               fr0 = (Ok (bs', err), fr') ->
             match err with
             | Some e => unloadable b e /\ bs' = bs /\ fr' = fr
             | None => exists nb, bs' = bs ++ [nb] /\ loaded_from git b nb
             end).
  { intros oid0 fr0 Hres Hrun. go_unfold.
    assert (Hhash : exists oid,
               resolves_to b oid /\
               lib.oid_String git oid0 = lib.oid_String git oid)
      by (exists oid0; split; [exact Hres | reflexivity]).
    destruct (lib.br_IsRemote b) eqn:Hremote; cbn [negb] in Hrun.
    - inversion Hrun; subst. eexists. split; [reflexivity|].
      unfold loaded_from, has_upstream. cbn. rewrite Hremote.
      split; [exact Hname|]. split; [reflexivity|]. split; [reflexivity|].
      split; [exact Hhash|]. split; [reflexivity|]. split; [reflexivity|].
      split; reflexivity.
    - destruct (lib.br_Upstream b) as [[us|]|e] eqn:Hup.
      + destruct (lib.ref_Target us) as [target|] eqn:Hus; [|discriminate].
        inversion Hrun; subst. eexists. split; [reflexivity|].
        unfold loaded_from. cbn.
        split; [exact Hname|]. split; [reflexivity|].
        split; [symmetry; exact Hremote|].
        split; [exact Hhash|]. split; [reflexivity|]. split; [reflexivity|].
        split; [reflexivity|].
        exists us, target. split; [exact Hremote|]. split; [exact Hup|].
        split; [exact Hus | reflexivity].
      + inversion Hrun; subst. eexists. split; [reflexivity|].
        unfold loaded_from, has_upstream. cbn. rewrite Hup, Hremote.
        split; [exact Hname|]. split; [reflexivity|]. split; [reflexivity|].
        split; [exact Hhash|]. split; [reflexivity|]. split; [reflexivity|].
        split; reflexivity.
      + inversion Hrun; subst. eexists. split; [reflexivity|].
        unfold loaded_from, has_upstream. cbn. rewrite Hup, Hremote.
        split; [exact Hname|]. split; [reflexivity|]. split; [reflexivity|].
        split; [exact Hhash|]. split; [reflexivity|]. split; [reflexivity|].
        split; reflexivity. }
  destruct (lib.ref_Target (lib.br_Reference b)) as [oid0|] eqn:Htarget.
  - unfold bind at 1 in H. unfold deref at 1, ret at 1 in H.
    apply (Hbuild oid0 fr); [left; exact Htarget|]. exact H.
  - destruct (lib.br_Resolve b) as [ref|e] eqn:Hres.
    2: { go_unfold. inversion H; subst. repeat split. right.
         split; [eauto|]. split; [exact Htarget | exact Hres]. }
    unfold bind at 1 in H.
    destruct (lib.ref_Target ref) as [oid0|] eqn:Href;
      [|go_unfold; discriminate].
    unfold deref at 1, ret at 1 in H.
    apply (Hbuild oid0 fr); [|exact H].
    right. split; [exact Htarget|]. exists ref.
    split; [exact Hres | exact Href].
Qed.

(** The iteration loads a prefix of the store's branches, in order, and
    stops at the first branch on which the callback fails. *)
Lemma BranchIterator_ForEach_prefix :
  forall branches bs fr bs' err fr',
    BranchIterator_ForEach branches (loadBranches_callback git) bs fr =
      (Ok (bs', err), fr') ->
    exists k loaded,
      bs' = bs ++ loaded /\
      Forall2 (loaded_from git) (firstn k branches) loaded /\
      match err with
      | None => k = List.length branches
      | Some e => exists b, nth_error branches k = Some b /\ unloadable b e
      end.
Proof.
  induction branches as [|b rest IH]; intros bs fr bs' err fr' H.
  - cbn in H. go_unfold. inversion H; subst.
    exists 0, []. rewrite app_nil_r. repeat split. constructor.
  - cbn [BranchIterator_ForEach] in H. unfold bind at 1 in H.
    destruct (loadBranches_callback git b bs fr)
      as [[[bs1 [e1|]]|e|p] fr1] eqn:Hcb; try discriminate.
    + apply loadBranches_callback_step in Hcb.
      destruct Hcb as (Hbad & -> & ->).
      go_unfold. inversion H; subst.
      exists 0, []. rewrite app_nil_r. split; [reflexivity|].
      split; [constructor|]. exists b. split; [reflexivity | exact Hbad].
    + apply loadBranches_callback_step in Hcb.
      destruct Hcb as (nb & -> & Hnb).
      apply IH in H. destruct H as (k & loaded & -> & Hall & Herr).
      exists (S k), (nb :: loaded). split.
      * rewrite <- app_assoc. reflexivity.
      * split; [constructor; assumption|].
        destruct err as [e|]; [exact Herr | cbn; congruence].
Qed.

(** The callback never touches the defer stack and logs warnings only. *)
Lemma loadBranches_callback_frame :
  forall b bs fr res fr',
    loadBranches_callback git b bs fr = (res, fr') ->
    defers fr' = defers fr /\
    exists evs,
      trace fr' = trace fr ++ evs /\
      Forall (fun ev => exists msg, ev = Warn msg) evs.
Proof.
  intros b bs fr res fr' H.
  assert (Hsame : forall (res0 : Outcome (list Branch * option error)),
             (res0, fr) = (res, fr') ->
             defers fr' = defers fr /\
             exists evs,
               trace fr' = trace fr ++ evs /\
               Forall (fun ev => exists msg, ev = Warn msg) evs).
  { intros res0 Heq. inversion Heq; subst. split; [reflexivity|].
    exists []. rewrite app_nil_r. split; [reflexivity | constructor]. }
  assert (Hwarn : forall (res0 : Outcome (list Branch * option error)),
             (res0, {| trace := trace fr ++ [Warn "upstream not found"];
                       defers := defers fr |}) = (res, fr') ->
             defers fr' = defers fr /\
             exists evs,
               trace fr' = trace fr ++ evs /\
               Forall (fun ev => exists msg, ev = Warn msg) evs).
  { intros res0 Heq. inversion Heq; subst. split; [reflexivity|].
    exists [Warn "upstream not found"]. split; [reflexivity|].
    constructor; [eauto | constructor]. }
  unfold loadBranches_callback in H.
  destruct (lib.br_Name b) as [name|e]; [|eapply Hsame; exact H].
  destruct (match lib.ref_Target (lib.br_Reference b) with
            | Some _ => ROk (lib.ref_Target (lib.br_Reference b))
            | None =>
                match lib.br_Resolve b with
                | ROk ref => ROk (lib.ref_Target ref)
                | RErr err => RErr err
                end
            end) as [rawOid|e]; [|eapply Hsame; exact H].
  go_unfold.
  destruct rawOid as [oid|]; [|eapply Hsame; exact H].
  destruct (lib.br_IsRemote b); cbn [negb] in H; [eapply Hsame; exact H|].
  destruct (lib.br_Upstream b) as [[us|]|e].
  - destruct (lib.ref_Target us); eapply Hsame; exact H.
  - eapply Hwarn; exact H.
  - eapply Hwarn; exact H.
Qed.

Lemma BranchIterator_ForEach_frame :
  forall branches bs fr res fr',
    BranchIterator_ForEach branches (loadBranches_callback git) bs fr =
      (res, fr') ->
    defers fr' = defers fr /\
    exists evs,
      trace fr' = trace fr ++ evs /\
      Forall (fun ev => exists msg, ev = Warn msg) evs.
Proof.
  induction branches as [|b rest IH]; intros bs fr res fr' H.
  - cbn in H. go_unfold. inversion H; subst. split; [reflexivity|].
    exists []. rewrite app_nil_r. split; [reflexivity | constructor].
  - cbn [BranchIterator_ForEach] in H. unfold bind at 1 in H.
    destruct (loadBranches_callback git b bs fr) as [res1 fr1] eqn:Hcb.
    apply loadBranches_callback_frame in Hcb.
    destruct Hcb as [Hd1 [evs1 [Ht1 Hw1]]].
    assert (Hstop : forall (res0 : Outcome (list Branch * option error)),
               (res0, fr1) = (res, fr') ->
               defers fr' = defers fr /\
               exists evs,
                 trace fr' = trace fr ++ evs /\
                 Forall (fun ev => exists msg, ev = Warn msg) evs).
    { intros res0 Heq. inversion Heq; subst. split; [exact Hd1|].
      exists evs1. split; assumption. }
    destruct res1 as [[bs1 [e1|]]|e|p]; try (eapply Hstop; exact H).
    apply IH in H. destruct H as [Hd [evs [Ht Hw]]].
    split; [congruence|]. exists (evs1 ++ evs). split.
    + rewrite Ht, Ht1. rewrite <- app_assoc. reflexivity.
    + apply Forall_app. split; assumption.
Qed.

(** [loadBranches] around its iteration. *)
Lemma loadBranches_eq :
  forall r tr it,
    lib.NewBranchIterator (repo r) lib.BranchAll = ROk it ->
    exists res evs,
      BranchIterator_ForEach (lib.bi_Branches (repo r) it)
        (loadBranches_callback git) []
        {| trace := tr ++ [Acquire (HBranchIter it)];
           defers := [HBranchIter it] |} =
        (res, {| trace := (tr ++ [Acquire (HBranchIter it)]) ++ evs;
                 defers := [HBranchIter it] |}) /\
      Forall (fun ev => exists msg, ev = Warn msg) evs /\
      Repository_loadBranches git r tr =
        (match res with
         | Ok (bs, err) => Ok (set_Branches r bs, err)
         | Err e => Err e
         | Panic p => Panic p
         end,
         tr ++ [Acquire (HBranchIter it)] ++ evs
            ++ [Release (HBranchIter it)]).
Proof.
  intros r tr it Hit.
  destruct (BranchIterator_ForEach (lib.bi_Branches (repo r) it)
              (loadBranches_callback git) []
              {| trace := tr ++ [Acquire (HBranchIter it)];
                 defers := [HBranchIter it] |}) as [res fr] eqn:Hfe.
  pose proof Hfe as Hframe. apply BranchIterator_ForEach_frame in Hframe.
  cbn in Hframe. destruct Hframe as [Hd [evs [Ht Hw]]].
  exists res, evs. split.
  - destruct fr as [t d]. cbn in Hd, Ht. subst. reflexivity.
  - split; [exact Hw|].
    unfold Repository_loadBranches, func. rewrite Hit.
    unfold bind at 1 2. unfold emit at 1, defer at 1. go_simpl.
    unfold bind at 1. rewrite Hfe.
    destruct res as [[bs err]|e|p]; go_unfold; cbn;
      rewrite Ht, Hd; cbn; rewrite <- !app_assoc; reflexivity.
Qed.

End LoadBranchesFacts.

(** X6. When the branch iterator opens, loadBranches leaves in
    Repository.Branches the branches built from a prefix of the store's
    branches, in the store's order: short name, reference name, printed
    target (the resolved one for a symbolic branch), remote flag, an
    Upstream only for a local branch whose Upstream() gives a reference,
    and Ahead, Behind and Clean never populated.  Without error the
    prefix is the whole list; with an error it stops before the first
    branch whose name or resolution fails, and that error is returned.
    Nothing else of the repository changes. *)
Theorem loadBranches_loads_in_order :
  forall git r tr it r' err tr',
    lib.NewBranchIterator (repo r) lib.BranchAll = ROk it ->
    Repository_loadBranches git r tr = (Ok (r', err), tr') ->
    exists k,
      Forall2 (loaded_from git)
        (firstn k (lib.bi_Branches (repo r) it)) (Branches r') /\
      match err with
      | None => k = List.length (lib.bi_Branches (repo r) it)
      | Some e =>
          exists b,
            nth_error (lib.bi_Branches (repo r) it) k = Some b /\
            unloadable b e
      end /\
      repo r' = repo r /\ Commits r' = Commits r /\ Remotes r' = Remotes r.
Proof.
  intros git r tr it r' err tr' Hit H.
  destruct (loadBranches_eq git r tr it Hit) as (res & evs & Hfe & _ & Heq).
  rewrite Heq in H. destruct res as [[bs err0]|e|p]; try discriminate.
  inversion H; subst r' err0 tr'. clear H.
  apply BranchIterator_ForEach_prefix in Hfe.
  destruct Hfe as (k & loaded & Hbs & Hall & Herr).
  cbn in Hbs. subst bs. exists k. cbn. repeat split; assumption.
Qed.

Lemma loadBranches_loads_in_order_witness :
  exists k,
    Forall2 (loaded_from Example.git)
      (firstn k (lib.bi_Branches (repo (Example.repository
                                          Example.store_broken [])) 1%N))
      (Branches Example.repo_broken) /\
    (exists b,
        nth_error (lib.bi_Branches (repo (Example.repository
                                            Example.store_broken [])) 1%N) k
          = Some b /\
        unloadable b "invalid branch name") /\
    repo Example.repo_broken = repo (Example.repository Example.store_broken []) /\
    Commits Example.repo_broken =
      Commits (Example.repository Example.store_broken []) /\
    Remotes Example.repo_broken =
      Remotes (Example.repository Example.store_broken []).
Proof.
  apply (loadBranches_loads_in_order Example.git
           (Example.repository Example.store_broken []) [] 1%N
           Example.repo_broken (Some "invalid branch name")
           [Acquire (HBranchIter 1%N); Warn "upstream not found";
            Release (HBranchIter 1%N)]).
  - reflexivity.
  - vm_compute. reflexivity.
Defined.







Lemma loadBranches_fields :
  forall git r tr r' err tr',
    Repository_loadBranches git r tr = (Ok (r', err), tr') ->
    repo r' = repo r /\ Commits r' = Commits r /\ Remotes r' = Remotes r /\
    AbsPath r' = AbsPath r /\ RepoID r' = RepoID r /\
    Repository_Name r' = Repository_Name r.
Proof.
  intros git r tr r' err tr' H.
  destruct (lib.NewBranchIterator (repo r) lib.BranchAll) as [it|e] eqn:Hit.
  - destruct (loadBranches_eq git r tr it Hit) as (res & evs & _ & _ & Heq).
    rewrite Heq in H. destruct res as [[bs err0]|e|p]; try discriminate.
    inversion H; subst. cbn. repeat split; reflexivity.
  - unfold Repository_loadBranches, func in H. rewrite Hit in H.
    go_unfold. inversion H; subst. repeat split; reflexivity.
Qed.

(** X9. A repository returned by Open is the store opened at the path,
    with that path as AbsPath, empty RepoID and Name, no Remote loaded,
    branches that satisfy the upstream invariant and commits
    materialized from the store's walk.  It was returned because
    loadBranches reported no error and loadCommits neither failed nor
    panicked. *)
Theorem Open_result :
  forall git path tr r tr',
    Open git path tr = (Ok r, tr') ->
    lib.OpenRepository git path = ROk (repo r) /\
    AbsPath r = path /\ RepoID r = "" /\ Repository_Name r = "" /\
    Remotes r = [] /\
    Forall Branch_upstream_ok (Branches r) /\
    Forall (walked_commit git (repo r)) (Commits r) /\
    exists r1 tr1,
      Repository_loadBranches git
        {| RepoID := ""; Repository_Name := ""; AbsPath := path;
           repo := repo r; Branches := []; Commits := [];
           Remotes := [] |} tr = (Ok (r1, None), tr1) /\
      Repository_loadCommits git r1 tr1 = (Ok r, tr').
Proof.
  intros git path tr r tr' H.
  unfold Open, func in H. unfold bind at 1 in H.
  destruct (lib.OpenRepository git path) as [s|e] eqn:Hopen;
    cbn [try ret fail] in H; [|discriminate].
  unfold bind at 1 in H. unfold call at 1 in H. go_simpl.
  destruct (Repository_loadBranches git _ tr)
    as [[[r1 err]|e|p] tr1] eqn:Hlb; try discriminate.
  unfold bind at 1 in H.
  destruct err as [e|]; [go_unfold; discriminate|].
  unfold check at 1, ret at 1 in H.
  unfold bind at 1 in H. unfold call at 1 in H. go_simpl.
  destruct (Repository_loadCommits git r1 tr1) as [[r2|e|p] tr2] eqn:Hlc;
    try discriminate.
  go_unfold. cbn in H. rewrite app_nil_r in H. inversion H; subst r2 tr2.
  pose proof (loadBranches_fields _ _ _ _ _ _ Hlb)
    as (Hrepo1 & Hc1 & Hrem1 & Hp1 & Hid1 & Hn1).
  assert (Hok : Forall Branch_upstream_ok (Branches r1))
    by (eapply loadBranches_preserves_ok; [|exact Hlb]; constructor).
  pose proof (loadCommits_walked git _ _ _ _ Hlc) as (Hrepo2 & Hw & Hb2).
  cbn in Hrepo1, Hrem1, Hp1, Hid1, Hn1.
  assert (Hrest : Remotes r = Remotes r1 /\ AbsPath r = AbsPath r1 /\
                  RepoID r = RepoID r1 /\
                  Repository_Name r = Repository_Name r1).
  { rewrite loadCommits_eq in Hlc.
    destruct (lib.Head (repo r1)); [|discriminate].
    destruct (lib.Walk (repo r1)); [|discriminate].
    cbn zeta in Hlc.
    destruct (lib.ref_Target _); [|discriminate].
    destruct (last_at _ _ _) as [cb|].
    - destruct (Upstream cb) as [up|]; [|discriminate].
      destruct (lib.NewOid git (Branch_Hash up)); [|discriminate].
      destruct (lib.rw_Push _ _ _); [discriminate|].
      inversion Hlc; subst. repeat split; reflexivity.
    - destruct (lib.rw_Push _ _ _); [discriminate|].
      inversion Hlc; subst. repeat split; reflexivity. }
  destruct Hrest as (Hrem2 & Hp2 & Hid2 & Hn2).
  assert (Hs : s = repo r1) by congruence. subst s.
  rewrite Hrepo2.
  split; [reflexivity|]. split; [congruence|]. split; [congruence|].
  split; [congruence|]. split; [congruence|].
  split; [rewrite Hb2; exact Hok|].
  split; [exact Hw|].
  exists r1, tr1. split; assumption.
Qed.

Lemma Open_result_witness :
  lib.OpenRepository (Example.git_at Example.store_tracking) "/repo" =
    ROk (repo Example.opened) /\
  AbsPath Example.opened = "/repo" /\ RepoID Example.opened = "" /\
  Repository_Name Example.opened = "" /\
  Remotes Example.opened = [] /\
  Forall Branch_upstream_ok (Branches Example.opened) /\
  Forall (walked_commit (Example.git_at Example.store_tracking)
            (repo Example.opened)) (Commits Example.opened) /\
  exists r1 tr1,
    Repository_loadBranches (Example.git_at Example.store_tracking)
      {| RepoID := ""; Repository_Name := ""; AbsPath := "/repo";
         repo := repo Example.opened; Branches := []; Commits := [];
         Remotes := [] |} [] = (Ok (r1, None), tr1) /\
    Repository_loadCommits (Example.git_at Example.store_tracking) r1 tr1 =
      (Ok Example.opened,
       [Acquire (HBranchIter 1%N); Release (HBranchIter 1%N);
        Acquire (HWalk 2%N); CallPush Example.oidC; Release (HWalk 2%N)]).
Proof.
  apply (Open_result (Example.git_at Example.store_tracking) "/repo" []
           Example.opened
           [Acquire (HBranchIter 1%N); Release (HBranchIter 1%N);
            Acquire (HWalk 2%N); CallPush Example.oidC;
            Release (HWalk 2%N)]).
  vm_compute. reflexivity.
Defined.

(** ** The loop of [Diff], event by event *)

Lemma patch_calls_app :
  forall l1 l2, patch_calls (l1 ++ l2) = patch_calls l1 ++ patch_calls l2.
Proof.
  induction l1 as [|ev l1 IH]; intros l2; [reflexivity|].
  destruct ev; cbn; rewrite IH; reflexivity.
Qed.

Lemma tree_calls_app :
  forall l1 l2, tree_calls (l1 ++ l2) = tree_calls l1 ++ tree_calls l2.
Proof.
  induction l1 as [|ev l1 IH]; intros l2; [reflexivity|].
  destruct ev; cbn; rewrite IH; reflexivity.
Qed.

Lemma patches_acquired_app :
  forall l1 l2,
    patches_acquired (l1 ++ l2) = patches_acquired l1 ++ patches_acquired l2.
Proof.
  induction l1 as [|ev l1 IH]; intros l2; [reflexivity|].
  destruct ev as [h|h| | | |]; try destruct h; cbn; rewrite IH; reflexivity.
Qed.

Lemma patches_released_app :
  forall l1 l2,
    patches_released (l1 ++ l2) = patches_released l1 ++ patches_released l2.
Proof.
  induction l1 as [|ev l1 IH]; intros l2; [reflexivity|].
  destruct ev as [h|h| | | |]; try destruct h; cbn; rewrite IH; reflexivity.
Qed.

Lemma indices_S :
  forall i n, indices i (S n) = i :: indices (i + 1) n.
Proof.
  intros i n. unfold indices. cbn [seq map]. f_equal; [lia|].
  rewrite <- seq_shift, map_map. apply map_ext. intros k. lia.
Qed.

Section DiffLoopEvents.

Variable git : lib.Package.
Variable s : lib.Repository.
Variable diff : lib.Diff.

(** The loop never panics, and logs patch events only. *)
Lemma Diff_loop_outcome :
  forall n i dds ps fr res fr',
    Diff_loop git s diff i n dds ps fr = (res, fr') ->
    (forall p, res <> Panic p) /\
    exists evs, trace fr' = trace fr ++ evs /\ Forall patch_event evs.
Proof.
  induction n as [|n IH]; intros i dds ps fr res fr' H.
  - cbn in H. go_unfold. inversion H; subst. split; [discriminate|].
    exists []. rewrite app_nil_r. split; [reflexivity | constructor].
  - rewrite Diff_loop_S in H. cbn zeta in H.
    assert (Hnext : forall dds1 ps1 fr1 pre,
               Diff_loop git s diff (i + 1) n dds1 ps1 fr1 = (res, fr') ->
               trace fr1 = trace fr ++ pre ->
               Forall patch_event pre ->
               (forall p, res <> Panic p) /\
               exists evs,
                 trace fr' = trace fr ++ evs /\ Forall patch_event evs).
    { intros dds1 ps1 fr1 pre Hrun Ht Hpre.
      apply IH in Hrun. destruct Hrun as [Hnp [evs [Ht' Hevs]]].
      split; [exact Hnp|]. exists (pre ++ evs). split.
      - rewrite Ht', Ht. rewrite <- app_assoc. reflexivity.
      - apply Forall_app. split; assumption. }
    destruct (lib.d_Patch s diff i) as [patch|e1].
    + destruct (lib.d_GetDelta s diff i) as [dd|e2].
      * destruct (lib.p_String s patch) as [text|e3].
        -- destruct (lib.p_Free s patch) as [e4|].
           ++ inversion H; subst. split; [discriminate|]. cbn.
              exists [CallPatch i; Acquire (HPatch patch)].
              rewrite <- app_assoc. split; [reflexivity|].
              repeat constructor.
           ++ apply (Hnext _ _ _ [CallPatch i; Acquire (HPatch patch);
                                  Release (HPatch patch)] H).
              ** cbn. rewrite <- !app_assoc. reflexivity.
              ** repeat constructor.
        -- apply (Hnext _ _ _ [CallPatch i; Acquire (HPatch patch)] H).
           ++ cbn. rewrite <- !app_assoc. reflexivity.
           ++ repeat constructor.
      * apply (Hnext _ _ _ [CallPatch i; Acquire (HPatch patch)] H).
        -- cbn. rewrite <- !app_assoc. reflexivity.
        -- repeat constructor.
    + apply (Hnext _ _ _ [CallPatch i] H).
      * reflexivity.
      * repeat constructor.
Qed.

(** A loop that ends normally asked for the patch of every index once,
    in order, acquired every patch obtained and released those whose
    turn was complete. *)
Lemma Diff_loop_Ok_events :
  forall n i dds ps fr res fr',
    Diff_loop git s diff i n dds ps fr = (Ok res, fr') ->
    exists evs,
      trace fr' = trace fr ++ evs /\
      patch_calls evs = indices i n /\
      patches_acquired evs = map fst (patch_fates s diff i n) /\
      patches_released evs = map fst (filter snd (patch_fates s diff i n)).
Proof.
  induction n as [|n IH]; intros i dds ps fr res fr' H.
  - cbn in H. go_unfold. inversion H; subst.
    exists []. rewrite app_nil_r. repeat split.
  - rewrite Diff_loop_S in H. cbn zeta in H.
    rewrite indices_S. cbn [patch_fates].
    destruct (lib.d_Patch s diff i) as [patch|e1].
    + destruct (lib.d_GetDelta s diff i) as [dd|e2].
      * destruct (lib.p_String s patch) as [text|e3].
        -- destruct (lib.p_Free s patch) as [e4|]; [discriminate|].
           apply IH in H. destruct H as (evs & Ht & Hc & Ha & Hr).
           exists ([CallPatch i; Acquire (HPatch patch);
                    Release (HPatch patch)] ++ evs).
           split; [rewrite Ht; cbn; rewrite <- !app_assoc; reflexivity|].
           rewrite patch_calls_app, patches_acquired_app,
             patches_released_app, Hc, Ha, Hr.
           repeat split.
        -- apply IH in H. destruct H as (evs & Ht & Hc & Ha & Hr).
           exists ([CallPatch i; Acquire (HPatch patch)] ++ evs).
           split; [rewrite Ht; cbn; rewrite <- !app_assoc; reflexivity|].
           rewrite patch_calls_app, patches_acquired_app,
             patches_released_app, Hc, Ha, Hr.
           repeat split.
      * apply IH in H. destruct H as (evs & Ht & Hc & Ha & Hr).
        exists ([CallPatch i; Acquire (HPatch patch)] ++ evs).
        split; [rewrite Ht; cbn; rewrite <- !app_assoc; reflexivity|].
        rewrite patch_calls_app, patches_acquired_app,
          patches_released_app, Hc, Ha, Hr.
        repeat split.
    + apply IH in H. destruct H as (evs & Ht & Hc & Ha & Hr).
      exists ([CallPatch i] ++ evs).
      split; [rewrite Ht; cbn; rewrite <- !app_assoc; reflexivity|].
      rewrite patch_calls_app, patches_acquired_app,
        patches_released_app, Hc, Ha, Hr.
      repeat split.
Qed.

(** A loop that ends with an error ends with that of the first failing
    release. *)
Lemma Diff_loop_Err :
  forall n i dds ps fr e fr',
    Diff_loop git s diff i n dds ps fr = (Err e, fr') ->
    exists k,
      (i <= k < i + Z.of_nat n)%Z /\
      release_error s diff k = Some e /\
      forall j, (i <= j < k)%Z -> release_error s diff j = None.
Proof.
  induction n as [|n IH]; intros i dds ps fr e fr' H.
  - cbn in H. go_unfold. discriminate.
  - rewrite Diff_loop_S in H. cbn zeta in H.
    assert (Hnext : forall dds1 ps1 fr1,
               release_error s diff i = None ->
               Diff_loop git s diff (i + 1) n dds1 ps1 fr1 = (Err e, fr') ->
               exists k,
                 (i <= k < i + Z.of_nat (S n))%Z /\
                 release_error s diff k = Some e /\
                 forall j, (i <= j < k)%Z -> release_error s diff j = None).
    { intros dds1 ps1 fr1 Hi Hrun. apply IH in Hrun.
      destruct Hrun as (k & Hk & Hfail & Hbefore).
      exists k. split; [lia|]. split; [exact Hfail|].
      intros j Hj. destruct (Z.eq_dec j i) as [->|Hne]; [exact Hi|].
      apply Hbefore. lia. }
    unfold release_error in Hnext at 1. unfold release_error at 1.
    destruct (lib.d_Patch s diff i) as [patch|e1] eqn:Hp.
    + destruct (lib.d_GetDelta s diff i) as [dd|e2] eqn:Hd.
      * destruct (lib.p_String s patch) as [text|e3] eqn:Hs.
        -- destruct (lib.p_Free s patch) as [e4|] eqn:Hf.
           ++ inversion H; subst. exists i. split; [lia|]. split.
              ** unfold release_error. rewrite Hp, Hd, Hs. exact Hf.
              ** intros j Hj. lia.
           ++ eapply Hnext; [reflexivity | exact H].
        -- eapply Hnext; [reflexivity | exact H].
      * eapply Hnext; [reflexivity | exact H].
    + eapply Hnext; [reflexivity | exact H].
Qed.

End DiffLoopEvents.

(** ** [Diff], outcome by outcome *)

Section DiffCases.

Variable git : lib.Package.

(** Under [Diff_setup], [Diff] with its events written out. *)
Lemma Diff_unfold_exact :
  forall r c cTree pTree diff statsText deltas tr,
    Diff_setup git r c cTree pTree diff statsText deltas ->
    exists st,
      lib.d_Stats (repo r) diff = ROk st /\
      Repository_Diff git r c tr =
        (let (res, fr) :=
           Diff_loop git (repo r) diff 0 (Z.to_nat deltas) [] []
             {| trace := tr ++ Diff_setup_events cTree pTree diff st;
                defers := Diff_deferred cTree pTree diff |} in
         (match res with
          | Ok (dds, ps) =>
              Ok {| deltas := dds;
                    stats := strings_Split statsText newline;
                    patchs := ps |}
          | Err e => Err e
          | Panic p => Panic p
          end,
          trace fr ++ map Release (defers fr))).
Proof.
  intros r c cTree pTree diff statsText deltas tr
    (cm & opt & st & Hc & Ht & Hp & Ho & Hd & Hs & Hx & Hn).
  exists st. split; [exact Hs|].
  unfold Repository_Diff, func. go_unfold.
  rewrite Hc. go_simpl. rewrite Ht. go_simpl.
  destruct Hp as [[Hpc ->] | [Hpc (parent & pt & Hpar & Hpt & ->)]].
  - rewrite Hpc. cbn [Nat.ltb Nat.leb]. go_simpl.
    rewrite Ho. go_simpl. rewrite Hd. go_simpl. rewrite Hs. go_simpl.
    rewrite Hx. go_simpl. rewrite Hn. go_simpl.
    match goal with
    | |- context [Diff_loop git (repo r) diff 0 _ [] [] ?f] =>
        replace f with
          {| trace := tr ++ Diff_setup_events cTree None diff st;
             defers := Diff_deferred cTree None diff |}
          by (unfold Diff_setup_events, Diff_deferred; cbn;
              rewrite <- !app_assoc; reflexivity)
    end.
    destruct (Diff_loop git (repo r) diff 0 (Z.to_nat deltas) [] [] _)
      as [[[dds ps]|e|p] fr]; reflexivity.
  - destruct (Nat.ltb_spec 0 (lib.c_ParentCount (repo r) cm)) as [_|Hge];
      [|lia].
    rewrite Hpar. go_simpl. rewrite Hpt. go_simpl.
    rewrite Ho. go_simpl. rewrite Hd. go_simpl. rewrite Hs. go_simpl.
    rewrite Hx. go_simpl. rewrite Hn. go_simpl.
    match goal with
    | |- context [Diff_loop git (repo r) diff 0 _ [] [] ?f] =>
        replace f with
          {| trace := tr ++ Diff_setup_events cTree (Some pt) diff st;
             defers := Diff_deferred cTree (Some pt) diff |}
          by (unfold Diff_setup_events, Diff_deferred; cbn;
              rewrite <- !app_assoc; reflexivity)
    end.
    destruct (Diff_loop git (repo r) diff 0 (Z.to_nat deltas) [] [] _)
      as [[[dds ps]|e|p] fr]; reflexivity.
Qed.

(** The store decides which way [Diff] goes before its loop. *)
Lemma Diff_setup_cases :
  forall r c,
    Diff_nil_handle r c \/
    (exists e, Diff_setup_error git r c e) \/
    (exists cTree pTree diff statsText deltas,
        Diff_setup git r c cTree pTree diff statsText deltas).
Proof.
  intros r c.
  destruct (commit c) as [cm|] eqn:Hc; [|left; left; exact Hc].
  destruct (lib.c_Tree (repo r) cm) as [cTree|e] eqn:Ht.
  2: { right. left. exists e, cm. split; [exact Hc|]. left. exact Ht. }
  assert (Hrest : forall pTree,
             Diff_parent_tree r cm pTree ->
             (exists e, Diff_setup_error git r c e) \/
             (exists cTree0 pTree0 diff statsText deltas,
                 Diff_setup git r c cTree0 pTree0 diff statsText deltas)).
  { intros pTree Hparent.
    assert (Herr : forall e,
               Diff_engine_error git (repo r) pTree cTree e ->
               exists e0, Diff_setup_error git r c e0).
    { intros e He. exists e, cm. split; [exact Hc|]. right.
      exists cTree. split; [exact Ht|]. right. exists pTree.
      split; assumption. }
    destruct (lib.DefaultDiffOptions git) as [opt|e] eqn:Ho.
    2: { left. apply (Herr e). left. exact Ho. }
    destruct (lib.DiffTreeToTree (repo r) pTree cTree opt) as [diff|e] eqn:Hd.
    2: { left. apply (Herr e). right. exists opt. split; [exact Ho|].
         left. exact Hd. }
    destruct (lib.d_Stats (repo r) diff) as [st|e] eqn:Hs.
    2: { left. apply (Herr e). right. exists opt. split; [exact Ho|].
         right. exists diff. split; [exact Hd|]. left. exact Hs. }
    destruct (lib.s_String (repo r) st lib.DiffStatsFull 80)
      as [text|e] eqn:Hx.
    2: { left. apply (Herr e). right. exists opt. split; [exact Ho|].
         right. exists diff. split; [exact Hd|]. right.
         exists st. split; [exact Hs|]. left. exact Hx. }
    destruct (lib.d_NumDeltas (repo r) diff) as [n|e] eqn:Hn.
    2: { left. apply (Herr e). right. exists opt. split; [exact Ho|].
         right. exists diff. split; [exact Hd|]. right.
         exists st. split; [exact Hs|]. right.
         exists text. split; [exact Hx | exact Hn]. }
    right. exists cTree, pTree, diff, text, n. exists cm, opt, st.
    split; [exact Hc|]. split; [exact Ht|]. split; [exact Hparent|].
    split; [exact Ho|]. split; [exact Hd|]. split; [exact Hs|].
    split; [exact Hx | exact Hn]. }
  destruct (Nat.eq_dec (lib.c_ParentCount (repo r) cm) 0) as [Hpc|Hpc].
  - right. apply (Hrest None). left. split; [exact Hpc | reflexivity].
  - assert (Hpos : 0 < lib.c_ParentCount (repo r) cm) by lia.
    destruct (lib.c_Parent (repo r) cm 0) as [parent|] eqn:Hpar.
    2: { left. right. exists cm, cTree. repeat split; assumption. }
    destruct (lib.c_Tree (repo r) parent) as [pt|e] eqn:Hpt.
    2: { right. left. exists e, cm. split; [exact Hc|]. right.
         exists cTree. split; [exact Ht|]. left. split; [exact Hpos|].
         exists parent. split; assumption. }
    right. apply (Hrest (Some pt)). right. split; [exact Hpos|].
    exists parent, pt. repeat split; assumption.
Qed.

Ltac rewrite_calls :=
  repeat match goal with
    | H : ?l = _ |- context [?l] => rewrite H; go_simpl
    end.

Ltac diff_stops :=
  eexists; split;
  [ rewrite <- ?app_assoc; cbn [app map]; reflexivity
  | intros ?; reflexivity ].

(** On a nil handle [Diff] panics, having released what it held. *)
Lemma Diff_panics_on_nil_handle :
  forall r c tr,
    Diff_nil_handle r c ->
    exists evs,
      Repository_Diff git r c tr = (Panic nil_dereference, tr ++ evs) /\
      forall st, releases (HStats st) evs = 0.
Proof.
  intros r c tr [Hc | (cm & cTree & Hc & Ht & Hpc & Hpar)];
    unfold Repository_Diff, func; go_unfold.
  - rewrite Hc. cbn. exists []. split; [reflexivity|]. reflexivity.
  - apply Nat.ltb_lt in Hpc. rewrite_calls. cbn. diff_stops.
Qed.

(** On a failing setup call [Diff] returns its error, having released
    what it held. *)
Lemma Diff_fails_on_setup_error :
  forall r c tr e,
    Diff_setup_error git r c e ->
    exists evs,
      Repository_Diff git r c tr = (Err e, tr ++ evs) /\
      forall st, releases (HStats st) evs = 0.
Proof.
  intros r c tr e (cm & Hc & Hrest).
  unfold Repository_Diff, func; go_unfold.
  destruct Hrest as [Ht | (cTree & Ht & Hrest)].
  { rewrite_calls. cbn. exists []. split; [reflexivity|]. reflexivity. }
  destruct Hrest as [(Hpc & parent & Hpar & Hpt) | (pTree & Hparent & Heng)].
  { apply Nat.ltb_lt in Hpc. rewrite_calls. cbn. diff_stops. }
  assert (Hltb : Nat.ltb 0 (lib.c_ParentCount (repo r) cm) =
                 match pTree with Some _ => true | None => false end).
  { destruct Hparent as [[Hz ->] | [Hpos (parent & pt & _ & _ & ->)]].
    - rewrite Hz. reflexivity.
    - apply Nat.ltb_lt. exact Hpos. }
  destruct Hparent as [[Hz ->] | [Hpos (parent & pt & Hpar & Hpt & ->)]];
    destruct Heng as [Ho | (opt & Ho & [Hd | (diff & Hd & Hst)])];
    try destruct Hst as [Hs | (st & Hs & [Hx | (text & Hx & Hn)])];
    clear Hz || clear Hpos;
    rewrite_calls; cbn; diff_stops.
Qed.

(** [Diff] panics on a nil handle, returns the error of a failing setup
    call, or reaches its loop. *)
Lemma Diff_cases :
  forall r c tr,
    (Diff_nil_handle r c /\
     exists evs,
       Repository_Diff git r c tr = (Panic nil_dereference, tr ++ evs) /\
       forall st, releases (HStats st) evs = 0) \/
    (exists e,
        Diff_setup_error git r c e /\
        exists evs,
          Repository_Diff git r c tr = (Err e, tr ++ evs) /\
          forall st, releases (HStats st) evs = 0) \/
    (exists cTree pTree diff statsText deltas,
        Diff_setup git r c cTree pTree diff statsText deltas).
Proof.
  intros r c tr.
  destruct (Diff_setup_cases r c) as [Hnil | [[e He] | Hsetup]].
  - left. split; [exact Hnil|]. apply Diff_panics_on_nil_handle. exact Hnil.
  - right. left. exists e. split; [exact He|].
    apply Diff_fails_on_setup_error. exact He.
  - right. right. exact Hsetup.
Qed.

End DiffCases.

(** ** Handles and calls of [Diff] *)

(** X10. On every exit of Repository.Diff, normal, with an error or by a
    panic, every tree and every diff object it acquired has been
    released. *)
Theorem Diff_always_releases_trees_and_diff :
  forall git r c tr,
    exists evs,
      snd (Repository_Diff git r c tr) = tr ++ evs /\
      forall h, deferred_kind h = true ->
                acquisitions h evs = releases h evs.
Proof.
  intros git r c tr.
  destruct (Repository_Diff git r c tr) as [res tr'] eqn:H.
  apply Diff_releases_trees_and_diff in H. exact H.
Qed.




Lemma Diff_setup_events_calls :
  forall cTree pTree diff st,
    patch_calls (Diff_setup_events cTree pTree diff st) = [] /\
    tree_calls (Diff_setup_events cTree pTree diff st) = [(pTree, cTree)] /\
    patches_acquired (Diff_setup_events cTree pTree diff st) = [] /\
    patches_released (Diff_setup_events cTree pTree diff st) = [] /\
    patch_calls (map Release (Diff_deferred cTree pTree diff)) = [] /\
    tree_calls (map Release (Diff_deferred cTree pTree diff)) = [] /\
    patches_acquired (map Release (Diff_deferred cTree pTree diff)) = [] /\
    patches_released (map Release (Diff_deferred cTree pTree diff)) = [].
Proof.
  intros cTree pTree diff st. unfold Diff_setup_events, Diff_deferred.
  destruct pTree; cbn; repeat split; reflexivity.
Qed.

Lemma patch_events_tree_calls :
  forall evs, Forall patch_event evs -> tree_calls evs = [].
Proof.
  intros evs Hall. induction Hall as [|ev evs Hev _ IH]; [reflexivity|].
  destruct ev; try contradiction; cbn; exact IH.
Qed.

(** A [Diff] that returns a value, with the events of its run. *)
Lemma Diff_Ok_events :
  forall git r c tr d tr',
    Repository_Diff git r c tr = (Ok d, tr') ->
    exists cTree pTree diff statsText deltas evs,
      Diff_setup git r c cTree pTree diff statsText deltas /\
      tr' = tr ++ evs /\
      tree_calls evs = [(pTree, cTree)] /\
      patch_calls evs = indices 0 (Z.to_nat deltas) /\
      patches_acquired evs =
        map fst (patch_fates (repo r) diff 0 (Z.to_nat deltas)) /\
      patches_released evs =
        map fst (filter snd (patch_fates (repo r) diff 0 (Z.to_nat deltas))).
Proof.
  intros git r c tr d tr' H.
  destruct (Diff_Ok_setup git r c tr d tr' H)
    as (cTree & pTree & diff & text & n & Hsetup).
  destruct (Diff_unfold_exact git r c cTree pTree diff text n tr Hsetup)
    as (st & _ & Heq).
  rewrite Heq in H. clear Heq.
  destruct (Diff_loop git (repo r) diff 0 (Z.to_nat n) [] [] _)
    as [[[dds ps]|e|p] fr] eqn:Hloop; try discriminate.
  inversion H; subst d tr'. clear H.
  pose proof Hloop as Hframe. apply Diff_loop_frame in Hframe.
  destruct Hframe as [Hd _].
  pose proof Hloop as Hout. apply Diff_loop_outcome in Hout.
  destruct Hout as [_ [evs0 [Ht0 Hpatch]]].
  apply Diff_loop_Ok_events in Hloop.
  destruct Hloop as (evs & Ht & Hc & Ha & Hr).
  cbn in Hd, Ht, Ht0.
  assert (evs0 = evs) by (rewrite Ht in Ht0; apply app_inv_head in Ht0;
                          congruence).
  subst evs0.
  exists cTree, pTree, diff, text, n,
    (Diff_setup_events cTree pTree diff st ++ evs
       ++ map Release (Diff_deferred cTree pTree diff)).
  destruct (Diff_setup_events_calls cTree pTree diff st)
    as (Hc1 & Ht1 & Ha1 & Hr1 & Hc2 & Ht2 & Ha2 & Hr2).
  split; [exact Hsetup|].
  split; [rewrite Ht, Hd; rewrite <- !app_assoc; reflexivity|].
  rewrite !tree_calls_app, !patch_calls_app, !patches_acquired_app,
    !patches_released_app.
  rewrite Hc1, Ht1, Ha1, Hr1, Hc2, Ht2, Ha2, Hr2, Hc, Ha, Hr.
  rewrite (patch_events_tree_calls evs Hpatch).
  rewrite !app_nil_r. repeat split; reflexivity.
Qed.

(** X12. A Diff that returns a value has acquired every patch that
    diff.Patch gave it, in index order, and released exactly those whose
    structured delta and text were obtained too: a patch whose turn is
    skipped after it was obtained is never released. *)
Theorem Diff_patch_handles :
  forall git r c tr d tr',
    Repository_Diff git r c tr = (Ok d, tr') ->
    exists cTree pTree diff statsText deltas evs,
      Diff_setup git r c cTree pTree diff statsText deltas /\
      tr' = tr ++ evs /\
      patches_acquired evs =
        map fst (patch_fates (repo r) diff 0 (Z.to_nat deltas)) /\
      patches_released evs =
        map fst (filter snd (patch_fates (repo r) diff 0 (Z.to_nat deltas))).
Proof.
  intros git r c tr d tr' H.
  destruct (Diff_Ok_events git r c tr d tr' H)
    as (cTree & pTree & diff & text & n & evs & Hs & Ht & _ & _ & Ha & Hr).
  exists cTree, pTree, diff, text, n, evs. repeat split; assumption.
Qed.

Lemma Diff_patch_handles_witness :
  exists cTree pTree diff statsText deltas evs,
    Diff_setup Example.git Example.repo_skip
      (Example.walked Example.store_skip 1%N)
      cTree pTree diff statsText deltas /\
    Example.trace_skip = [] ++ evs /\
    patches_acquired evs =
      map fst (patch_fates (repo Example.repo_skip) diff 0 (Z.to_nat deltas)) /\
    patches_released evs =
      map fst (filter snd
                 (patch_fates (repo Example.repo_skip) diff 0
                    (Z.to_nat deltas))).
Proof.
  apply (Diff_patch_handles Example.git Example.repo_skip
           (Example.walked Example.store_skip 1%N) []
           Example.diff_skip Example.trace_skip).
  vm_compute. reflexivity.
Defined.

(** X13. A Diff that returns a value has asked the engine for exactly
    one tree-to-tree diff, of the tree of the commit's first parent (of
    no tree for a commit without parent) against the commit's tree, and
    then for the patch of every index from 0 to the number of deltas,
    once each, in increasing order. *)
Theorem Diff_engine_calls :
  forall git r c tr d tr',
    Repository_Diff git r c tr = (Ok d, tr') ->
    exists cTree pTree diff statsText deltas evs,
      Diff_setup git r c cTree pTree diff statsText deltas /\
      tr' = tr ++ evs /\
      tree_calls evs = [(pTree, cTree)] /\
      patch_calls evs = indices 0 (Z.to_nat deltas).
Proof.
  intros git r c tr d tr' H.
  destruct (Diff_Ok_events git r c tr d tr' H)
    as (cTree & pTree & diff & text & n & evs & Hs & Ht & Htc & Hpc & _).
  exists cTree, pTree, diff, text, n, evs. repeat split; assumption.
Qed.

Lemma Diff_engine_calls_witness :
  exists cTree pTree diff statsText deltas evs,
    Diff_setup Example.git Example.repo_skip
      (Example.walked Example.store_skip 3%N)
      cTree pTree diff statsText deltas /\
    snd (Repository_Diff Example.git Example.repo_skip
           (Example.walked Example.store_skip 3%N) []) = [] ++ evs /\
    tree_calls evs = [(pTree, cTree)] /\
    patch_calls evs = indices 0 (Z.to_nat deltas).
Proof.
  apply (Diff_engine_calls Example.git Example.repo_skip
           (Example.walked Example.store_skip 3%N) []
           (Example.value_of
              (Repository_Diff Example.git Example.repo_skip
                 (Example.walked Example.store_skip 3%N) []))).
  vm_compute. reflexivity.
Defined.

(** ** Panics and errors of [Diff] *)

(** X14. Repository.Diff panics exactly when it dereferences a nil
    handle: the commit's own handle is nil, or the commit has a parent
    and commit.Parent(0) is nil.  Its loop never panics. *)
Theorem Diff_panics_iff :
  forall git r c tr,
    (exists p tr', Repository_Diff git r c tr = (Panic p, tr')) <->
    Diff_nil_handle r c.
Proof.
  intros git r c tr. split.
  - intros (p & tr' & H).
    destruct (Diff_cases git r c tr)
      as [[Hnil _] | [(e & _ & evs & Heq & _) | Hsetup]].
    + exact Hnil.
    + rewrite Heq in H. discriminate.
    + destruct Hsetup as (cTree & pTree & diff & text & n & Hsetup).
      destruct (Diff_unfold_exact git r c cTree pTree diff text n tr Hsetup)
        as (st & _ & Heq).
      rewrite Heq in H. clear Heq.
      destruct (Diff_loop git (repo r) diff 0 (Z.to_nat n) [] [] _)
        as [res fr] eqn:Hloop.
      apply Diff_loop_outcome in Hloop. destruct Hloop as [Hnp _].
      destruct res as [[dds ps]|e|p0]; try discriminate.
      exfalso. apply (Hnp p0). reflexivity.
  - intros Hnil.
    destruct (Diff_panics_on_nil_handle git r c tr Hnil) as (evs & Heq & _).
    eauto.
Qed.

(** X15. When Repository.Diff returns an error, it is the error of one
    of the calls before the loop (a tree, the diff options, the
    tree-to-tree diff, its statistics, their text, the number of deltas)
    or the error of the first patch.Free() that fails.  An error of
    diff.Patch, diff.GetDelta or patch.String is never returned. *)
Theorem Diff_errors :
  forall git r c tr e tr',
    Repository_Diff git r c tr = (Err e, tr') ->
    Diff_setup_error git r c e \/
    exists cTree pTree diff statsText deltas k,
      Diff_setup git r c cTree pTree diff statsText deltas /\
      (0 <= k < deltas)%Z /\
      release_error (repo r) diff k = Some e /\
      forall j, (0 <= j < k)%Z -> release_error (repo r) diff j = None.
Proof.
  intros git r c tr e tr' H.
  destruct (Diff_cases git r c tr)
    as [[_ (evs & Heq & _)] | [(e0 & He0 & evs & Heq & _) | Hsetup]].
  - rewrite Heq in H. discriminate.
  - rewrite Heq in H. inversion H; subst. left. exact He0.
  - right. destruct Hsetup as (cTree & pTree & diff & text & n & Hsetup).
    destruct (Diff_unfold_exact git r c cTree pTree diff text n tr Hsetup)
      as (st & _ & Heq).
    rewrite Heq in H. clear Heq.
    destruct (Diff_loop git (repo r) diff 0 (Z.to_nat n) [] [] _)
      as [[[dds ps]|e0|p] fr] eqn:Hloop; try discriminate.
    inversion H; subst e0. apply Diff_loop_Err in Hloop.
    destruct Hloop as (k & Hk & Hfail & Hbefore).
    exists cTree, pTree, diff, text, n, k.
    split; [exact Hsetup|]. split; [lia|]. split; [exact Hfail|].
    intros j Hj. apply Hbefore. lia.
Qed.

Lemma Diff_errors_witness :
  Diff_setup_error Example.git Example.repo_nofree
    (Example.walked Example.store_nofree 1%N) "release failed" \/
  exists cTree pTree diff statsText deltas k,
    Diff_setup Example.git Example.repo_nofree
      (Example.walked Example.store_nofree 1%N)
      cTree pTree diff statsText deltas /\
    (0 <= k < deltas)%Z /\
    release_error (repo Example.repo_nofree) diff k = Some "release failed" /\
    forall j, (0 <= j < k)%Z ->
              release_error (repo Example.repo_nofree) diff j = None.
Proof.
  apply (Diff_errors Example.git Example.repo_nofree
           (Example.walked Example.store_nofree 1%N) [] "release failed"
           (snd (Repository_Diff Example.git Example.repo_nofree
                   (Example.walked Example.store_nofree 1%N) []))).
  vm_compute. reflexivity.
Defined.

(** ** The deltas of a [Diff] *)

Lemma extracted_filter :
  forall git s diff n i,
    Forall2 (built_at git s diff)
      (filter (extracts git s diff) (indices i n))
      (extracted git s diff i n).
Proof.
  intros git s diff. induction n as [|n IH]; intros i.
  - constructor.
  - rewrite indices_S. cbn [filter extracted]. unfold extracts at 1.
    destruct (extract git s diff i) as [dl|] eqn:Hex; [|apply IH].
    constructor; [|apply IH].
    unfold extract in Hex.
    destruct (lib.d_Patch s diff i) as [patch|] eqn:Hp; [|discriminate].
    destruct (lib.d_GetDelta s diff i) as [dd|] eqn:Hd; [|discriminate].
    destruct (lib.p_String s patch) as [text|] eqn:Hs; [|discriminate].
    inversion Hex; subst dl.
    exists patch, dd, text. repeat split; assumption.
Qed.

(** X16. The deltas of a returned Diff are, in increasing index order,
    those of the indices at which diff.Patch, diff.GetDelta and
    patch.String all succeed; each one copies the status and the two
    paths of the engine's delta at its index, prints its two ids as
    hashes, and carries as Patch the text of the patch of the same
    index. *)
Theorem Diff_deltas_come_from_engine :
  forall git r c tr d tr',
    Repository_Diff git r c tr = (Ok d, tr') ->
    exists cTree pTree diff statsText deltas,
      Diff_setup git r c cTree pTree diff statsText deltas /\
      Forall2 (built_at git (repo r) diff)
        (filter (extracts git (repo r) diff) (indices 0 (Z.to_nat deltas)))
        (Deltas d).
Proof.
  intros git r c tr d tr' H.
  destruct (Diff_Ok_setup git r c tr d tr' H)
    as (cTree & pTree & diff & text & n & Hsetup).
  destruct (Diff_Ok_result git r c cTree pTree diff text n tr d tr' Hsetup H)
    as (Hd & _).
  exists cTree, pTree, diff, text, n. split; [exact Hsetup|].
  rewrite Hd. apply extracted_filter.
Qed.

Lemma Diff_deltas_come_from_engine_witness :
  exists cTree pTree diff statsText deltas,
    Diff_setup Example.git Example.repo_skip
      (Example.walked Example.store_skip 1%N)
      cTree pTree diff statsText deltas /\
    Forall2 (built_at Example.git (repo Example.repo_skip) diff)
      (filter (extracts Example.git (repo Example.repo_skip) diff)
         (indices 0 (Z.to_nat deltas)))
      (Deltas Example.diff_skip).
Proof.
  apply (Diff_deltas_come_from_engine Example.git Example.repo_skip
           (Example.walked Example.store_skip 1%N) []
           Example.diff_skip Example.trace_skip).
  vm_compute. reflexivity.
Defined.

(** X17. Deltas() of a returned Diff has as many entries as the diff has
    deltas exactly when no extraction failed; otherwise it has fewer. *)
Theorem Diff_complete_iff :
  forall git r c cTree pTree diff statsText deltas tr d tr',
    Diff_setup git r c cTree pTree diff statsText deltas ->
    Repository_Diff git r c tr = (Ok d, tr') ->
    (List.length (Deltas d) <= Z.to_nat deltas)%nat /\
    (List.length (Deltas d) = Z.to_nat deltas <->
     forall j, (0 <= j < deltas)%Z -> extract git (repo r) diff j <> None).
Proof.
  intros git r c cTree pTree diff statsText deltas tr d tr' Hsetup H.
  destruct (Diff_Ok_result git r c cTree pTree diff statsText deltas
              tr d tr' Hsetup H) as (Hd & _).
  rewrite Hd. split; [apply extracted_length|]. split.
  - intros Hlen j Hj Hnone.
    assert (Hlt : (List.length (extracted git (repo r) diff 0
                                  (Z.to_nat deltas)) < Z.to_nat deltas)%nat)
      by (apply (extracted_length_lt git (repo r) diff _ 0%Z j);
          [lia | exact Hnone]).
    lia.
  - intros Hall. apply extracted_all. intros j Hj. apply Hall. lia.
Qed.

Lemma Diff_complete_iff_witness :
  (List.length (Deltas Example.diff_ok) <= Z.to_nat 3)%nat /\
  (List.length (Deltas Example.diff_ok) = Z.to_nat 3 <->
   forall j, (0 <= j < 3)%Z ->
             extract Example.git (repo Example.repo_ok) 111%N j <> None).
Proof.
  apply (Diff_complete_iff Example.git Example.repo_ok
           (Example.walked Example.store_ok 1%N)
           11%N None 111%N Example.statsText 3%Z []
           Example.diff_ok Example.trace_ok).
  - exists 1%N, 0%N, 311%N. cbn. repeat split; auto.
  - vm_compute. reflexivity.
Defined.

(** ** [DiffFromHash] *)

(** X18. DiffFromHash returns the error of NewOid or of LookupCommit
    when the hash does not resolve to a commit, without touching the
    store further; otherwise it runs Diff on that commit's handle, and
    then panics only when the commit has a parent and Parent(0) is nil:
    the handle it passes is never nil. *)
Theorem DiffFromHash_outcomes :
  forall git r hash tr,
    match lib.NewOid git hash with
    | RErr e => Repository_DiffFromHash git r hash tr = (Err e, tr)
    | ROk oid =>
        match lib.LookupCommit (repo r) oid with
        | RErr e => Repository_DiffFromHash git r hash tr = (Err e, tr)
        | ROk ch =>
            ((exists p tr',
                 Repository_DiffFromHash git r hash tr = (Panic p, tr')) <->
             (exists cTree,
                 lib.c_Tree (repo r) ch = ROk cTree /\
                 0 < lib.c_ParentCount (repo r) ch /\
                 lib.c_Parent (repo r) ch 0 = None))
        end
    end.
Proof.
  intros git r hash tr.
  destruct (lib.NewOid git hash) as [oid|e] eqn:Hoid.
  - destruct (lib.LookupCommit (repo r) oid) as [ch|e] eqn:Hlook.
    + rewrite (DiffFromHash_resolved git r hash oid ch tr Hoid Hlook).
      split.
      * intros (p & tr' & H).
        destruct (Diff_cases git r
                    {| commit := Some ch; Commit_Hash := ""; Author := None;
                       Message := ""; Summary := ""; Commit_Type := "" |} tr)
          as [[Hnil _] | [(e & _ & evs & Heq & _) | Hsetup]].
        -- destruct Hnil as [Hnil | (cm & cTree & Hc & Ht & Hpc & Hpar)];
             [discriminate|].
           cbn in Hc. inversion Hc; subst cm. exists cTree.
           repeat split; assumption.
        -- rewrite Heq in H. discriminate.
        -- destruct Hsetup as (cTree & pTree & diff & text & n & Hsetup).
           destruct (Diff_unfold_exact git r _ cTree pTree diff text n tr
                       Hsetup) as (st & _ & Heq).
           rewrite Heq in H. clear Heq.
           destruct (Diff_loop git (repo r) diff 0 (Z.to_nat n) [] [] _)
             as [res fr] eqn:Hloop.
           apply Diff_loop_outcome in Hloop. destruct Hloop as [Hnp _].
           destruct res as [[dds ps]|e|p0]; try discriminate.
           exfalso. apply (Hnp p0). reflexivity.
      * intros (cTree & Ht & Hpc & Hpar).
        destruct (Diff_panics_on_nil_handle git r
                    {| commit := Some ch; Commit_Hash := ""; Author := None;
                       Message := ""; Summary := ""; Commit_Type := "" |} tr)
          as (evs & Heq & _).
        { right. exists ch, cTree. repeat split; assumption. }
        eauto.
    + unfold Repository_DiffFromHash, func. go_unfold.
      rewrite Hoid, Hlook. cbn. rewrite app_nil_r. reflexivity.
  - unfold Repository_DiffFromHash, func. go_unfold.
    rewrite Hoid. cbn. rewrite app_nil_r. reflexivity.
Qed.

(** ** The rendering of a delta, the other cases *)

Lemma path_nonempty :
  forall s, s <> "" -> Nat.ltb 0 (String.length s) = true.
Proof. intros s Hs. destruct s; [congruence | reflexivity]. Qed.

(** X19. DiffDelta.String() reads no hash unless both paths are
    non-empty and equal.  With an empty OldFile.Path it returns the
    status and a space, and does not even look at NewFile; with an empty
    NewFile.Path it returns the same; with two different non-empty paths
    it returns the status and the rename arrow. *)
Theorem DiffDelta_String_without_hashes :
  forall d old,
    OldFile d = Some old ->
    (DiffFile_Path old = "" ->
     DiffDelta_String d = Ok (strconv_Itoa (Status d) +++ " ")) /\
    (forall new,
        NewFile d = Some new ->
        DiffFile_Path new = "" ->
        DiffDelta_String d = Ok (strconv_Itoa (Status d) +++ " ")) /\
    (forall new,
        NewFile d = Some new ->
        DiffFile_Path old <> "" ->
        DiffFile_Path new <> "" ->
        DiffFile_Path old <> DiffFile_Path new ->
        DiffDelta_String d =
          Ok ((strconv_Itoa (Status d) +++ " ") +++ DiffFile_Path old
                +++ " -> " +++ DiffFile_Path new)).
Proof.
  intros d old Hold. unfold DiffDelta_String. rewrite Hold.
  split; [|split].
  - intros Hempty. rewrite Hempty. reflexivity.
  - intros new Hnew Hempty. rewrite Hnew, Hempty.
    destruct (DiffFile_Path old); reflexivity.
  - intros new Hnew Ho Hn Hne. rewrite Hnew.
    rewrite (path_nonempty _ Ho), (path_nonempty _ Hn).
    destruct (String.eqb_spec (DiffFile_Path old) (DiffFile_Path new))
      as [Heq|_]; [congruence | reflexivity].
Qed.

Lemma DiffDelta_String_without_hashes_witness :
  (DiffFile_Path {| DiffFile_Path := "old.txt"; DiffFile_Hash := "" |} = "" ->
   DiffDelta_String
     {| Status := 4%Z;
        OldFile := Some {| DiffFile_Path := "old.txt"; DiffFile_Hash := "" |};
        NewFile := Some {| DiffFile_Path := "new.txt"; DiffFile_Hash := "" |};
        Patch := "" |} = Ok ("4" +++ " ")) /\
  (forall new,
      Some {| DiffFile_Path := "new.txt"; DiffFile_Hash := "" |} = Some new ->
      DiffFile_Path new = "" ->
      DiffDelta_String
        {| Status := 4%Z;
           OldFile := Some {| DiffFile_Path := "old.txt"; DiffFile_Hash := "" |};
           NewFile := Some {| DiffFile_Path := "new.txt"; DiffFile_Hash := "" |};
           Patch := "" |} = Ok ("4" +++ " ")) /\
  (forall new,
      Some {| DiffFile_Path := "new.txt"; DiffFile_Hash := "" |} = Some new ->
      "old.txt" <> "" ->
      DiffFile_Path new <> "" ->
      "old.txt" <> DiffFile_Path new ->
      DiffDelta_String
        {| Status := 4%Z;
           OldFile := Some {| DiffFile_Path := "old.txt"; DiffFile_Hash := "" |};
           NewFile := Some {| DiffFile_Path := "new.txt"; DiffFile_Hash := "" |};
           Patch := "" |} =
        Ok (("4" +++ " ") +++ "old.txt" +++ " -> " +++ DiffFile_Path new)).
Proof.
  apply (DiffDelta_String_without_hashes
           {| Status := 4%Z;
              OldFile := Some {| DiffFile_Path := "old.txt";
                                 DiffFile_Hash := "" |};
              NewFile := Some {| DiffFile_Path := "new.txt";
                                 DiffFile_Hash := "" |};
              Patch := "" |}
           {| DiffFile_Path := "old.txt"; DiffFile_Hash := "" |}).
  reflexivity.
Defined.

(** X20. DiffDelta.String() never returns an error, and panics exactly
    in these cases: OldFile is nil; OldFile.Path is non-empty and NewFile
    is nil; or the two paths are non-empty and equal and one of the two
    hashes has fewer than 7 bytes. *)
Theorem DiffDelta_String_panics_iff :
  forall d,
    (forall e, DiffDelta_String d <> Err e) /\
    ((exists p, DiffDelta_String d = Panic p) <->
     (OldFile d = None \/
      exists old,
        OldFile d = Some old /\
        DiffFile_Path old <> "" /\
        (NewFile d = None \/
         exists new,
           NewFile d = Some new /\
           DiffFile_Path new = DiffFile_Path old /\
           (String.length (DiffFile_Hash old) < 7 \/
            String.length (DiffFile_Hash new) < 7)))).
Proof.
  intros d. unfold DiffDelta_String.
  destruct (OldFile d) as [old|] eqn:Hold.
  2: { split; [discriminate|]. split; [intros _; left; reflexivity|].
       intros _. eauto. }
  destruct (DiffFile_Path old) as [|ch rest] eqn:Hpo.
  { cbn. split; [discriminate|]. split.
    - intros (p & H). discriminate.
    - intros [H | (old0 & H0 & Hne & _)]; [discriminate|].
      inversion H0; subst old0. congruence. }
  cbn [String.length Nat.ltb Nat.leb].
  destruct (NewFile d) as [new|] eqn:Hnew.
  2: { split; [discriminate|]. split; [|intros _; eauto].
       intros _. right. exists old. split; [reflexivity|].
       split; [congruence|]. left. reflexivity. }
  destruct (DiffFile_Path new) as [|ch' rest'] eqn:Hpn.
  { cbn. split; [discriminate|]. split.
    - intros (p & H). discriminate.
    - intros [H | (old0 & H0 & _ & [H1 | (new0 & H1 & Heq & _)])];
        try discriminate.
      inversion H0; subst old0. inversion H1; subst new0. congruence. }
  cbn [String.length Nat.ltb Nat.leb].
  destruct (String.eqb_spec (String ch rest) (String ch' rest')) as [Heq|Hne].
  2: { split; [discriminate|]. split.
       - intros (p & H). discriminate.
       - intros [H | (old0 & H0 & _ & [H1 | (new0 & H1 & Heq & _)])];
           try discriminate.
         inversion H0; subst old0. inversion H1; subst new0. congruence. }
  unfold slice_to.
  destruct (Nat.leb_spec 7 (String.length (DiffFile_Hash old))) as [Hlo|Hlo];
    destruct (Nat.leb_spec 7 (String.length (DiffFile_Hash new))) as [Hln|Hln];
    (split; [discriminate|]); split;
    try (intros (p & H); discriminate);
    try (intros _; eexists; reflexivity);
    try (intros _; right; exists old; split; [reflexivity|];
         split; [congruence|]; right; exists new; split; [reflexivity|];
         split; [congruence|]; lia).
  intros [H | (old0 & H0 & _ & [H1 | (new0 & H1 & _ & Hshort)])];
    try discriminate.
  inversion H0; subst old0. inversion H1; subst new0. lia.
Qed.

(** X21. Every delta of a returned Diff can be rendered: when the ids
    of the engine's deltas print on at least 7 bytes (git prints 40 hex
    digits), DiffDelta.String() returns a text, and does not panic, for
    each delta of Deltas(). *)
Theorem Diff_deltas_render :
  forall git r c cTree pTree diff statsText deltas tr d tr',
    Diff_setup git r c cTree pTree diff statsText deltas ->
    (forall j dd,
        (0 <= j < deltas)%Z ->
        lib.d_GetDelta (repo r) diff j = ROk dd ->
        7 <= String.length
               (lib.oid_String git (lib.df_Oid (lib.dd_OldFile dd))) /\
        7 <= String.length
               (lib.oid_String git (lib.df_Oid (lib.dd_NewFile dd)))) ->
    Repository_Diff git r c tr = (Ok d, tr') ->
    Forall (fun dl => exists text, DiffDelta_String dl = Ok text) (Deltas d).
Proof.
  intros git r c cTree pTree diff statsText deltas tr d tr' Hsetup Hlen H.
  destruct (Diff_Ok_result git r c cTree pTree diff statsText deltas
              tr d tr' Hsetup H) as (Hd & _).
  rewrite Hd. apply extracted_Forall. intros j dd text Hj Hdd.
  destruct (Hlen j dd) as [Hlo Hln]; [lia | exact Hdd |].
  unfold DiffDelta_String. cbn [OldFile NewFile set_Patch DiffDelta_of
                                DiffFile_Path DiffFile_Hash Status].
  destruct (Nat.ltb 0 (String.length (lib.df_Path (lib.dd_OldFile dd))));
    [|eauto].
  destruct (Nat.ltb 0 (String.length (lib.df_Path (lib.dd_NewFile dd))));
    [|eauto].
  destruct (String.eqb (lib.df_Path (lib.dd_OldFile dd))
              (lib.df_Path (lib.dd_NewFile dd))); [|eauto].
  unfold slice_to.
  destruct (Nat.leb_spec 7
              (String.length
                 (lib.oid_String git (lib.df_Oid (lib.dd_OldFile dd)))));
    [|lia].
  destruct (Nat.leb_spec 7
              (String.length
                 (lib.oid_String git (lib.df_Oid (lib.dd_NewFile dd)))));
    [|lia].
  eauto.
Qed.

Lemma Diff_deltas_render_witness :
  Forall (fun dl => exists text, DiffDelta_String dl = Ok text)
    (Deltas Example.diff_ok).
Proof.
  apply (Diff_deltas_render Example.git Example.repo_ok
           (Example.walked Example.store_ok 1%N)
           11%N None 111%N Example.statsText 3%Z []
           Example.diff_ok Example.trace_ok).
  - exists 1%N, 0%N, 311%N. cbn. repeat split; auto.
  - intros j dd Hj Hdd. cbn in Hdd. inversion Hdd; subst dd. cbn.
    destruct (Z.eqb j 0); [|destruct (Z.eqb j 1)]; vm_compute; lia.
  - vm_compute. reflexivity.
Defined.

(** ** The statistics lines *)

Lemma one_line_append :
  forall a b, newlines (a +++ b) = newlines a + newlines b.
Proof.
  induction a as [|ch a IH]; intros b; [reflexivity|].
  cbn [String.append newlines]. rewrite IH.
  destruct (Ascii.eqb ch (ascii_of_nat 10)); reflexivity.
Qed.

Lemma append_assoc_string :
  forall a b c, (a +++ b) +++ c = a +++ (b +++ c).
Proof.
  induction a as [|ch a IH]; intros b c; [reflexivity|].
  cbn. rewrite IH. reflexivity.
Qed.

Lemma split_from_newline_step :
  forall ch rest cur,
    split_from newline (String ch rest) 0 cur =
      if Ascii.eqb ch (ascii_of_nat 10)
      then cur :: split_from newline rest 0 ""
      else split_from newline rest 0 (cur +++ String ch "").
Proof.
  intros ch rest cur. cbn [split_from]. unfold newline.
  cbn [prefix String.length Nat.sub].
  destruct (ascii_dec (ascii_of_nat 10) ch) as [Heq|Hne];
    destruct (Ascii.eqb_spec ch (ascii_of_nat 10)) as [Heq'|Hne'];
    try congruence.
  destruct rest; reflexivity.
Qed.

(** Cutting at the line feeds and joining with line feeds gives the text
    back; no piece holds a line feed. *)
Lemma split_from_newline_join :
  forall s cur,
    one_line cur ->
    String.concat newline (split_from newline s 0 cur) = cur +++ s /\
    Forall one_line (split_from newline s 0 cur).
Proof.
  induction s as [|ch rest IH]; intros cur Hcur.
  - cbn. split.
    + clear Hcur. induction cur as [|c cur IHc]; [reflexivity|].
      cbn. rewrite <- IHc. reflexivity.
    + constructor; [exact Hcur | constructor].
  - rewrite split_from_newline_step.
    destruct (Ascii.eqb_spec ch (ascii_of_nat 10)) as [Heq|Hne].
    + subst ch. destruct (IH "" eq_refl) as [Hjoin Hall].
      split; [|constructor; assumption].
      cbn [String.concat].
      destruct (split_from newline rest 0 "") as [|piece pieces] eqn:Hsp.
      * exfalso. pose proof (split_from_newline_length rest "") as Hl.
        rewrite Hsp in Hl. discriminate.
      * rewrite Hjoin. reflexivity.
    + assert (Hone : one_line (cur +++ String ch "")).
      { unfold one_line in *. rewrite one_line_append, Hcur.
        cbn [newlines Nat.add].
        destruct (Ascii.eqb_spec ch (ascii_of_nat 10)) as [Heq|_];
          [congruence | reflexivity]. }
      destruct (IH (cur +++ String ch "") Hone) as [Hjoin Hall].
      split; [|exact Hall].
      rewrite Hjoin. rewrite append_assoc_string. reflexivity.
Qed.

(** X22. The Stats() of a returned Diff are the pieces of the engine's
    statistics text between its line feeds: no piece holds a line feed,
    and joined with line feeds they give the text back unchanged. *)
Theorem Diff_stats_join :
  forall git r c cTree pTree diff statsText deltas tr d tr',
    Diff_setup git r c cTree pTree diff statsText deltas ->
    Repository_Diff git r c tr = (Ok d, tr') ->
    String.concat newline (Stats d) = statsText /\
    Forall one_line (Stats d).
Proof.
  intros git r c cTree pTree diff statsText deltas tr d tr' Hsetup H.
  destruct (Diff_Ok_result git r c cTree pTree diff statsText deltas
              tr d tr' Hsetup H) as (_ & _ & Hs & _).
  rewrite Hs. unfold strings_Split.
  apply (split_from_newline_join statsText ""). reflexivity.
Qed.

Lemma Diff_stats_join_witness :
  String.concat newline (Stats Example.diff_ok) = Example.statsText /\
  Forall one_line (Stats Example.diff_ok).
Proof.
  apply (Diff_stats_join Example.git Example.repo_ok
           (Example.walked Example.store_ok 1%N)
           11%N None 111%N Example.statsText 3%Z []
           Example.diff_ok Example.trace_ok).
  - exists 1%N, 0%N, 311%N. cbn. repeat split; auto.
  - vm_compute. reflexivity.
Defined.
